(** * fps-multiplayer-three: simulation core, shallow embedding

    JavaScript numbers are modelled as exact rationals ([Q]); the only
    non-finite value the code relies on, [Infinity] for unbounded ammo, is
    modelled by [JsNum].  Where the program decides by comparing numbers it
    has accumulated or multiplied (the distance a projectile has travelled,
    the respawn countdown, the reconciliation threshold), every operation is
    rounded as IEEE 754 binary64 rounds it ([fl64]), so that the decision of
    the model is the decision of the program.  The transcendental built-ins
    of [Math] are taken as an interface ([Math]).  Objects that the code
    mutates in place are modelled by explicit state passing: a method returns
    the new state of its receiver (and of every other object it writes to). *)

From Stdlib Require Import QArith Qround Qminmax Qabs Qpower ZArith List String Ascii Bool Lia Lqa.
Import ListNotations.
Local Open Scope Q_scope.

(** ** Numbers *)

Definition Qltb (a b : Q) : bool := negb (Qle_bool b a).
Definition Qleb (a b : Q) : bool := Qle_bool a b.

(** [Math.round]: the nearest integer, halves rounded towards +Infinity. *)
Definition Math_round (v : Q) : Q := inject_Z (Qfloor (v + (1 # 2))).

(** shared/utils/math-utils.js *)
Definition clamp (value min max : Q) : Q := Qmax min (Qmin value max).

(** *** Binary64 rounding

    A JavaScript number is an IEEE 754 binary64 value and every arithmetic
    operation returns the value nearest to the exact result, a tie going to
    the neighbour with an even significand.  [fl64] is that rounding on the
    rationals: 53 significant bits in the normal range, the fixed spacing
    2^-1074 below 2^-1022 (gradual underflow).  The exponent has no upper
    limit here: a result beyond the largest double (about 1.8e308), which
    JavaScript turns into [Infinity], stays a finite number. *)

Definition pow2 (k : Z) : Q := 2 ^ k.

(** The integer e with 2^e <= q < 2^(e+1), for q > 0. *)
Definition ilog2 (q : Q) : Z :=
  let e := (Z.log2 (Qnum q) - Z.log2 (Zpos (Qden q)))%Z in
  if Qleb (pow2 e) q then e else (e - 1)%Z.

(** The nearest integer, a half going to the even neighbour. *)
Definition roundHalfEven (q : Q) : Z :=
  let f := Qfloor q in
  let r := q - inject_Z f in
  if Qltb r (1 # 2) then f
  else if Qltb (1 # 2) r then (f + 1)%Z
  else if Z.even f then f else (f + 1)%Z.

(** The exponent of the smallest normal double. *)
Definition EMIN : Z := (-1022)%Z.

(** A positive number rounded to a multiple of the spacing of the doubles
    around it. *)
Definition roundMagnitude (a : Q) : Q :=
  let e := Z.max (ilog2 a) EMIN in
  let quantum := pow2 (e - 52) in
  inject_Z (roundHalfEven (a / quantum)) * quantum.

Definition fl64 (q : Q) : Q :=
  if Qeq_bool q 0 then 0
  else
    let r := roundMagnitude (Qred (Qabs q)) in
    if Qltb q 0 then - r else r.

(** The unit roundoff of binary64. *)
Definition unitRoundoff : Q := pow2 (-53).

(** A number that rounding leaves as it is. *)
Definition isDouble (q : Q) : Prop := fl64 q == q.

(** The doubles are among the multiples of 2^-1074. *)
Definition onGrid (q : Q) : Prop := exists m : Z, q == inject_Z m * pow2 (-1074).

(** [b] to the power [n]. *)
Fixpoint powN (b : Q) (n : nat) : Q :=
  match n with
  | O => 1
  | S k => b * powN b k
  end.

(** A number that may be [Infinity] (weapon ammo). *)
Inductive JsNum : Type :=
| Fin (q : Q)
| Infinity.

(** The built-in functions of [Math] that have no rational counterpart. *)
Class Math : Type := {
  Math_sqrt : Q -> Q;
  Math_exp : Q -> Q;
  Math_cos : Q -> Q;
  Math_sin : Q -> Q
}.

(** ** shared/physics/vector.js *)

Record Vector3 : Type := mkVector3 { x : Q; y : Q; z : Q }.

Module Vec.
Definition ZERO : Vector3 := mkVector3 0 0 0.
Definition add (a b : Vector3) : Vector3 :=
  mkVector3 (x a + x b) (y a + y b) (z a + z b).
Definition subtract (a b : Vector3) : Vector3 :=
  mkVector3 (x a - x b) (y a - y b) (z a - z b).
Definition multiplyScalar (a : Vector3) (s : Q) : Vector3 :=
  mkVector3 (x a * s) (y a * s) (z a * s).
Definition divideScalar (a : Vector3) (s : Q) : Vector3 :=
  if Qeq_bool s 0 then ZERO else mkVector3 (x a / s) (y a / s) (z a / s).
Definition magnitudeSq (a : Vector3) : Q := x a * x a + y a * y a + z a * z a.
Definition magnitude `{Math} (a : Vector3) : Q :=
  Math_sqrt (x a * x a + y a * y a + z a * z a).
Definition normalize `{Math} (a : Vector3) : Vector3 :=
  let mag := magnitude a in
  if Qltb (1 # 100000) mag then divideScalar a mag else ZERO.
Definition distanceToSq (a v : Vector3) : Q :=
  let dx := x a - x v in
  let dy := y a - y v in
  let dz := z a - z v in
  dx * dx + dy * dy + dz * dz.
(** [distanceToSq] as the program evaluates it: the three differences, the
    three products and the two sums (left to right) each rounded to a
    double. *)
Definition distanceToSq64 (a v : Vector3) : Q :=
  let dx := fl64 (x a - x v) in
  let dy := fl64 (y a - y v) in
  let dz := fl64 (z a - z v) in
  fl64 (fl64 (fl64 (dx * dx) + fl64 (dy * dy)) + fl64 (dz * dz)).
Definition lerp (a v : Vector3) (alpha : Q) : Vector3 :=
  let t := Qmax 0 (Qmin 1 alpha) in
  mkVector3 (x a + (x v - x a) * t) (y a + (y v - y a) * t) (z a + (z v - z a) * t).
Definition set_x (a : Vector3) (v : Q) : Vector3 := mkVector3 v (y a) (z a).
Definition set_y (a : Vector3) (v : Q) : Vector3 := mkVector3 (x a) v (z a).
Definition set_z (a : Vector3) (v : Q) : Vector3 := mkVector3 (x a) (y a) v.
(** componentwise numeric equality *)
Definition eqv (a b : Vector3) : Prop := x a == x b /\ y a == y b /\ z a == z b.
End Vec.

Record AABB : Type := mkAABB { aabb_min : Vector3; aabb_max : Vector3 }.

(** ** Strings *)

Definition lower_ascii (c : ascii) : ascii :=
  let n := nat_of_ascii c in
  if (65 <=? n)%nat && (n <=? 90)%nat then ascii_of_nat (n + 32) else c.

(** [String.prototype.toLowerCase], on ASCII strings. *)
Fixpoint toLowerCase (s : string) : string :=
  match s with
  | EmptyString => EmptyString
  | String c s' => String (lower_ascii c) (toLowerCase s')
  end.

(** ** Constants: game-settings.js, combat-settings.js, collidable.js *)

Definition SERVER_TICK_RATE : Q := 30.
Definition SERVER_TICK_INTERVAL_MS : Q := 1000 / SERVER_TICK_RATE.
Definition BASE_PLAYER_SPEED : Q := 7.
Definition RESPAWN_DELAY : Q := 3.
Definition PLAYER_ACCELERATION : Q := 18.
Definition PLAYER_FRICTION : Q := 10.
Definition MIN_SPEED_THRESHOLD : Q := 1 # 100.
Definition GRAVITY : Q := 20.
Definition PLAYER_EYE_HEIGHT : Q := 16 # 10.

Definition DAMAGE_MULTIPLIER_HEAD : Q := 3.
Definition DAMAGE_MULTIPLIER_TORSO : Q := 1.
Definition DAMAGE_MULTIPLIER_ARMS : Q := 8 # 10.
Definition DAMAGE_MULTIPLIER_LEGS : Q := 6 # 10.
Definition DAMAGE_MULTIPLIER_DEFAULT : Q := 1.

Definition PLAYER_HEIGHT : Q := 18 # 10.
Definition PLAYER_WIDTH : Q := 8 # 10.
Definition PLAYER_DEPTH : Q := 8 # 10.

Definition PISTOL_PROJECTILE_SIZE : Q := 2 # 10.

(** ** shared/gameplay/weapons/weapon.js *)

Module Weapon.

Record t : Type := mk {
  damage : Q;
  fireRate : Q;
  range : Q;
  projectileSpeed : Q;
  ammo : JsNum;
  maxAmmo : JsNum;
  reloadTime : Q;
  fireInterval : Q;
  lastFireTime : Q;
  isReloading : bool;
  reloadStartTime : Q
}.

(** [this.ammo <= 0] *)
Definition ammo_le_0 (w : t) : bool :=
  match ammo w with Fin q => Qleb q 0 | Infinity => false end.

(** [this.maxAmmo !== Infinity] *)
Definition maxAmmo_finite (w : t) : bool :=
  match maxAmmo w with Fin _ => true | Infinity => false end.

(** [this.ammo === this.maxAmmo] *)
Definition ammo_full (w : t) : bool :=
  match ammo w, maxAmmo w with
  | Fin a, Fin b => Qeq_bool a b
  | Infinity, Infinity => true
  | _, _ => false
  end.

(** [canFire()]; [now] is the value of [Date.now()]. *)
Definition canFire (now : Q) (w : t) : bool :=
  if isReloading w then false
  else if ammo_le_0 w && maxAmmo_finite w then false
  else if Qltb (now - lastFireTime w) (fireInterval w) then false
  else true.

(** [startReload()]: the second component is the delay (ms) of the
    [setTimeout] that will call [finishReload], when one is scheduled. *)
Definition startReload (now : Q) (w : t) : t * option Q :=
  if negb (maxAmmo_finite w) || isReloading w || ammo_full w then (w, None)
  else
    (mk (damage w) (fireRate w) (range w) (projectileSpeed w) (ammo w) (maxAmmo w)
        (reloadTime w) (fireInterval w) (lastFireTime w) true now,
     Some (reloadTime w * 1000)).

Definition finishReload (w : t) : t :=
  if negb (isReloading w) then w
  else
    mk (damage w) (fireRate w) (range w) (projectileSpeed w) (maxAmmo w) (maxAmmo w)
       (reloadTime w) (fireInterval w) (lastFireTime w) false (reloadStartTime w).

Definition set_lastFireTime (w : t) (v : Q) : t :=
  mk (damage w) (fireRate w) (range w) (projectileSpeed w) (ammo w) (maxAmmo w)
     (reloadTime w) (fireInterval w) v (isReloading w) (reloadStartTime w).

Definition set_ammo (w : t) (v : JsNum) : t :=
  mk (damage w) (fireRate w) (range w) (projectileSpeed w) v (maxAmmo w)
     (reloadTime w) (fireInterval w) (lastFireTime w) (isReloading w) (reloadStartTime w).

(** [this.ammo--] *)
Definition decr (n : JsNum) : JsNum :=
  match n with Fin q => Fin (q - 1) | Infinity => Infinity end.

End Weapon.

(** The descriptor returned by a successful [fire], consumed by
    [GameStateManager.addProjectile]. *)
Record ProjectileData : Type := mkProjectileData {
  pd_type : string;
  pd_ownerId : string;
  pd_origin : Vector3;
  pd_velocity : Vector3;
  pd_damage : Q;
  pd_speed : Q;
  pd_range : Q;
  pd_size : Q
}.

(** ** shared/gameplay/weapons/pistol.js

    [Pistol] is the only concrete weapon class; [owner.id] and
    [owner.position], the two things [fire] reads through the back
    reference to the owner, are passed in. *)

Module Pistol.

Definition fire (now : Q) (ownerId : string) (ownerPosition : Vector3)
    (direction : Vector3) (w : Weapon.t)
  : Weapon.t * option ProjectileData * option Q :=
  if negb (Weapon.canFire now w) then (w, None, None)
  else
    let w1 := Weapon.set_lastFireTime w now in
    let '(w2, timer) :=
      if Weapon.maxAmmo_finite w1 then
        let w' := Weapon.set_ammo w1 (Weapon.decr (Weapon.ammo w1)) in
        if Weapon.ammo_le_0 w' then Weapon.startReload now w' else (w', None)
      else (w1, None) in
    let origin := Vec.add ownerPosition (mkVector3 0 PLAYER_EYE_HEIGHT 0) in
    let velocity := Vec.multiplyScalar direction (Weapon.projectileSpeed w2) in
    (w2,
     Some (mkProjectileData "pistol_bullet" ownerId origin velocity
             (Weapon.damage w2) (Weapon.projectileSpeed w2) (Weapon.range w2)
             PISTOL_PROJECTILE_SIZE),
     timer).

End Pistol.

(** ** shared/entities/projectile.js *)

Module Projectile.

Record t : Type := mk {
  id : string;
  position : Vector3;
  velocity : Vector3;
  ownerId : string;
  damage : Q;
  speed : Q;
  range : Q;
  origin : Vector3;
  distanceTraveled : Q;
  markForRemoval : bool;
  width : Q;
  height : Q;
  depth : Q;
  projectileType : string;
  ignoreGravity : bool
}.

(** The constructor; [ignoreGravity] is never assigned, hence falsy. *)
Definition new (ownerId : string) (origin velocity : Vector3)
    (damage speed range : Q) (projectileType id : string) : t :=
  mk id origin velocity ownerId damage speed range origin 0 false
     (1 # 10) (1 # 10) (1 # 10) projectileType false.

Definition set_position (p : t) (v : Vector3) : t :=
  mk (id p) v (velocity p) (ownerId p) (damage p) (speed p) (range p) (origin p)
     (distanceTraveled p) (markForRemoval p) (width p) (height p) (depth p)
     (projectileType p) (ignoreGravity p).

Definition set_velocity (p : t) (v : Vector3) : t :=
  mk (id p) (position p) v (ownerId p) (damage p) (speed p) (range p) (origin p)
     (distanceTraveled p) (markForRemoval p) (width p) (height p) (depth p)
     (projectileType p) (ignoreGravity p).

Definition set_distanceTraveled (p : t) (v : Q) : t :=
  mk (id p) (position p) (velocity p) (ownerId p) (damage p) (speed p) (range p)
     (origin p) v (markForRemoval p) (width p) (height p) (depth p)
     (projectileType p) (ignoreGravity p).

Definition set_markForRemoval (p : t) (v : bool) : t :=
  mk (id p) (position p) (velocity p) (ownerId p) (damage p) (speed p) (range p)
     (origin p) (distanceTraveled p) v (width p) (height p) (depth p)
     (projectileType p) (ignoreGravity p).

(** [update(deltaTime)]: range tracking only.  The product and the sum are
    rounded to doubles, as the comparison with [range] is made on them. *)
Definition update `{Math} (deltaTime : Q) (p : t) : t :=
  let distanceThisFrame := fl64 (Vec.magnitude (velocity p) * deltaTime) in
  let p1 := set_distanceTraveled p (fl64 (distanceTraveled p + distanceThisFrame)) in
  if Qleb (range p1) (distanceTraveled p1) then set_markForRemoval p1 true else p1.

Definition getBoundingBox (p : t) (pos : Vector3) : AABB :=
  let halfSize := width p / 2 in
  let expansion := 1 # 1000 in
  mkAABB
    (mkVector3 (x pos - halfSize - expansion) (y pos - halfSize - expansion)
               (z pos - halfSize - expansion))
    (mkVector3 (x pos + halfSize + expansion) (y pos + halfSize + expansion)
               (z pos + halfSize + expansion)).

End Projectile.

(** ** shared/models: player-input.js, player-state.js *)

Module Keys.
Record t : Type := mk {
  W : bool; A : bool; S : bool; D : bool;
  Shift : bool; Space : bool; Fire : bool; Aim : bool;
  Cast1 : bool; Cast2 : bool
}.
End Keys.

Record PlayerInput : Type := mkPlayerInput {
  sequence : Z;
  deltaTime : Q;
  keys : Keys.t;
  lookYaw : Q;
  lookPitch : Q
}.

(** A player entry of a snapshot: a plain object, any field of which may
    be [undefined] ([None]); a position, when present, has its three
    coordinates. *)
Record PlayerState : Type := mkPlayerState {
  ps_id : string;
  ps_position : option Vector3;
  ps_health : option Q;
  ps_maxHealth : option Q;
  ps_name : option string;
  ps_score : option Q;
  ps_isAlive : option bool
}.

(** ** shared/entities/player.js (its second copy, with located damage),
    with its two subclasses

    [ServerPlayer] (server/src/gameplay/server-player.js) and [ClientPlayer]
    (client/src/gameplay/client-player.js) extend [Player]; the fields they
    add are carried by [cls], which also records the dynamic class of the
    object (it decides whether [this.onDeath] is a function). *)

Record ServerFields : Type := mkServerFields {
  lastProcessedInputTime : Q;
  lastProcessedInputSequence : Z;
  pendingInputs : list PlayerInput;
  sp_lookYaw : Q;
  sp_lookPitch : Q;
  timeToRespawn : Q
}.

Record ClientFields : Type := mkClientFields {
  previousState : option PlayerState;
  targetState : option PlayerState;
  lastStateTimestamp : Q;
  targetStateTimestamp : Q
}.

Inductive PlayerClass : Type :=
| PlainPlayer
| ServerSide (s : ServerFields)
| ClientSide (c : ClientFields).

Module Player.

Record t : Type := mk {
  id : string;
  name : string;
  position : Vector3;
  velocity : Vector3;
  health : Q;
  maxHealth : Q;
  score : Q;
  isAlive : bool;
  width : Q;
  height : Q;
  depth : Q;
  ignoreGravity : bool;
  currentWeapon : option Weapon.t;
  cls : PlayerClass
}.

Definition DEFAULT_HEALTH : Q := 100.

(** The constructor of the base class. *)
Definition new (id name : string) (position velocity : Vector3) (maxHealth : Q) : t :=
  mk id name position velocity maxHealth maxHealth 0 true
     PLAYER_WIDTH PLAYER_HEIGHT PLAYER_DEPTH false None PlainPlayer.

Definition set_position (p : t) (v : Vector3) : t :=
  mk (id p) (name p) v (velocity p) (health p) (maxHealth p) (score p) (isAlive p)
     (width p) (height p) (depth p) (ignoreGravity p) (currentWeapon p) (cls p).

Definition set_velocity (p : t) (v : Vector3) : t :=
  mk (id p) (name p) (position p) v (health p) (maxHealth p) (score p) (isAlive p)
     (width p) (height p) (depth p) (ignoreGravity p) (currentWeapon p) (cls p).

Definition set_health (p : t) (v : Q) : t :=
  mk (id p) (name p) (position p) (velocity p) v (maxHealth p) (score p) (isAlive p)
     (width p) (height p) (depth p) (ignoreGravity p) (currentWeapon p) (cls p).

Definition set_maxHealth (p : t) (v : Q) : t :=
  mk (id p) (name p) (position p) (velocity p) (health p) v (score p) (isAlive p)
     (width p) (height p) (depth p) (ignoreGravity p) (currentWeapon p) (cls p).

Definition set_name (p : t) (v : string) : t :=
  mk (id p) v (position p) (velocity p) (health p) (maxHealth p) (score p) (isAlive p)
     (width p) (height p) (depth p) (ignoreGravity p) (currentWeapon p) (cls p).

Definition set_score (p : t) (v : Q) : t :=
  mk (id p) (name p) (position p) (velocity p) (health p) (maxHealth p) v (isAlive p)
     (width p) (height p) (depth p) (ignoreGravity p) (currentWeapon p) (cls p).

Definition set_isAlive (p : t) (v : bool) : t :=
  mk (id p) (name p) (position p) (velocity p) (health p) (maxHealth p) (score p) v
     (width p) (height p) (depth p) (ignoreGravity p) (currentWeapon p) (cls p).

Definition set_currentWeapon (p : t) (v : option Weapon.t) : t :=
  mk (id p) (name p) (position p) (velocity p) (health p) (maxHealth p) (score p)
     (isAlive p) (width p) (height p) (depth p) (ignoreGravity p) v (cls p).

Definition set_cls (p : t) (v : PlayerClass) : t :=
  mk (id p) (name p) (position p) (velocity p) (health p) (maxHealth p) (score p)
     (isAlive p) (width p) (height p) (depth p) (ignoreGravity p) (currentWeapon p) v.

(** [ServerPlayer.onDeath], the only definition of [onDeath]: the call
    [if (typeof this.onDeath === 'function') this.onDeath()] of
    [takeDamage] does nothing for the other classes. *)
Definition onDeath (p : t) : t :=
  match cls p with
  | ServerSide s =>
      let s' := mkServerFields (lastProcessedInputTime s) (lastProcessedInputSequence s)
                  (pendingInputs s) (sp_lookYaw s) (sp_lookPitch s) RESPAWN_DELAY in
      set_velocity (set_cls p (ServerSide s')) Vec.ZERO
  | _ => p
  end.

(** The [switch] on [hitboxKey?.toLowerCase()] of [takeDamage]. *)
Definition regionMultiplier (hitboxKey : string) : Q :=
  let k := toLowerCase hitboxKey in
  if String.eqb k "head" then DAMAGE_MULTIPLIER_HEAD
  else if String.eqb k "torso" then DAMAGE_MULTIPLIER_TORSO
  else if String.eqb k "arms" then DAMAGE_MULTIPLIER_ARMS
  else if String.eqb k "legs" then DAMAGE_MULTIPLIER_LEGS
  else DAMAGE_MULTIPLIER_DEFAULT.

Definition takeDamage (baseAmount : Q) (hitboxKey : string) (p : t) : t :=
  if negb (isAlive p) || Qleb baseAmount 0 then p
  else
    let multiplier := regionMultiplier hitboxKey in
    let finalAmount := Math_round (baseAmount * multiplier) in
    let p1 := set_health p (clamp (health p - finalAmount) 0 (maxHealth p)) in
    if Qleb (health p1) 0 && isAlive p1 then onDeath (set_isAlive p1 false)
    else p1.

Definition heal (amount : Q) (p : t) : t :=
  if negb (isAlive p) || Qleb amount 0 then p
  else set_health p (clamp (health p + amount) 0 (maxHealth p)).

Definition respawn (pos : Vector3) (p : t) : t :=
  set_velocity (set_position (set_isAlive (set_health p (maxHealth p)) true) pos) Vec.ZERO.

(** [fireWeapon(direction)]: the new player, the spawn descriptor and the
    reload timer, if any. *)
Definition fireWeapon (now : Q) (direction : Vector3) (p : t)
  : t * option ProjectileData * option Q :=
  match currentWeapon p with
  | Some w =>
      if negb (isAlive p) then (p, None, None)
      else
        let '(w', data, timer) := Pistol.fire now (id p) (position p) direction w in
        (set_currentWeapon p (Some w'), data, timer)
  | None => (p, None, None)
  end.

(** [GameObject.setState] followed by [Player.setState]. *)
Definition setState (state : PlayerState) (p : t) : t :=
  let p0 := match ps_position state with Some v => set_position p v | None => p end in
  let p1 := match ps_health state with Some v => set_health p0 v | None => p0 end in
  let p2 := match ps_maxHealth state with Some v => set_maxHealth p1 v | None => p1 end in
  let p3 := match ps_name state with Some v => set_name p2 v | None => p2 end in
  let p4 := match ps_score state with Some v => set_score p3 v | None => p3 end in
  match ps_isAlive state with Some v => set_isAlive p4 v | None => p4 end.

Definition _calculateAABB (p : t) (pos : Vector3) : AABB :=
  let halfWidth := width p / 2 in
  let halfDepth := depth p / 2 in
  let expansion := 1 # 100 in
  mkAABB
    (mkVector3 (x pos - halfWidth - expansion) (y pos - expansion)
               (z pos - halfDepth - expansion))
    (mkVector3 (x pos + halfWidth + expansion) (y pos + height p + expansion)
               (z pos + halfDepth + expansion)).

Definition getBoundingBox (p : t) (pos : Vector3) : AABB := _calculateAABB p pos.

(** [_calculateHitboxes(pos)]: the object built by three assignments,
    as its (key, box) pairs in insertion order, which is the order in
    which [for ... in] enumerates them. *)
Definition _calculateHitboxes (p : t) (pos : Vector3) : list (string * AABB) :=
  let epsilon := 2 # 100 in
  let headSize := width p * (7 # 10) in
  let torsoHeight := height p * (45 # 100) in
  let torsoWidth := width p in
  let torsoDepth := depth p * (8 # 10) in
  let legHeight := height p * (4 # 10) in
  let legWidth := width p * (4 # 10) in
  let legDepth := depth p * (4 # 10) in
  let legTopY := y pos + legHeight in
  let torsoTopY := legTopY + torsoHeight in
  let headCenterY := torsoTopY + headSize / 2 in
  let headCenter := mkVector3 (x pos) headCenterY (z pos) in
  let headHalf := mkVector3 (headSize / 2 + epsilon) (headSize / 2 + epsilon)
                            (headSize / 2 + epsilon) in
  let torsoCenter := mkVector3 (x pos) (legTopY + torsoHeight / 2) (z pos) in
  let torsoHalf := mkVector3 (torsoWidth / 2 + epsilon) (torsoHeight / 2 + epsilon)
                             (torsoDepth / 2 + epsilon) in
  let legCenter := mkVector3 (x pos) (y pos + legHeight / 2) (z pos) in
  let legHalf := mkVector3 (legWidth / 2 + epsilon) (legHeight / 2 + epsilon)
                           (legDepth / 2 + epsilon) in
  [ ("head"%string, mkAABB (Vec.subtract headCenter headHalf) (Vec.add headCenter headHalf));
    ("torso"%string, mkAABB (Vec.subtract torsoCenter torsoHalf) (Vec.add torsoCenter torsoHalf));
    ("legs"%string, mkAABB (Vec.subtract legCenter legHalf) (Vec.add legCenter legHalf)) ].

Definition getHitboxes (p : t) : list (string * AABB) := _calculateHitboxes p (position p).

End Player.

(** ** Entities, as [MovementSystem] and [CollisionSystem] see them

    Both systems are duck-typed: they read and write [position],
    [velocity], the dimensions and [getBoundingBox] of whatever they are
    given, and [MovementSystem] tests [instanceof Projectile]. *)

Inductive Entity : Type :=
| EPlayer (p : Player.t)
| EProjectile (p : Projectile.t).

Module Entity.

Definition position (e : Entity) : Vector3 :=
  match e with EPlayer p => Player.position p | EProjectile p => Projectile.position p end.

Definition velocity (e : Entity) : Vector3 :=
  match e with EPlayer p => Player.velocity p | EProjectile p => Projectile.velocity p end.

Definition set_position (e : Entity) (v : Vector3) : Entity :=
  match e with
  | EPlayer p => EPlayer (Player.set_position p v)
  | EProjectile p => EProjectile (Projectile.set_position p v)
  end.

Definition set_velocity (e : Entity) (v : Vector3) : Entity :=
  match e with
  | EPlayer p => EPlayer (Player.set_velocity p v)
  | EProjectile p => EProjectile (Projectile.set_velocity p v)
  end.

Definition width (e : Entity) : Q :=
  match e with EPlayer p => Player.width p | EProjectile p => Projectile.width p end.

Definition height (e : Entity) : Q :=
  match e with EPlayer p => Player.height p | EProjectile p => Projectile.height p end.

Definition depth (e : Entity) : Q :=
  match e with EPlayer p => Player.depth p | EProjectile p => Projectile.depth p end.

Definition ignoreGravity (e : Entity) : bool :=
  match e with
  | EPlayer p => Player.ignoreGravity p
  | EProjectile p => Projectile.ignoreGravity p
  end.

Definition getBoundingBox (e : Entity) (pos : Vector3) : AABB :=
  match e with
  | EPlayer p => Player.getBoundingBox p pos
  | EProjectile p => Projectile.getBoundingBox p pos
  end.

End Entity.

(** A static obstacle of the map: [position] is the centre of its base. *)
Record Obstacle : Type := mkObstacle {
  obs_position : Vector3;
  obs_size : Vector3;
  obs_type : string
}.

(** [a || b] on numbers: [b] when [a] is [0]. *)
Definition or_default (a b : Q) : Q := if Qeq_bool a 0 then b else a.

(** [Math.sign] *)
Definition Math_sign (v : Q) : Q :=
  if Qltb 0 v then 1 else if Qltb v 0 then -1 else 0.

Inductive Axis : Type := AxisX | AxisY | AxisZ.

Definition component (a : Axis) (v : Vector3) : Q :=
  match a with AxisX => x v | AxisY => y v | AxisZ => z v end.

(** A hit reported by the player raycast: [target] is the position of the
    struck player in the world's player store. *)
Record PlayerHit : Type := mkPlayerHit {
  target : nat;
  hitboxKey : string;
  ph_t : Q
}.

(** ** shared/physics/collision-system.js *)

Module CollisionSystem.


(** The three extents that [resolveWorldBoundsCollision] reads off the
    entity, with their fallbacks. *)
Definition entityHalfWidth (entity : Entity) : Q :=
  or_default (Entity.width entity) (1 # 10) / 2.

Definition entityHalfDepth (entity : Entity) : Q :=
  or_default (Entity.depth entity) (or_default (Entity.width entity) (1 # 10)) / 2.

Definition entityHeight (entity : Entity) : Q :=
  or_default (Entity.height entity) (1 # 10).

(** The box [potentialAABB] that [resolveWorldBoundsCollision] builds. *)
Definition potentialAABB (entity : Entity) (potentialPosition : Vector3) : AABB :=
  mkAABB
    (mkVector3 (x potentialPosition - entityHalfWidth entity) (y potentialPosition)
               (z potentialPosition - entityHalfDepth entity))
    (mkVector3 (x potentialPosition + entityHalfWidth entity)
               (y potentialPosition + entityHeight entity)
               (z potentialPosition + entityHalfDepth entity)).

(** One axis of [resolveWorldBoundsCollision]: [lo]/[hi] are the faces of
    the entity's box on the axis, [atMin]/[atMax] the positions it is moved
    to; the result is the final coordinate and velocity component. *)
Definition resolveAxis (lo hi boundMin boundMax atMin atMax pos vel : Q) : Q * Q :=
  if Qltb lo boundMin then (atMin, if Qltb vel 0 then 0 else vel)
  else if Qltb boundMax hi then (atMax, if Qltb 0 vel then 0 else vel)
  else (pos, vel).

(** [resolveWorldBoundsCollision]: the returned position and the entity,
    whose velocity the method adjusts in place. *)
Definition resolveWorldBoundsCollision (entity : Entity) (potentialPosition : Vector3)
    (mapBounds : AABB) : Vector3 * Entity :=
  let box := potentialAABB entity potentialPosition in
  let bmin := aabb_min mapBounds in
  let bmax := aabb_max mapBounds in
  let v := Entity.velocity entity in
  let rx :=
    resolveAxis (x (aabb_min box)) (x (aabb_max box)) (x bmin) (x bmax)
      (x bmin + entityHalfWidth entity) (x bmax - entityHalfWidth entity)
      (x potentialPosition) (x v) in
  let ry :=
    resolveAxis (y (aabb_min box)) (y (aabb_max box)) (y bmin) (y bmax)
      (y bmin) (y bmax - entityHeight entity) (y potentialPosition) (y v) in
  let rz :=
    resolveAxis (z (aabb_min box)) (z (aabb_max box)) (z bmin) (z bmax)
      (z bmin + entityHalfDepth entity) (z bmax - entityHalfDepth entity)
      (z potentialPosition) (z v) in
  (mkVector3 (fst rx) (fst ry) (fst rz),
   Entity.set_velocity entity (mkVector3 (snd rx) (snd ry) (snd rz))).

Definition checkAABBOverlap (boxA boxB : AABB) : bool :=
  let noOverlap :=
    Qleb (x (aabb_max boxA)) (x (aabb_min boxB)) ||
    Qleb (x (aabb_max boxB)) (x (aabb_min boxA)) ||
    Qleb (y (aabb_max boxA)) (y (aabb_min boxB)) ||
    Qleb (y (aabb_max boxB)) (y (aabb_min boxA)) ||
    Qleb (z (aabb_max boxA)) (z (aabb_min boxB)) ||
    Qleb (z (aabb_max boxB)) (z (aabb_min boxA)) in
  negb noOverlap.

Definition EPSILON : Q := 1 # 1000000.

(** The body of the [for] loop of [checkRayAABBIntersection] for one axis,
    on the running pair [(tmin, tmax)]: [None] is [return null]. *)
Definition slabStep (rayOrigin rayDirection : Vector3) (aabb : AABB) (axis : Axis)
    (st : Q * Q) : option (Q * Q) :=
  let '(tmin, tmax) := st in
  let dirAxis := component axis rayDirection in
  let originAxis := component axis rayOrigin in
  let minAxis := component axis (aabb_min aabb) in
  let maxAxis := component axis (aabb_max aabb) in
  if Qltb (Qabs dirAxis) EPSILON then
    if Qltb originAxis minAxis || Qltb maxAxis originAxis then None
    else Some (tmin, tmax)
  else
    let invDir := 1 / dirAxis in
    let t1 := (minAxis - originAxis) * invDir in
    let t2 := (maxAxis - originAxis) * invDir in
    let '(t1, t2) := if Qltb t2 t1 then (t2, t1) else (t1, t2) in
    let tmin := Qmax tmin t1 in
    let tmax := Qmin tmax t2 in
    if Qltb tmax tmin then None else Some (tmin, tmax).

Fixpoint slabLoop (rayOrigin rayDirection : Vector3) (aabb : AABB) (axes : list Axis)
    (st : Q * Q) : option (Q * Q) :=
  match axes with
  | [] => Some st
  | axis :: rest =>
      match slabStep rayOrigin rayDirection aabb axis st with
      | None => None
      | Some st' => slabLoop rayOrigin rayDirection aabb rest st'
      end
  end.

Definition checkRayAABBIntersection (rayOrigin rayDirection : Vector3) (maxDistance : Q)
    (aabb : AABB) : option Q :=
  if Qltb (Vec.magnitudeSq rayDirection) (1 # 100000) then
    let pointBox := mkAABB rayOrigin rayOrigin in
    if checkAABBOverlap pointBox aabb then Some 0 else None
  else
    match slabLoop rayOrigin rayDirection aabb [AxisX; AxisY; AxisZ] (0, 1) with
    | None => None
    | Some (tmin, tmax) =>
        if Qleb tmin 1 && Qleb 0 tmax && Qleb 0 tmin then Some tmin else None
    end.

(** The box of an obstacle, as both raycast and push-out build it. *)
Definition obstacleAABB (obstacle : Obstacle) : AABB :=
  let obsHalfSize := Vec.divideScalar (obs_size obstacle) 2 in
  mkAABB
    (Vec.add (obs_position obstacle) (mkVector3 (- x obsHalfSize) 0 (- z obsHalfSize)))
    (Vec.add (obs_position obstacle)
       (mkVector3 (x obsHalfSize) (y (obs_size obstacle)) (z obsHalfSize))).

(** [t_hit !== null && t_hit >= 0 && t_hit < min_t], where [best = None]
    stands for [min_t = Infinity]. *)
Definition closer {X : Type} (t_hit : option Q) (best : option (X * Q)) : bool :=
  match t_hit with
  | None => false
  | Some t =>
      Qleb 0 t && match best with None => true | Some (_, min_t) => Qltb t min_t end
  end.

Fixpoint staticLoop (rayOrigin rayDirection : Vector3) (maxDistance : Q)
    (obstacles : list Obstacle) (best : option (Obstacle * Q)) : option (Obstacle * Q) :=
  match obstacles with
  | [] => best
  | obstacle :: rest =>
      let t_hit :=
        checkRayAABBIntersection rayOrigin rayDirection maxDistance (obstacleAABB obstacle) in
      staticLoop rayOrigin rayDirection maxDistance rest
        (match t_hit with
         | Some t => if closer t_hit best then Some (obstacle, t) else best
         | None => best
         end)
  end.

Definition checkProjectileHitStaticObstacleRaycast `{Math}
    (projectilePreviousPos projectileDeltaMove : Vector3) (obstacles : list Obstacle)
  : option (Obstacle * Q) :=
  let maxDistance := Vec.magnitude projectileDeltaMove in
  if Qltb maxDistance (1 # 10000) then None
  else staticLoop projectilePreviousPos projectileDeltaMove maxDistance obstacles None.

(** The inner [for ... in] over the hitboxes of one target. *)
Fixpoint hitboxLoop (rayOrigin rayDirection : Vector3) (maxDistance : Q) (tgt : nat)
    (hitboxes : list (string * AABB)) (best : option PlayerHit) : option PlayerHit :=
  match hitboxes with
  | [] => best
  | (key, targetBox) :: rest =>
      let t_hit := checkRayAABBIntersection rayOrigin rayDirection maxDistance targetBox in
      hitboxLoop rayOrigin rayDirection maxDistance tgt rest
        (match t_hit with
         | Some t =>
             if closer t_hit (option_map (fun h => (h, ph_t h)) best)
             then Some (mkPlayerHit tgt key t) else best
         | None => best
         end)
  end.

(** The outer loop over [targets]: references into the player store. *)
Fixpoint targetLoop (store : list Player.t) (ownerId : string)
    (rayOrigin rayDirection : Vector3) (maxDistance : Q) (targets : list nat)
    (best : option PlayerHit) : option PlayerHit :=
  match targets with
  | [] => best
  | tgt :: rest =>
      targetLoop store ownerId rayOrigin rayDirection maxDistance rest
        (match nth_error store tgt with
         | None => best
         | Some tp =>
             if String.eqb (Player.id tp) ownerId || negb (Player.isAlive tp) then best
             else hitboxLoop rayOrigin rayDirection maxDistance tgt
                    (Player.getHitboxes tp) best
         end)
  end.

Definition checkProjectileHitRaycast `{Math} (store : list Player.t)
    (projectile : Projectile.t) (projectilePreviousPos projectileDeltaMove : Vector3)
    (targets : list nat) : option PlayerHit :=
  if Projectile.markForRemoval projectile then None
  else
    let maxDistance := Vec.magnitude projectileDeltaMove in
    if Qltb maxDistance (1 # 10000) then None
    else targetLoop store (Projectile.ownerId projectile) projectilePreviousPos
           projectileDeltaMove maxDistance targets None.

Definition MAX_RESOLUTION_ITERATIONS : nat := 3.
Definition RESOLUTION_EPSILON : Q := 1 # 1000.

Definition add_component (a : Axis) (v : Vector3) (d : Q) : Vector3 :=
  match a with
  | AxisX => Vec.set_x v (x v + d)
  | AxisY => Vec.set_y v (y v + d)
  | AxisZ => Vec.set_z v (z v + d)
  end.

Definition set_component (a : Axis) (v : Vector3) (d : Q) : Vector3 :=
  match a with
  | AxisX => Vec.set_x v d
  | AxisY => Vec.set_y v d
  | AxisZ => Vec.set_z v d
  end.

Definition axisOverlap (a : Axis) (entityAABB obsAABB : AABB) : Q :=
  Qmin (component a (aabb_max entityAABB)) (component a (aabb_max obsAABB))
  - Qmax (component a (aabb_min entityAABB)) (component a (aabb_min obsAABB)).

(** The state the obstacle loop of [resolveStaticObstacleCollision] works
    on: [adjustedPosition], [entity.velocity], the local [entityAABB] and
    [collisionOccurredThisIteration]. *)
Record PushState : Type := mkPushState {
  adjustedPosition : Vector3;
  push_velocity : Vector3;
  entityAABB : AABB;
  collisionOccurredThisIteration : bool
}.

(** One of the three "Resolve em X/Y/Z" branches. *)
Definition pushAlong (a : Axis) (overlap : Q) (obsAABB : AABB) (st : PushState)
  : PushState :=
  let box := entityAABB st in
  let entityCenter :=
    component a (aabb_min box)
    + (component a (aabb_max box) - component a (aabb_min box)) / 2 in
  let obstacleCenter :=
    component a (aabb_min obsAABB)
    + (component a (aabb_max obsAABB) - component a (aabb_min obsAABB)) / 2 in
  let pushDirection :=
    if Qltb entityCenter obstacleCenter then - (overlap + RESOLUTION_EPSILON)
    else overlap + RESOLUTION_EPSILON in
  let v := push_velocity st in
  mkPushState
    (add_component a (adjustedPosition st) pushDirection)
    (if Qltb (Math_sign (component a v) * Math_sign pushDirection) 0
     then set_component a v 0 else v)
    (mkAABB (add_component a (aabb_min box) pushDirection)
            (add_component a (aabb_max box) pushDirection))
    true.

Definition pushStep (obstacle : Obstacle) (st : PushState) : PushState :=
  let obsAABB := obstacleAABB obstacle in
  if checkAABBOverlap (entityAABB st) obsAABB then
    let overlapX := axisOverlap AxisX (entityAABB st) obsAABB in
    let overlapY := axisOverlap AxisY (entityAABB st) obsAABB in
    let overlapZ := axisOverlap AxisZ (entityAABB st) obsAABB in
    if Qleb overlapX overlapY && Qleb overlapX overlapZ then
      pushAlong AxisX overlapX obsAABB st
    else if Qleb overlapY overlapX && Qleb overlapY overlapZ then
      pushAlong AxisY overlapY obsAABB st
    else pushAlong AxisZ overlapZ obsAABB st
  else st.

Fixpoint resolveIterations (iters : nat) (entity : Entity) (obstacles : list Obstacle)
    (pos vel : Vector3) : Vector3 * Vector3 :=
  match iters with
  | O => (pos, vel)
  | Datatypes.S n =>
      let st0 := mkPushState pos vel (Entity.getBoundingBox entity pos) false in
      let st := fold_left (fun st obstacle => pushStep obstacle st) obstacles st0 in
      if negb (collisionOccurredThisIteration st)
      then (adjustedPosition st, push_velocity st)
      else resolveIterations n entity obstacles (adjustedPosition st) (push_velocity st)
  end.

Definition resolveStaticObstacleCollision (entity : Entity) (potentialPosition : Vector3)
    (obstacles : list Obstacle) : Vector3 * Entity :=
  let '(pos, vel) :=
    resolveIterations MAX_RESOLUTION_ITERATIONS entity obstacles potentialPosition
      (Entity.velocity entity) in
  (pos, Entity.set_velocity entity vel).

End CollisionSystem.

(** ** The world store

    [MovementSystem.update] receives arrays of references: live players and
    projectiles as [entities], and the live players again as raycast
    targets.  The objects live in a store, and the arrays hold positions in
    it, so that a write through one reference is seen through the other. *)

Record World : Type := mkWorld {
  players : list Player.t;
  projectiles : list Projectile.t
}.

Inductive EntityRef : Type :=
| PlayerRef (i : nat)
| ProjectileRef (i : nat).

Fixpoint list_set {X : Type} (l : list X) (i : nat) (v : X) : list X :=
  match l, i with
  | [], _ => []
  | _ :: r, O => v :: r
  | a :: r, Datatypes.S n => a :: list_set r n v
  end.

(** The payload of a [broadcastImpactEffect] event. *)
Record ImpactEvent : Type := mkImpactEvent {
  projectileId : string;
  ie_position : Vector3;
  surfaceType : string;
  obstacleType : option string
}.

(** The result of either projectile raycast. *)
Inductive Hit : Type :=
| StaticHit (obstacle : Obstacle) (t : Q)
| TargetHit (h : PlayerHit).

Definition hit_t (h : Hit) : Q :=
  match h with StaticHit _ t => t | TargetHit h => ph_t h end.

(** ** shared/physics/movement-system.js (unnamed/part_002) *)

Module MovementSystem.

Record t : Type := mk {
  mapBounds : AABB;
  obstacles : list Obstacle
}.

(** "Determinar qual hit ocorreu primeiro": the choice of [finalHitResult]. *)
Definition finalHitResult (hitStaticResult : option (Obstacle * Q))
    (hitPlayerResult : option PlayerHit) : option Hit :=
  match hitStaticResult, hitPlayerResult with
  | Some (o, ts), Some h =>
      if Qleb ts (ph_t h) then Some (StaticHit o ts) else Some (TargetHit h)
  | Some (o, ts), None => Some (StaticHit o ts)
  | None, Some h => Some (TargetHit h)
  | None, None => None
  end.

Definition applyGravity (deltaTime : Q) (entity : Entity) : Entity :=
  if negb (Entity.ignoreGravity entity) then
    let v := Entity.velocity entity in
    Entity.set_velocity entity (Vec.set_y v (y v - GRAVITY * deltaTime))
  else entity.

(** What the projectile branch leaves behind: the projectile, the player
    store, the emitted events, [finalPosition] and the two stop flags. *)
Record ProjectileOutcome : Type := mkOutcome {
  out_projectile : Projectile.t;
  out_players : list Player.t;
  out_events : list ImpactEvent;
  out_finalPosition : Vector3;
  projectileStoppedByHit : bool;
  projectileStoppedByGround : bool
}.

(** The impact block, entered when a hit was chosen. *)
Definition impact (store : list Player.t) (prj : Projectile.t)
    (previousPosition deltaPosition : Vector3) (hit : Hit) : ProjectileOutcome :=
  let impactPoint :=
    Vec.add previousPosition (Vec.multiplyScalar deltaPosition (hit_t hit)) in
  let prj1 := Projectile.set_velocity (Projectile.set_markForRemoval prj true) Vec.ZERO in
  let event :=
    mkImpactEvent (Projectile.id prj) impactPoint
      (match hit with TargetHit _ => "player" | StaticHit _ _ => "static" end)
      (match hit with StaticHit o _ => Some (obs_type o) | TargetHit _ => None end) in
  let store' :=
    match hit with
    | TargetHit h =>
        match nth_error store (target h) with
        | Some tp =>
            let key := if String.eqb (hitboxKey h) EmptyString then "default"%string
                       else hitboxKey h in
            list_set store (target h) (Player.takeDamage (Projectile.damage prj) key tp)
        | None => store
        end
    | StaticHit _ _ => store
    end in
  mkOutcome prj1 store' [event] impactPoint true false.

(** The ground-plane test, run when no raycast hit stopped the projectile. *)
Definition groundCheck (GROUND_Y : Q) (store : list Player.t) (prj : Projectile.t)
    (previousPosition deltaPosition potentialPosition : Vector3) : ProjectileOutcome :=
  let miss := mkOutcome prj store [] potentialPosition false false in
  if Qleb GROUND_Y (y previousPosition) && Qltb (y potentialPosition) GROUND_Y then
    let t_ground :=
      (GROUND_Y - y previousPosition) / (y potentialPosition - y previousPosition) in
    if Qleb 0 t_ground && Qleb t_ground 1 then
      let groundImpactPoint :=
        Vec.add previousPosition (Vec.multiplyScalar deltaPosition t_ground) in
      mkOutcome (Projectile.set_velocity (Projectile.set_markForRemoval prj true) Vec.ZERO)
        store
        [mkImpactEvent (Projectile.id prj) groundImpactPoint "static" (Some "ground"%string)]
        groundImpactPoint false true
    else miss
  else miss.

(** "LÓGICA ESPECÍFICA PARA PROJÉTEIS", for a projectile not yet marked. *)
Definition projectileLogic `{Math} (ms : t) (store : list Player.t) (prj : Projectile.t)
    (previousPosition deltaPosition potentialPosition : Vector3) (targets : list nat)
  : ProjectileOutcome :=
  let hitStaticResult :=
    CollisionSystem.checkProjectileHitStaticObstacleRaycast previousPosition deltaPosition
      (obstacles ms) in
  let hitPlayerResult :=
    CollisionSystem.checkProjectileHitRaycast store prj previousPosition deltaPosition
      targets in
  match finalHitResult hitStaticResult hitPlayerResult with
  | Some hit =>
      if Qleb 0 (hit_t hit) && Qleb (hit_t hit) 1 then
        impact store prj previousPosition deltaPosition hit
      else
        groundCheck (y (aabb_min (mapBounds ms))) store prj previousPosition deltaPosition
          potentialPosition
  | None =>
      groundCheck (y (aabb_min (mapBounds ms))) store prj previousPosition deltaPosition
        potentialPosition
  end.

(** The end of the loop body, common to every entity: bounds and obstacle
    resolution unless the projectile was stopped, then the commit of
    [finalPosition] and the two velocity resets. *)
Definition settle (ms : t) (entity : Entity) (potentialPosition finalPosition : Vector3)
    (projectileStopped : bool) : Entity :=
  let '(finalPosition, entity) :=
    if negb projectileStopped then
      let '(p1, e1) :=
        CollisionSystem.resolveWorldBoundsCollision entity potentialPosition (mapBounds ms) in
      CollisionSystem.resolveStaticObstacleCollision e1 p1 (obstacles ms)
    else (finalPosition, entity) in
  let entity := Entity.set_position entity finalPosition in
  let GROUND_Y := y (aabb_min (mapBounds ms)) in
  let IS_ON_GROUND := Qleb (y finalPosition) (GROUND_Y + (1 # 100)) in
  let entity :=
    if IS_ON_GROUND && Qltb (y (Entity.velocity entity)) 0
    then Entity.set_velocity entity (Vec.set_y (Entity.velocity entity) 0)
    else entity in
  if projectileStopped then Entity.set_velocity entity Vec.ZERO else entity.

(** The loop body for a projectile; [logic] is the projectile branch. *)
Definition projectileBody
    (logic : t -> list Player.t -> Projectile.t -> Vector3 -> Vector3 -> Vector3 ->
             list nat -> ProjectileOutcome)
    (ms : t) (deltaTime : Q) (store : list Player.t)
    (targets : list nat) (prj : Projectile.t)
  : Projectile.t * list Player.t * list ImpactEvent :=
  let entity := applyGravity deltaTime (EProjectile prj) in
  let previousPosition := Entity.position entity in
  let deltaPosition := Vec.multiplyScalar (Entity.velocity entity) deltaTime in
  let potentialPosition := Vec.add previousPosition deltaPosition in
  match entity with
  | EProjectile prj0 =>
      let out :=
        if negb (Projectile.markForRemoval prj0) then
          logic ms store prj0 previousPosition deltaPosition potentialPosition targets
        else mkOutcome prj0 store [] potentialPosition false false in
      let projectileStopped := projectileStoppedByHit out || projectileStoppedByGround out in
      match settle ms (EProjectile (out_projectile out)) potentialPosition
              (out_finalPosition out) projectileStopped with
      | EProjectile prj' => (prj', out_players out, out_events out)
      | EPlayer _ => (out_projectile out, out_players out, out_events out)
      end
  | EPlayer _ => (prj, store, [])
  end.

Definition updateProjectile `{Math} : t -> Q -> list Player.t -> list nat ->
    Projectile.t -> Projectile.t * list Player.t * list ImpactEvent :=
  projectileBody projectileLogic.

(** The loop body for a player. *)
Definition updatePlayer (ms : t) (deltaTime : Q) (p : Player.t) : Player.t :=
  let entity := applyGravity deltaTime (EPlayer p) in
  let previousPosition := Entity.position entity in
  let deltaPosition := Vec.multiplyScalar (Entity.velocity entity) deltaTime in
  let potentialPosition := Vec.add previousPosition deltaPosition in
  match settle ms entity potentialPosition potentialPosition false with
  | EPlayer p' => p'
  | EProjectile _ => p
  end.

(** One iteration of [for (const entity of entities)]; [body] is the loop
    body for a projectile. *)
Definition entityStep
    (body : t -> Q -> list Player.t -> list nat -> Projectile.t ->
            Projectile.t * list Player.t * list ImpactEvent)
    (ms : t) (deltaTime : Q) (targets : list nat)
    (acc : World * list ImpactEvent) (ref : EntityRef) : World * list ImpactEvent :=
  let '(w, events) := acc in
  match ref with
  | PlayerRef i =>
      match nth_error (players w) i with
      | Some p =>
          (mkWorld (list_set (players w) i (updatePlayer ms deltaTime p)) (projectiles w),
           events)
      | None => acc
      end
  | ProjectileRef i =>
      match nth_error (projectiles w) i with
      | Some prj =>
          let '(prj', store', evs) := body ms deltaTime (players w) targets prj in
          (mkWorld store' (list_set (projectiles w) i prj'), events ++ evs)
      | None => acc
      end
  end.

(** [update(entities, deltaTime, players)] *)
Definition update `{Math} (ms : t) (w : World) (entities : list EntityRef)
    (deltaTime : Q) (targets : list nat) : World * list ImpactEvent :=
  if Qleb deltaTime 0 then (w, [])
  else fold_left (entityStep updateProjectile ms deltaTime targets) entities (w, []).

End MovementSystem.

(** ** The other copy of shared/physics/movement-system.js (unnamed/part_003)

    It differs in the projectile branch only: the chosen hit is taken
    without the test of its fraction against [0, 1], and there is no
    ground-plane test. *)

Module MovementSystem0.

Definition projectileLogic `{Math} (ms : MovementSystem.t) (store : list Player.t)
    (prj : Projectile.t) (previousPosition deltaPosition potentialPosition : Vector3)
    (targets : list nat) : MovementSystem.ProjectileOutcome :=
  let hitStaticResult :=
    CollisionSystem.checkProjectileHitStaticObstacleRaycast previousPosition deltaPosition
      (MovementSystem.obstacles ms) in
  let hitPlayerResult :=
    CollisionSystem.checkProjectileHitRaycast store prj previousPosition deltaPosition
      targets in
  match MovementSystem.finalHitResult hitStaticResult hitPlayerResult with
  | Some hit => MovementSystem.impact store prj previousPosition deltaPosition hit
  | None => MovementSystem.mkOutcome prj store [] potentialPosition false false
  end.

Definition updateProjectile `{Math} : MovementSystem.t -> Q -> list Player.t ->
    list nat -> Projectile.t -> Projectile.t * list Player.t * list ImpactEvent :=
  MovementSystem.projectileBody projectileLogic.

Definition update `{Math} (ms : MovementSystem.t) (w : World) (entities : list EntityRef)
    (deltaTime : Q) (targets : list nat) : World * list ImpactEvent :=
  if Qleb deltaTime 0 then (w, [])
  else
    fold_left (MovementSystem.entityStep updateProjectile ms deltaTime targets) entities
      (w, []).

End MovementSystem0.

(** Effects that leave the simulation core. *)
Inductive Effect : Type :=
| Emit_projectileFired (data : ProjectileData)
| SetTimeout_finishReload (delayMs : Q).

(** ** server/src/gameplay/server-player.js *)

Module ServerPlayer.

(** The first loop of [applyInputs]: the choice of [latestInput]. *)
Definition pickLatest (lastSeq : Z) (latestInput : option PlayerInput)
    (input : PlayerInput) : option PlayerInput :=
  if (lastSeq <? sequence input)%Z then
    match latestInput with
    | None => Some input
    | Some l => if (sequence l <? sequence input)%Z then Some input else latestInput
    end
  else latestInput.

Definition latestInput (lastSeq : Z) (pending : list PlayerInput) : option PlayerInput :=
  fold_left (pickLatest lastSeq) pending None.

(** The WASD vector, in the player's local axes. *)
Definition inputDirection (k : Keys.t) : Vector3 :=
  let d0 := Vec.ZERO in
  let d1 := if Keys.W k then Vec.set_z d0 (z d0 - 1) else d0 in
  let d2 := if Keys.S k then Vec.set_z d1 (z d1 + 1) else d1 in
  let d3 := if Keys.A k then Vec.set_x d2 (x d2 - 1) else d2 in
  if Keys.D k then Vec.set_x d3 (x d3 + 1) else d3.

Definition set_server (p : Player.t) (s : ServerFields) : Player.t :=
  Player.set_cls p (ServerSide s).

(** The block [if (latestInput) { ... }]: orientation, target velocity,
    fire, acknowledgement.  Returns the player, its server fields,
    [targetVelocity], [hasMovementInput] and the effects. *)
Definition applyLatest `{Math} (now : Q) (input : PlayerInput) (p : Player.t)
    (s : ServerFields) : Player.t * ServerFields * Vector3 * bool * list Effect :=
  let k := keys input in
  let yaw := lookYaw input in
  let pitch := lookPitch input in
  let dir := inputDirection k in
  let '(targetVelocity, hasMovementInput) :=
    if Qltb 0 (Vec.magnitudeSq dir) then
      let dir := Vec.normalize dir in
      let cosYaw := Math_cos yaw in
      let sinYaw := Math_sin yaw in
      let worldX := x dir * cosYaw + z dir * sinYaw in
      let worldZ := - x dir * sinYaw + z dir * cosYaw in
      let worldDirection := Vec.normalize (mkVector3 worldX 0 worldZ) in
      (Vec.multiplyScalar worldDirection BASE_PLAYER_SPEED, true)
    else (Vec.ZERO, false) in
  let '(p1, effects) :=
    if Keys.Fire k then
      let fx := - Math_sin yaw * Math_cos pitch in
      let fy := Math_sin pitch in
      let fz := - Math_cos yaw * Math_cos pitch in
      let fireDirection := Vec.normalize (mkVector3 fx fy fz) in
      let '(p', data, timer) := Player.fireWeapon now fireDirection p in
      (p',
       match timer with Some ms => [SetTimeout_finishReload ms] | None => [] end
       ++ match data with Some d => [Emit_projectileFired d] | None => [] end)
    else (p, []) in
  let s1 :=
    mkServerFields now (sequence input)
      (filter (fun inp => (sequence input <? sequence inp)%Z) (pendingInputs s))
      yaw pitch (timeToRespawn s) in
  (p1, s1, targetVelocity, hasMovementInput, effects).

(** [applyInputs(serverDeltaTime)] on a server player [p] whose own fields
    are [s]; [now] is the value of [Date.now()]. *)
Definition applyInputs `{Math} (now serverDeltaTime : Q) (p : Player.t) (s : ServerFields)
  : Player.t * list Effect :=
  if negb (Player.isAlive p) then
    (set_server (Player.set_velocity p Vec.ZERO)
       (mkServerFields (lastProcessedInputTime s) (lastProcessedInputSequence s) []
          (sp_lookYaw s) (sp_lookPitch s) (timeToRespawn s)),
     [])
  else
    let '(p1, s1, targetVelocity, hasMovementInput, effects) :=
      match latestInput (lastProcessedInputSequence s) (pendingInputs s) with
      | Some input => applyLatest now input p s
      | None =>
          (p,
           mkServerFields (lastProcessedInputTime s) (lastProcessedInputSequence s)
             (filter (fun inp => (lastProcessedInputSequence s <? sequence inp)%Z)
                (pendingInputs s))
             (sp_lookYaw s) (sp_lookPitch s) (timeToRespawn s),
           Vec.ZERO, false, [])
      end in
    let K_ACCEL := PLAYER_ACCELERATION in
    let K_FRICTION := PLAYER_FRICTION in
    let v :=
      if hasMovementInput then
        let alpha := 1 - Math_exp (- K_ACCEL * serverDeltaTime) in
        Vec.lerp (Player.velocity p1) targetVelocity alpha
      else
        let alpha := 1 - Math_exp (- K_FRICTION * serverDeltaTime) in
        let v' := Vec.lerp (Player.velocity p1) Vec.ZERO alpha in
        if Qltb (Vec.magnitudeSq v') (MIN_SPEED_THRESHOLD * MIN_SPEED_THRESHOLD)
        then Vec.ZERO else v' in
    (set_server (Player.set_velocity p1 v) s1, effects).

End ServerPlayer.

(** ** client/src/gameplay/client-player.js

    The file holds two copies of the class; [updateState] is the same in
    both but for the threshold, 0.2 * 0.2 in the first (modelled here) and
    0.05 * 0.05 in the second. *)

Module ClientPlayer.

(** [0.2 * 0.2]: the literal 0.2 is the double nearest to 2/10 and the
    product is rounded, which gives 0.04000000000000001. *)
Definition RECONCILIATION_THRESHOLD_SQ : Q := fl64 (fl64 (2 # 10) * fl64 (2 # 10)).

(** "Aplica estados autoritativos não preditos": the four guarded
    assignments of the local-player branch of [updateState]. *)
Definition applyAuthoritative (newState : PlayerState) (p : Player.t) : Player.t :=
  let p1 := match ps_health newState with Some v => Player.set_health p v | None => p end in
  let p2 :=
    match ps_maxHealth newState with Some v => Player.set_maxHealth p1 v | None => p1 end in
  let p3 := match ps_score newState with Some v => Player.set_score p2 v | None => p2 end in
  match ps_isAlive newState with Some v => Player.set_isAlive p3 v | None => p3 end.

(** "Reconciliação de Posição", run on the player the assignments left. *)
Definition reconcilePosition (newState : PlayerState) (p : Player.t) : Player.t :=
  match ps_position newState with
  | Some pos =>
      if Player.isAlive p then
        let serverPos := mkVector3 (x pos) (y pos) (z pos) in
        let discrepancySq := Vec.distanceToSq64 (Player.position p) serverPos in
        if Qltb RECONCILIATION_THRESHOLD_SQ discrepancySq then
          Player.set_velocity (Player.set_position p serverPos) Vec.ZERO
        else p
      else
        Player.set_velocity (Player.set_position p (mkVector3 (x pos) (y pos) (z pos)))
          Vec.ZERO
  | None => if Player.isAlive p then p else Player.set_velocity p Vec.ZERO
  end.

(** The local-player branch of [updateState]. *)
Definition reconcile (newState : PlayerState) (p : Player.t) : Player.t :=
  reconcilePosition newState (applyAuthoritative newState p).

(** [updateState(newState, serverTimestamp)] on a client player [p] whose
    own fields are [c]; [localPlayerId] is what
    [NetworkManager.getLocalPlayerId()] returns. *)
Definition updateState (localPlayerId : option string) (newState : PlayerState)
    (serverTimestamp : Q) (p : Player.t) (c : ClientFields) : Player.t :=
  let isLocalPlayer :=
    match localPlayerId with
    | Some i => String.eqb (Player.id p) i
    | None => false
    end in
  let c' :=
    match targetState c with
    | Some ts => mkClientFields (Some ts) (Some newState) (targetStateTimestamp c)
                   serverTimestamp
    | None => mkClientFields (Some newState) (Some newState)
                (serverTimestamp - SERVER_TICK_INTERVAL_MS) serverTimestamp
    end in
  let p0 := Player.set_cls p (ClientSide c') in
  if isLocalPlayer then reconcile newState p0 else Player.setState newState p0.

End ClientPlayer.

(** ** Drivers and sample data *)

(** A call of one of the two health-changing methods of [Player]. *)
Inductive HealthCall : Type :=
| TakeDamage (baseAmount : Q) (region : string)
| Heal (amount : Q).

Definition call (p : Player.t) (c : HealthCall) : Player.t :=
  match c with
  | TakeDamage baseAmount region => Player.takeDamage baseAmount region p
  | Heal amount => Player.heal amount p
  end.

Definition calls (cs : list HealthCall) (p : Player.t) : Player.t := fold_left call cs p.

Definition healthInRange (p : Player.t) : Prop :=
  0 <= Player.health p <= Player.maxHealth p.

Definition fullHealthPlayer : Player.t :=
  Player.new "p1" "Player_p1" Vec.ZERO Vec.ZERO 100.

Definition sampleCalls : list HealthCall :=
  [TakeDamage 15 "head"; Heal (-7); TakeDamage 1000 "legs"; Heal 500].

(** The gate of [canFire] with its second test read on [ammo] alone: "ammo
    is a finite number and <= 0". *)
Definition canFire_stated (now : Q) (w : Weapon.t) : bool :=
  if Weapon.isReloading w then false
  else if Weapon.ammo_le_0 w then false
  else if Qltb (now - Weapon.lastFireTime w) (Weapon.fireInterval w) then false
  else true.

(** What the code maintains between [ammo] and [maxAmmo]: an unbounded
    magazine ([maxAmmo = Infinity]) has an unbounded counter.  The two fields
    are initialised together (both [Infinity] in [Weapon], both [PISTOL_AMMO]
    in [Pistol]), [ammo--] runs only under [maxAmmo !== Infinity] and
    [finishReload] copies [maxAmmo] into [ammo]. *)
Definition magazineConsistent (w : Weapon.t) : Prop :=
  Weapon.maxAmmo w = Infinity -> Weapon.ammo w = Infinity.



(** The default map bounds of shared/gameplay/world/map.js. *)
Definition defaultBounds : AABB := mkAABB (mkVector3 (-50) 0 (-40)) (mkVector3 50 25 40).

(** *** The slab test, as the specification words it

    Per axis, the segment [origin + t * dir] is inside the slab of the box
    between an entry and an exit fraction; an axis along which the segment
    does not move ([nearZero]) constrains nothing if the origin is inside its
    slab and excludes every hit otherwise. *)

Definition nearZero (rayDirection : Vector3) (a : Axis) : bool :=
  Qltb (Qabs (component a rayDirection)) CollisionSystem.EPSILON.

Definition outsideSlab (rayOrigin : Vector3) (aabb : AABB) (a : Axis) : bool :=
  Qltb (component a rayOrigin) (component a (aabb_min aabb))
  || Qltb (component a (aabb_max aabb)) (component a rayOrigin).

Definition planeMin (rayOrigin rayDirection : Vector3) (aabb : AABB) (a : Axis) : Q :=
  (component a (aabb_min aabb) - component a rayOrigin) * (1 / component a rayDirection).

Definition planeMax (rayOrigin rayDirection : Vector3) (aabb : AABB) (a : Axis) : Q :=
  (component a (aabb_max aabb) - component a rayOrigin) * (1 / component a rayDirection).

(** The smaller of the two plane fractions of an axis. *)
Definition axisEntry (rayOrigin rayDirection : Vector3) (aabb : AABB) (a : Axis) : Q :=
  if Qltb (planeMax rayOrigin rayDirection aabb a) (planeMin rayOrigin rayDirection aabb a)
  then planeMax rayOrigin rayDirection aabb a
  else planeMin rayOrigin rayDirection aabb a.

(** The larger of the two. *)
Definition axisExit (rayOrigin rayDirection : Vector3) (aabb : AABB) (a : Axis) : Q :=
  if Qltb (planeMax rayOrigin rayDirection aabb a) (planeMin rayOrigin rayDirection aabb a)
  then planeMin rayOrigin rayDirection aabb a
  else planeMax rayOrigin rayDirection aabb a.

Definition movingAxes (rayDirection : Vector3) (axes : list Axis) : list Axis :=
  filter (fun a => negb (nearZero rayDirection a)) axes.

Definition parallelOutside (rayOrigin rayDirection : Vector3) (aabb : AABB)
    (axes : list Axis) : bool :=
  existsb (fun a => nearZero rayDirection a && outsideSlab rayOrigin aabb a) axes.

(** The latest entry, not before [from]. *)
Definition lastEntry (rayOrigin rayDirection : Vector3) (aabb : AABB) (axes : list Axis)
    (from : Q) : Q :=
  fold_left Qmax (map (axisEntry rayOrigin rayDirection aabb) (movingAxes rayDirection axes))
    from.

(** The earliest exit, not after [upto]. *)
Definition firstExit (rayOrigin rayDirection : Vector3) (aabb : AABB) (axes : list Axis)
    (upto : Q) : Q :=
  fold_left Qmin (map (axisExit rayOrigin rayDirection aabb) (movingAxes rayDirection axes))
    upto.

(** The amended wording of the contract of [checkRayAABBIntersection]. *)
Definition rayAABB_spec (rayOrigin rayDirection : Vector3) (aabb : AABB) : option Q :=
  let axes := [AxisX; AxisY; AxisZ] in
  if Qltb (Vec.magnitudeSq rayDirection) (1 # 100000) then
    if CollisionSystem.checkAABBOverlap (mkAABB rayOrigin rayOrigin) aabb then Some 0
    else None
  else if parallelOutside rayOrigin rayDirection aabb axes then None
  else if Qltb (firstExit rayOrigin rayDirection aabb axes 1)
            (lastEntry rayOrigin rayDirection aabb axes 0) then None
  else Some (lastEntry rayOrigin rayDirection aabb axes 0).




(** The wall of the projectile-against-wall scenario: base centre
    (5, 1, 0), size (2, 2, 2). *)
Definition scenarioWall : Obstacle := mkObstacle (mkVector3 5 1 0) (mkVector3 2 2 2) "box".

(** The value of a field after a snapshot was applied to it. *)
Definition fromSnapshot {X : Type} (field : option X) (old : X) : X :=
  match field with Some v => v | None => old end.

Definition noClientState : ClientFields := mkClientFields None None 0 0.

(** A live local player, predicted at the origin and moving along x. *)
Definition localPlayer : Player.t :=
  Player.set_cls (Player.set_velocity fullHealthPlayer (mkVector3 1 0 0))
    (ClientSide noClientState).

(** A snapshot entry for [localPlayer]. *)
Definition snapshotAt (pos : Vector3) (health : Q) (alive : bool) : PlayerState :=
  mkPlayerState "p1" (Some pos) (Some health) (Some 100) (Some "Player_p1"%string)
    (Some 0) (Some alive).

(** A rational stand-in for [Math], to run the model on concrete inputs:
    the square root is that of the integers (exact on perfect squares of
    integers), the other functions are their Taylor polynomials at 0. *)
Definition RationalMath : Math := {|
  Math_sqrt := fun q => Z.sqrt (Qnum q * Zpos (Qden q)) # Qden q;
  Math_exp := fun q => 1 + q + q * q / 2;
  Math_cos := fun q => 1 - q * q / 2;
  Math_sin := fun q => q - q * q * q / 6
|}.

(** The projectile under the calls of [Projectile.update] of successive
    ticks; [vs] lists the velocity it has at each call (the movement system
    may change it between two calls). *)
Fixpoint ticks `{Math} (deltaTime : Q) (vs : list Vector3) (p : Projectile.t)
  : Projectile.t :=
  match vs with
  | [] => p
  | v :: rest =>
      ticks deltaTime rest (Projectile.update deltaTime (Projectile.set_velocity p v))
  end.

(** The bound of the range-termination property: the ceiling of
    [R / (S * dt)]. *)
Definition ticksToRange (R S dt : Q) : nat := Z.to_nat (Qceiling (R / (S * dt))).

(** A pistol bullet flying along x at 60 units per second. *)
Definition pistolBullet : Projectile.t :=
  Projectile.new "p1" (mkVector3 0 (16 # 10) 0) (mkVector3 60 0 0) 15 60 100
    "pistol_bullet" "b1".



Definition noKeys : Keys.t :=
  Keys.mk false false false false false false false false false false.

Definition forwardKeys : Keys.t :=
  Keys.mk true false false false false false false false false false.

(** Inputs 7, 9, 8 and a duplicate of 9, in arrival order. *)
Definition sampleInputs : list PlayerInput :=
  [ mkPlayerInput 7 (1 # 60) forwardKeys 0 0;
    mkPlayerInput 9 (1 # 60) noKeys (1 # 2) 0;
    mkPlayerInput 8 (1 # 60) forwardKeys 1 0;
    mkPlayerInput 9 (1 # 60) forwardKeys 2 0 ].

Definition sampleServerFields : ServerFields := mkServerFields 0 7 sampleInputs 0 0 0.

(** *** The locals of the loop body of [MovementSystem.update] for a
    projectile *)

(** The projectile once gravity has been applied to its velocity. *)
Definition afterGravity (deltaTime : Q) (prj : Projectile.t) : Projectile.t :=
  if negb (Projectile.ignoreGravity prj) then
    Projectile.set_velocity prj
      (Vec.set_y (Projectile.velocity prj)
         (y (Projectile.velocity prj) - GRAVITY * deltaTime))
  else prj.

(** [deltaPosition] *)
Definition deltaPosition (deltaTime : Q) (prj : Projectile.t) : Vector3 :=
  Vec.multiplyScalar (Projectile.velocity (afterGravity deltaTime prj)) deltaTime.

(** [hitStaticResult] *)
Definition hitStaticResult `{Math} (ms : MovementSystem.t) (deltaTime : Q)
    (prj : Projectile.t) : option (Obstacle * Q) :=
  CollisionSystem.checkProjectileHitStaticObstacleRaycast (Projectile.position prj)
    (deltaPosition deltaTime prj) (MovementSystem.obstacles ms).

(** [hitPlayerResult] *)
Definition hitPlayerResult `{Math} (store : list Player.t) (deltaTime : Q)
    (prj : Projectile.t) (targets : list nat) : option PlayerHit :=
  CollisionSystem.checkProjectileHitRaycast store (afterGravity deltaTime prj)
    (Projectile.position prj) (deltaPosition deltaTime prj) targets.

(** A hit on a player names a live player of the store other than the
    owner, and one of that player's hitboxes, struck at the reported
    fraction. *)
Definition struck (store : list Player.t) (ownerId : string)
    (rayOrigin rayDirection : Vector3) (maxDistance : Q) (h : PlayerHit) : Prop :=
  exists tp box,
    nth_error store (target h) = Some tp
    /\ Player.isAlive tp = true
    /\ String.eqb (Player.id tp) ownerId = false
    /\ In (hitboxKey h, box) (Player.getHitboxes tp)
    /\ CollisionSystem.checkRayAABBIntersection rayOrigin rayDirection maxDistance box
       = Some (ph_t h).


Definition scenarioSystem : MovementSystem.t := MovementSystem.mk defaultBounds [scenarioWall].


(** A player standing at (5, 0, 0), and a bullet of another player flying
    at it along x at head height. *)
Definition standingPlayer : Player.t :=
  Player.new "p2" "Player_p2" (mkVector3 5 0 0) Vec.ZERO 100.

Definition headBullet : Projectile.t :=
  Projectile.new "p1" (mkVector3 0 (18 # 10) 0) (mkVector3 300 (2 # 3) 0) 15 300 100
    "pistol_bullet" "b2".

Definition openField : MovementSystem.t := MovementSystem.mk defaultBounds [].


(** ** Geometry of the segment and the box *)

(** The coordinate on axis [a] of the point of the segment at fraction [t]. *)
Definition pointAt (rayOrigin rayDirection : Vector3) (t : Q) (a : Axis) : Q :=
  component a rayOrigin + t * component a rayDirection.

(** [v] lies between the two faces of the box on axis [a], faces included. *)
Definition inSlab (aabb : AABB) (a : Axis) (v : Q) : Prop :=
  component a (aabb_min aabb) <= v <= component a (aabb_max aabb).

(** What the slab test looks at on axis [a] for the fraction [t]: the
    origin when the direction component is near zero, the point of the
    segment otherwise. *)
Definition slabCoordinate (rayOrigin rayDirection : Vector3) (t : Q) (a : Axis) : Q :=
  if nearZero rayDirection a then component a rayOrigin
  else pointAt rayOrigin rayDirection t a.

Definition wellFormed (aabb : AABB) : Prop :=
  forall a, component a (aabb_min aabb) <= component a (aabb_max aabb).

(** ** Frames of the movement system *)

(** [e'] is [e] with another position and velocity, and nothing else
    changed. *)
Definition movedOnly (e e' : Entity) : Prop :=
  e' = Entity.set_velocity (Entity.set_position e (Entity.position e')) (Entity.velocity e').


(** A projectile dropping from just above the floor of the default map. *)
Definition droppingBullet : Projectile.t :=
  Projectile.new "p1" (mkVector3 0 (1 # 10) 0) (mkVector3 0 (-6) 0) 15 60 100
    "pistol_bullet" "b3".

(** A projectile branch that keeps the identity of the projectile and of
    the players of the store. *)
Definition keepsIdentities
    (logic : MovementSystem.t -> list Player.t -> Projectile.t -> Vector3 -> Vector3 ->
             Vector3 -> list nat -> MovementSystem.ProjectileOutcome) : Prop :=
  forall ms store prj prev delta pot targets,
    Projectile.id (MovementSystem.out_projectile (logic ms store prj prev delta pot targets))
    = Projectile.id prj
    /\ map Player.id (MovementSystem.out_players (logic ms store prj prev delta pot targets))
       = map Player.id store.


(** ** The life cycle of a player *)

(** [Player.getState()], over [GameObject.getState()]: a plain object with
    every field present. *)
Definition Player_getState (p : Player.t) : PlayerState :=
  let baseState_position :=
    mkVector3 (x (Player.position p)) (y (Player.position p)) (z (Player.position p)) in
  mkPlayerState (Player.id p) (Some baseState_position) (Some (Player.health p))
    (Some (Player.maxHealth p)) (Some (Player.name p)) (Some (Player.score p))
    (Some (Player.isAlive p)).

(** A call of one of the methods of [Player] that write [health] or
    [isAlive]. *)
Inductive LifeCall : Type :=
| HealthChange (c : HealthCall)
| Respawn (position : Vector3).

Definition lifeCall (p : Player.t) (c : LifeCall) : Player.t :=
  match c with
  | HealthChange c => call p c
  | Respawn position => Player.respawn position p
  end.

Definition lifeCalls (cs : list LifeCall) (p : Player.t) : Player.t :=
  fold_left lifeCall cs p.

(** Health is within range, and the player is alive exactly when it has
    health left. *)
Definition consistent (p : Player.t) : Prop :=
  0 < Player.maxHealth p
  /\ 0 <= Player.health p <= Player.maxHealth p
  /\ (Player.isAlive p = true <-> 0 < Player.health p).

Definition with_timeToRespawn (s : ServerFields) (v : Q) : ServerFields :=
  mkServerFields (lastProcessedInputTime s) (lastProcessedInputSequence s)
    (pendingInputs s) (sp_lookYaw s) (sp_lookPitch s) v.

(** ** server/src/gameplay/server-player.js: [update] and [processInput] *)

(** [update(deltaTime)] on a server player [p] whose own fields are [s];
    [now] is the value of [Date.now()] and [spawnPosition] what
    [spawnManager.getSpawnPoint()] returns when it is called.
    [currentWeapon.update] has an empty body.  The countdown is a double:
    the difference is rounded. *)
Definition ServerPlayer_update `{Math} (now deltaTime : Q) (spawnPosition : Vector3)
    (p : Player.t) (s : ServerFields) : Player.t * list Effect :=
  if negb (Player.isAlive p) then
    let s1 := with_timeToRespawn s (fl64 (timeToRespawn s - deltaTime)) in
    let p1 := ServerPlayer.set_server p s1 in
    if Qleb (timeToRespawn s1) 0 then (Player.respawn spawnPosition p1, [])
    else (p1, [])
  else ServerPlayer.applyInputs now deltaTime p s.

(** [update] on the object itself: a player of another class has the
    [update] of [Player], which leaves it as it is. *)
Definition serverTick `{Math} (deltaTime : Q) (p : Player.t) (step : Q * Vector3)
  : Player.t :=
  match Player.cls p with
  | ServerSide s => fst (ServerPlayer_update (fst step) deltaTime (snd step) p s)
  | _ => p
  end.

(** Successive ticks; each comes with its clock value and the spawn point
    the spawn manager would give. *)
Definition serverTicks `{Math} (deltaTime : Q) (steps : list (Q * Vector3)) (p : Player.t)
  : Player.t :=
  fold_left (serverTick deltaTime) steps p.

(** The respawn countdown [t] after [n] ticks of a dead player:
    [timeToRespawn -= deltaTime], n times. *)
Fixpoint countdown (deltaTime : Q) (n : nat) (t : Q) : Q :=
  match n with
  | O => t
  | S k => countdown deltaTime k (fl64 (t - deltaTime))
  end.

(** A server player that has just died at the origin. *)
Definition deadServerPlayer : Player.t :=
  Player.takeDamage 1000 "head"
    (Player.set_cls fullHealthPlayer (ServerSide sampleServerFields)).

(** A pistol with a magazine of six rounds, one round left. *)
Definition lastRoundPistol : Weapon.t :=
  Weapon.mk 15 5 100 60 (Fin 1) (Fin 6) (3 # 2) 200 0 false 0.

(** The pistol as its constructor builds it: unbounded ammunition. *)
Definition stockPistol : Weapon.t :=
  Weapon.mk 15 5 100 60 Infinity Infinity (3 # 2) 200 0 false 0.

(** Both forward and backward pressed. *)
Definition opposedKeys : Keys.t :=
  Keys.mk true false true false false false false false false false.

(** ** shared/utils/math-utils.js and shared/physics/vector.js, continued *)

(** [lerp(a, b, alpha)] of math-utils.js: no clamping of [alpha]. *)
Definition MathUtils_lerp (a b alpha : Q) : Q := a + (b - a) * alpha.

(** [Vector3.equals(v, epsilon)] *)
Definition Vec_equals (a v : Vector3) (epsilon : Q) : bool :=
  Qltb (Qabs (x a - x v)) epsilon
  && Qltb (Qabs (y a - y v)) epsilon
  && Qltb (Qabs (z a - z v)) epsilon.

(** The default value of the parameter [epsilon] of [equals]. *)
Definition DEFAULT_EPSILON : Q := 1 # 100000.

(** [Vector3.crossVectors(a, b)]; the method [cross] computes the same
    three components in place. *)
Definition Vec_crossVectors (a b : Vector3) : Vector3 :=
  let ax := x a in let ay := y a in let az := z a in
  let bx := x b in let by_ := y b in let bz := z b in
  mkVector3 (ay * bz - az * by_) (az * bx - ax * bz) (ax * by_ - ay * bx).

(** The scalar product, written out. *)
Definition dotProduct (a b : Vector3) : Q := x a * x b + y a * y b + z a * z b.

(** A server player moving at (3, 0, 4) whose only new input holds both
    forward and backward. *)
Definition opposedInputFields : ServerFields :=
  mkServerFields 0 7 [mkPlayerInput 8 (1 # 60) opposedKeys 0 0] 0 0 0.

Definition glidingPlayer : Player.t :=
  Player.set_cls (Player.set_velocity fullHealthPlayer (mkVector3 3 0 4))
    (ServerSide opposedInputFields).

(** ** client/src/gameplay/client-player.js: [update], remote players *)

Definition RENDER_DELAY : Q := SERVER_TICK_INTERVAL_MS * (15 # 10).

(** The branch "Interpolação (Jogadores Remotos)" of [update]; [now] is
    the value of [Date.now()]. *)
Definition ClientPlayer_interpolate (now : Q) (p : Player.t) (c : ClientFields) : Player.t :=
  let useLatest :=
    match targetState c with
    | Some ts =>
        match ps_position ts with
        | Some pos => Player.set_position p (mkVector3 (x pos) (y pos) (z pos))
        | None => p
        end
    | None => p
    end in
  match previousState c, targetState c with
  | Some prev, Some tgt =>
      if Player.isAlive p && Qltb (lastStateTimestamp c) (targetStateTimestamp c) then
        let renderTimestamp := now - RENDER_DELAY in
        let timeRatio := targetStateTimestamp c - lastStateTimestamp c in
        let alpha :=
          if Qltb 0 timeRatio then (renderTimestamp - lastStateTimestamp c) / timeRatio
          else 1 in
        let alpha := clamp alpha 0 1 in
        match ps_position prev, ps_position tgt with
        | Some pp, Some tp =>
            let prevPos := mkVector3 (x pp) (y pp) (z pp) in
            let targetPos := mkVector3 (x tp) (y tp) (z tp) in
            Player.set_position p (Vec.lerp prevPos targetPos alpha)
        | _, _ => p
        end
      else useLatest
  | _, _ => useLatest
  end.

(** A remote player between a snapshot at (0, 0, 0), stamped 1000 ms, and
    one at (3, 0, 6), stamped 1033 ms. *)
Definition betweenSnapshots : ClientFields :=
  mkClientFields (Some (snapshotAt (mkVector3 0 0 0) 100 true))
    (Some (snapshotAt (mkVector3 3 0 6) 100 true)) 1000 1033.

(** ** client/src/gameplay/client-player.js: [applyInputLocally] *)

(** Steps 1 and 2 of [applyInputLocally]: [targetVelocity] and
    [hasMovementInput]; the input vector is built by the same four lines
    as on the server. *)
Definition ClientPlayer_targetVelocity `{Math} (k : Keys.t) (lookYaw : Q)
  : Vector3 * bool :=
  let inputDirection := ServerPlayer.inputDirection k in
  if Qltb 0 (Vec.magnitudeSq inputDirection) then
    let dir := Vec.normalize inputDirection in
    let cosYaw := Math_cos lookYaw in
    let sinYaw := Math_sin lookYaw in
    let worldX := x dir * cosYaw + z dir * sinYaw in
    let worldZ := - x dir * sinYaw + z dir * cosYaw in
    let worldDirection := Vec.normalize (mkVector3 worldX 0 worldZ) in
    (Vec.multiplyScalar worldDirection BASE_PLAYER_SPEED, true)
  else (Vec.ZERO, false).

(** [applyInputLocally(keys, lookYaw, clientDeltaTime)], as a function of
    [this.velocity]: the linear step 3, then the exponential step. *)
Definition ClientPlayer_applyInputLocally `{Math} (k : Keys.t)
    (lookYaw clientDeltaTime : Q) (velocity : Vector3) : Vector3 :=
  let '(targetVelocity, hasMovementInput) := ClientPlayer_targetVelocity k lookYaw in
  let velocity :=
    if hasMovementInput then
      let accelFactor := clamp (PLAYER_ACCELERATION * clientDeltaTime) 0 1 in
      Vec.lerp velocity targetVelocity accelFactor
    else
      let currentSpeedSq := Vec.magnitudeSq velocity in
      if Qltb (MIN_SPEED_THRESHOLD * MIN_SPEED_THRESHOLD) currentSpeedSq then
        let frictionMagnitude := PLAYER_FRICTION * clientDeltaTime in
        let currentSpeed := Math_sqrt currentSpeedSq in
        let newSpeed := Qmax 0 (currentSpeed - frictionMagnitude) in
        if Qltb 0 currentSpeed then Vec.multiplyScalar velocity (newSpeed / currentSpeed)
        else Vec.ZERO
      else Vec.ZERO in
  let K_ACCEL := PLAYER_ACCELERATION in
  let K_FRICTION := PLAYER_FRICTION in
  if hasMovementInput then
    let alpha := 1 - Math_exp (- K_ACCEL * clientDeltaTime) in
    Vec.lerp velocity targetVelocity alpha
  else
    let alpha := 1 - Math_exp (- K_FRICTION * clientDeltaTime) in
    let v' := Vec.lerp velocity Vec.ZERO alpha in
    if Qltb (Vec.magnitudeSq v') (MIN_SPEED_THRESHOLD * MIN_SPEED_THRESHOLD)
    then Vec.ZERO else v'.

(** ** server/src/managers/game-state-manager.js

    [this.projectiles] is a [Map] from id to projectile, every projectile
    being stored under its own id: it is modelled by the list of its
    values in insertion order.  The players are those of the session
    manager, in the insertion order of its [Map]. *)

Module GameStateManager.

Record t : Type := mk {
  movementSystem : MovementSystem.t;
  world : World
}.

(** [Map.prototype.set], the key being the id of the value: an entry with
    that key is replaced in place, a new key is appended. *)
Fixpoint mapSet (l : list Projectile.t) (v : Projectile.t) : list Projectile.t :=
  match l with
  | [] => [v]
  | h :: r =>
      if String.eqb (Projectile.id h) (Projectile.id v) then v :: r else h :: mapSet r v
  end.

(** [addProjectile(projectileData)]; [newId] is what [generateUUID()]
    returns.  The descriptor has its [origin] and [velocity]; an empty
    [ownerId] is falsy. *)
Definition addProjectile (newId : string) (projectileData : ProjectileData)
    (projectiles : list Projectile.t) : list Projectile.t :=
  if String.eqb (pd_ownerId projectileData) EmptyString then projectiles
  else
    let originVec :=
      mkVector3 (x (pd_origin projectileData)) (y (pd_origin projectileData))
        (z (pd_origin projectileData)) in
    let velocityVec :=
      mkVector3 (x (pd_velocity projectileData)) (y (pd_velocity projectileData))
        (z (pd_velocity projectileData)) in
    let newProjectile :=
      Projectile.new (pd_ownerId projectileData) originVec velocityVec
        (or_default (pd_damage projectileData) 0)
        (or_default (pd_speed projectileData) 20)
        (or_default (pd_range projectileData) 100)
        (if String.eqb (pd_type projectileData) EmptyString then "default"%string
         else pd_type projectileData)
        newId in
    mapSet projectiles newProjectile.

(** [removeProjectile(projectileId)] *)
Definition removeProjectile (projectileId : string) (projectiles : list Projectile.t)
  : list Projectile.t :=
  filter (fun q => negb (String.eqb (Projectile.id q) projectileId)) projectiles.

(** [Array.prototype.includes] on ids *)
Definition includes (ids : list string) (id : string) : bool :=
  existsb (String.eqb id) ids.

(** What the environment supplies during the [update] of one player: the
    clock, the spawn point the spawn manager would draw, and the id a new
    projectile would get. *)
Record Oracle : Type := mkOracle {
  or_now : Q;
  or_spawnPosition : Vector3;
  or_newId : string
}.

(** The listeners run by an effect of [player.update]: [addProjectile]
    for 'projectileFired'; a reload timer is left pending. *)
Definition handleEffect (newId : string) (acc : list Projectile.t * list Q) (e : Effect)
  : list Projectile.t * list Q :=
  match e with
  | Emit_projectileFired data => (addProjectile newId data (fst acc), snd acc)
  | SetTimeout_finishReload delayMs => (fst acc, snd acc ++ [delayMs])
  end.

(** Step 1, for the player at position [i]: [player.update(deltaTime)]. *)
Definition updatePlayerAt `{Math} (deltaTime : Q) (oracle : nat -> Oracle)
    (acc : World * list Q) (i : nat) : World * list Q :=
  let '(w, timers) := acc in
  match nth_error (players w) i with
  | Some p =>
      let '(p', effects) :=
        match Player.cls p with
        | ServerSide s =>
            ServerPlayer_update (or_now (oracle i)) deltaTime
              (or_spawnPosition (oracle i)) p s
        | _ => (p, [])
        end in
      let '(projectiles', timers') :=
        fold_left (handleEffect (or_newId (oracle i))) effects (projectiles w, timers) in
      (mkWorld (list_set (players w) i p') projectiles', timers')
  | None => acc
  end.

(** The collection of the ids of marked projectiles, without repeats. *)
Definition collectMarked (acc : list string) (q : Projectile.t) : list string :=
  if Projectile.markForRemoval q && negb (includes acc (Projectile.id q))
  then acc ++ [Projectile.id q] else acc.

(** [update(deltaTime)]: the new state, the impact events emitted by the
    movement system and the reload timers started.  [movementSystem_update]
    is the [update] of the movement system, of which there are two
    copies.  None of the modelled steps throws, so the [try] block that
    wraps the body is transparent. *)
Definition updateWith `{Math}
    (movementSystem_update : MovementSystem.t -> World -> list EntityRef -> Q -> list nat ->
                             World * list ImpactEvent)
    (gsm : t) (deltaTime : Q) (oracle : nat -> Oracle)
  : t * list ImpactEvent * list Q :=
  let w0 := world gsm in
  let playerIndices := seq 0 (List.length (players w0)) in
  let '(w1, timers) := fold_left (updatePlayerAt deltaTime oracle) playerIndices (w0, []) in
  let currentProjectiles := map (Projectile.update deltaTime) (projectiles w1) in
  let projectilesToRemove := fold_left collectMarked currentProjectiles [] in
  let alivePlayers :=
    filter (fun i => match nth_error (players w1) i with
                     | Some p => Player.isAlive p
                     | None => false
                     end) playerIndices in
  let movingProjectiles :=
    filter (fun j => match nth_error currentProjectiles j with
                     | Some q => negb (includes projectilesToRemove (Projectile.id q))
                     | None => false
                     end) (seq 0 (List.length currentProjectiles)) in
  let allMovingEntities := map PlayerRef alivePlayers ++ map ProjectileRef movingProjectiles in
  let '(w2, events) :=
    movementSystem_update (movementSystem gsm) (mkWorld (players w1) currentProjectiles)
      allMovingEntities deltaTime alivePlayers in
  let projectilesToRemove :=
    fold_left (fun acc j => match nth_error (projectiles w2) j with
                            | Some q => collectMarked acc q
                            | None => acc
                            end) movingProjectiles projectilesToRemove in
  let remaining :=
    fold_left (fun l id => removeProjectile id l) projectilesToRemove (projectiles w2) in
  (mk (movementSystem gsm) (mkWorld (players w2) remaining), events, timers).

(** With the movement system of unnamed/part_002. *)
Definition update `{Math} : t -> Q -> (nat -> Oracle) -> t * list ImpactEvent * list Q :=
  updateWith MovementSystem.update.

(** With the movement system of unnamed/part_003. *)
Definition update0 `{Math} : t -> Q -> (nat -> Oracle) -> t * list ImpactEvent * list Q :=
  updateWith MovementSystem0.update.

End GameStateManager.

(** A live server player holding the stock pistol, about to fire. *)
Definition armedPlayer : Player.t :=
  Player.set_currentWeapon
    (Player.set_cls fullHealthPlayer
       (ServerSide (mkServerFields 0 7
                      [mkPlayerInput 8 (1 # 60)
                         (Keys.mk false false false false false false true false false false)
                         0 0] 0 0 0)))
    (Some stockPistol).

(** ** Shapes of boxes *)

(** On axis [a] neither box sticks out of the other on both sides. *)
Definition staggered (a : Axis) (box obs : AABB) : Prop :=
  (component a (aabb_min box) <= component a (aabb_min obs)
   /\ component a (aabb_max box) <= component a (aabb_max obs))
  \/ (component a (aabb_min obs) <= component a (aabb_min box)
      /\ component a (aabb_max obs) <= component a (aabb_max box)).

(** A player overlapping [scenarioWall] from its low-x side. *)
Definition pressedAgainstWall : CollisionSystem.PushState :=
  CollisionSystem.mkPushState (mkVector3 (37 # 10) 0 0) (mkVector3 2 0 0)
    (Player.getBoundingBox standingPlayer (mkVector3 (37 # 10) 0 0)) false.

(** ** server/src/core/persistent-game-loop.js (unnamed/part_010) *)

Module PersistentGameLoop.

(** [timerId] holds the delay (ms) of the pending [setTimeout]. *)
Record t : Type := mk {
  timerId : option Q;
  isRunning : bool;
  lastTickTime : Q
}.

(** [scheduleNextTick()]; [now] is the value of [performance.now()]. *)
Definition scheduleNextTick (now : Q) (l : t) : t :=
  let nextTickTime := lastTickTime l + SERVER_TICK_INTERVAL_MS in
  let delay := Qmax 0 (nextTickTime - now) in
  mk (Some delay) (isRunning l) (lastTickTime l).

(** [start()]: the clock is read once by [start] ([now]) and once by
    [scheduleNextTick] ([now']). *)
Definition start (now now' : Q) (l : t) : t :=
  if isRunning l then l
  else scheduleNextTick now' (mk (timerId l) true now).

Definition stop (l : t) : t :=
  if negb (isRunning l) then l else mk None false (lastTickTime l).

(** [tick()]: [now] is the clock at its start, [callbackThrows] tells
    whether the update callback or the broadcast throws, [now'] is the
    clock read by [scheduleNextTick].  The second component is the
    [deltaTime] handed to the callback, when it is called. *)
Definition tick (now : Q) (callbackThrows : bool) (now' : Q) (l : t) : t * option Q :=
  if negb (isRunning l) then (l, None)
  else
    let deltaTime := (now - lastTickTime l) / 1000 in
    let l1 := mk (timerId l) (isRunning l) now in
    if callbackThrows then (stop l1, Some deltaTime)
    else (scheduleNextTick now' l1, Some deltaTime).

(** Successive firings of the timer, with the [deltaTime]s handed out. *)
Fixpoint run (ticks : list (Q * bool * Q)) (l : t) : t * list Q :=
  match ticks with
  | [] => (l, [])
  | (now, callbackThrows, now') :: rest =>
      let '(l1, deltaTime) := tick now callbackThrows now' l in
      let '(l2, deltaTimes) := run rest l1 in
      (l2, match deltaTime with Some d => d :: deltaTimes | None => deltaTimes end)
  end.

End PersistentGameLoop.

Definition sumQ (l : list Q) : Q := fold_right Qplus 0 l.

(** * Properties *)

(** Case analysis on the condition of the first conditional of the goal. *)
Ltac case_if :=
  match goal with |- context [if ?c then _ else _] => destruct c end.

Lemma Qltb_lt (a b : Q) : Qltb a b = true <-> a < b.
Proof.
  unfold Qltb. rewrite negb_true_iff. split; intro H.
  - apply Qnot_le_lt. intro Hle. apply Qle_bool_iff in Hle. congruence.
  - destruct (Qle_bool b a) eqn:E; [|reflexivity].
    apply Qle_bool_iff in E. exfalso. apply (Qlt_not_le _ _ H E).
Qed.

Lemma Qltb_ge (a b : Q) : Qltb a b = false <-> b <= a.
Proof.
  unfold Qltb. rewrite negb_false_iff. apply Qle_bool_iff.
Qed.

Lemma Qleb_le (a b : Q) : Qleb a b = true <-> a <= b.
Proof. apply Qle_bool_iff. Qed.

Lemma Qleb_gt (a b : Q) : Qleb a b = false <-> b < a.
Proof.
  unfold Qleb. split; intro H.
  - apply Qnot_le_lt. intro Hle. apply Qle_bool_iff in Hle. congruence.
  - destruct (Qle_bool a b) eqn:E; [|reflexivity].
    apply Qle_bool_iff in E. exfalso. apply (Qlt_not_le _ _ H E).
Qed.

(** ** Binary64 rounding *)

Lemma two_neq_0 : ~ 2 == 0.
Proof. discriminate. Qed.

Lemma pow2_pos (k : Z) : 0 < pow2 k.
Proof. apply Qpower_0_lt. reflexivity. Qed.

Lemma pow2_plus (a b : Z) : pow2 (a + b) == pow2 a * pow2 b.
Proof. apply Qpower_plus, two_neq_0. Qed.

Lemma pow2_le (a b : Z) : (a <= b)%Z -> pow2 a <= pow2 b.
Proof. intro H. apply Qpower_le_compat_l; [exact H | discriminate]. Qed.

Lemma pow2_lt_inv (a b : Z) : pow2 a < pow2 b -> (a < b)%Z.
Proof. intro H. apply (Qpower_lt_compat_l_inv 2); [exact H | reflexivity]. Qed.

Lemma pow2_Z (k : Z) : (0 <= k)%Z -> pow2 k == inject_Z (2 ^ k).
Proof. intro H. unfold pow2. rewrite Zpower_Qpower by exact H. reflexivity. Qed.

Lemma Q_num_den (q : Q) : q * inject_Z (Zpos (Qden q)) == inject_Z (Qnum q).
Proof.
  destruct q as [n d]. cbn [Qnum Qden]. rewrite (Qmake_Qdiv n d). field. discriminate.
Qed.

Lemma ilog2_spec (q : Q) : 0 < q -> pow2 (ilog2 q) <= q /\ q < pow2 (ilog2 q + 1).
Proof.
  intro Hq.
  assert (Hn : (0 < Qnum q)%Z).
  { destruct q as [n d]. unfold Qlt in Hq. cbn in *. lia. }
  pose proof (Z.log2_spec (Qnum q) Hn) as [Hn1 Hn2].
  pose proof (Z.log2_spec (Zpos (Qden q)) eq_refl) as [Hd1 Hd2].
  pose proof (Z.log2_nonneg (Qnum q)) as Hln.
  pose proof (Z.log2_nonneg (Zpos (Qden q))) as Hld.
  set (ln := Z.log2 (Qnum q)) in *. set (ld := Z.log2 (Zpos (Qden q))) in *.
  pose proof (Q_num_den q) as Hq'.
  assert (Qn1 : pow2 ln <= inject_Z (Qnum q)).
  { rewrite pow2_Z by exact Hln. rewrite <- Zle_Qle. exact Hn1. }
  assert (Qn2 : inject_Z (Qnum q) < pow2 (ln + 1)).
  { rewrite pow2_Z by lia. rewrite <- Zlt_Qlt. replace (ln + 1)%Z with (Z.succ ln) by lia.
    exact Hn2. }
  assert (Qd1 : pow2 ld <= inject_Z (Zpos (Qden q))).
  { rewrite pow2_Z by exact Hld. rewrite <- Zle_Qle. exact Hd1. }
  assert (Qd2 : inject_Z (Zpos (Qden q)) < pow2 (ld + 1)).
  { rewrite pow2_Z by lia. rewrite <- Zlt_Qlt. replace (ld + 1)%Z with (Z.succ ld) by lia.
    exact Hd2. }
  unfold ilog2. cbv zeta. fold ln ld.
  destruct (Qleb (pow2 (ln - ld)) q) eqn:E.
  - apply Qleb_le in E. split; [exact E|].
    assert (Hp : pow2 (ln - ld + 1) * pow2 ld == pow2 (ln + 1)).
    { rewrite <- pow2_plus. replace (ln - ld + 1 + ld)%Z with (ln + 1)%Z by lia. reflexivity. }
    pose proof (pow2_pos ld) as Hpd. pose proof (pow2_pos (ln - ld + 1)) as Hpe.
    apply (Qmult_lt_r _ _ (pow2 ld) Hpd). rewrite Hp.
    eapply Qle_lt_trans; [|exact Qn2]. rewrite <- Hq'.
    apply Qmult_le_l; [exact Hq | exact Qd1].
  - apply Qleb_gt in E. split.
    + assert (Hp : pow2 (ln - ld - 1) * pow2 (ld + 1) == pow2 ln).
      { rewrite <- pow2_plus. replace (ln - ld - 1 + (ld + 1))%Z with ln by lia. reflexivity. }
      pose proof (pow2_pos (ld + 1)) as Hpd.
      apply (Qmult_le_r _ _ (pow2 (ld + 1)) Hpd). rewrite Hp.
      eapply Qle_trans; [exact Qn1|]. rewrite <- Hq'.
      apply Qmult_le_l; [exact Hq|]. apply Qlt_le_weak. exact Qd2.
    + replace (ln - ld - 1 + 1)%Z with (ln - ld)%Z by lia. exact E.
Qed.

Lemma roundHalfEven_error (q : Q) : Qabs (inject_Z (roundHalfEven q) - q) <= 1 # 2.
Proof.
  pose proof (Qfloor_le q) as H1. pose proof (Qlt_floor q) as H2.
  rewrite inject_Z_plus in H2.
  assert (Hup : inject_Z (Qfloor q + 1) == inject_Z (Qfloor q) + 1)
    by (rewrite inject_Z_plus; reflexivity).
  change (inject_Z 1) with 1 in H2.
  apply Qabs_Qle_condition. unfold roundHalfEven. cbv zeta.
  destruct (Qltb (q - inject_Z (Qfloor q)) (1 # 2)) eqn:E1.
  - apply Qltb_lt in E1. split; lra.
  - apply Qltb_ge in E1.
    destruct (Qltb (1 # 2) (q - inject_Z (Qfloor q))) eqn:E2.
    + rewrite Hup. split; lra.
    + apply Qltb_ge in E2. destruct (Z.even (Qfloor q)); [|rewrite Hup]; split; lra.
Qed.

Lemma roundHalfEven_integer (q : Q) (m : Z) : q == inject_Z m -> roundHalfEven q = m.
Proof.
  intro H. unfold roundHalfEven. cbv zeta.
  assert (Hf : Qfloor q = m) by (rewrite H; apply Qfloor_Z).
  rewrite Hf.
  assert (E : Qltb (q - inject_Z m) (1 # 2) = true) by (apply Qltb_lt; lra).
  rewrite E. reflexivity.
Qed.

Lemma roundHalfEven_nonneg (q : Q) : 0 <= q -> (0 <= roundHalfEven q)%Z.
Proof.
  intro H.
  assert (Hf : (0 <= Qfloor q)%Z).
  { change 0%Z with (Qfloor 0). apply Qfloor_resp_le. exact H. }
  unfold roundHalfEven. cbv zeta.
  destruct (Qltb _ _); [exact Hf|]. destruct (Qltb _ _); [lia|].
  destruct (Z.even _); lia.
Qed.

Lemma quantum_pos (a : Q) : 0 < pow2 (Z.max (ilog2 a) EMIN - 52).
Proof. apply pow2_pos. Qed.

Lemma roundMagnitude_error (a : Q) :
  Qabs (roundMagnitude a - a) <= (1 # 2) * pow2 (Z.max (ilog2 a) EMIN - 52).
Proof.
  unfold roundMagnitude. cbv zeta.
  set (qu := pow2 (Z.max (ilog2 a) EMIN - 52)).
  assert (Hq : 0 < qu) by apply pow2_pos.
  pose proof (roundHalfEven_error (a / qu)) as He.
  assert (E : inject_Z (roundHalfEven (a / qu)) * qu - a
              == (inject_Z (roundHalfEven (a / qu)) - a / qu) * qu) by (field; lra).
  rewrite E, Qabs_Qmult, (Qabs_pos qu) by lra.
  apply Qmult_le_compat_r; [exact He | lra].
Qed.

Lemma roundMagnitude_relative (a : Q) :
  pow2 EMIN <= a -> Qabs (roundMagnitude a - a) <= unitRoundoff * a.
Proof.
  intro Hn.
  assert (Ha : 0 < a) by (eapply Qlt_le_trans; [apply (pow2_pos EMIN) | exact Hn]).
  destruct (ilog2_spec a Ha) as [L1 L2].
  assert (He : (EMIN <= ilog2 a)%Z).
  { assert (Hlt : pow2 EMIN < pow2 (ilog2 a + 1)) by (eapply Qle_lt_trans; eassumption).
    apply pow2_lt_inv in Hlt. lia. }
  eapply Qle_trans; [apply roundMagnitude_error|].
  rewrite Z.max_l by exact He.
  assert (E : pow2 (ilog2 a - 52) == 2 * (unitRoundoff * pow2 (ilog2 a))).
  { unfold unitRoundoff. rewrite <- pow2_plus.
    change 2 with (pow2 1) at 1. rewrite <- pow2_plus.
    replace (1 + (-53 + ilog2 a))%Z with (ilog2 a - 52)%Z by lia. reflexivity. }
  rewrite E.
  assert (Hu : 0 < unitRoundoff) by apply pow2_pos.
  assert (Hm : unitRoundoff * pow2 (ilog2 a) <= unitRoundoff * a)
    by (apply Qmult_le_l; assumption).
  lra.
Qed.

Lemma roundMagnitude_onGrid (a : Q) :
  0 <= a -> exists m : Z, (0 <= m)%Z /\ roundMagnitude a == inject_Z m * pow2 (-1074).
Proof.
  intro Ha. unfold roundMagnitude. cbv zeta.
  set (e := Z.max (ilog2 a) EMIN).
  assert (He : (EMIN <= e)%Z) by apply Z.le_max_r.
  assert (Hq : 0 < pow2 (e - 52)) by apply pow2_pos.
  exists (roundHalfEven (a / pow2 (e - 52)) * 2 ^ (e + 1022))%Z. split.
  - apply Z.mul_nonneg_nonneg.
    + apply roundHalfEven_nonneg. apply Qle_shift_div_l; [exact Hq | lra].
    + apply Z.pow_nonneg. lia.
  - rewrite inject_Z_mult, <- pow2_Z by (unfold EMIN in He; lia).
    rewrite <- Qmult_assoc, <- pow2_plus.
    replace (e + 1022 + -1074)%Z with (e - 52)%Z by lia. reflexivity.
Qed.

Lemma roundMagnitude_subnormal (a : Q) (m : Z) :
  0 < a -> a < pow2 EMIN -> a == inject_Z m * pow2 (-1074) -> roundMagnitude a == a.
Proof.
  intros Ha Hs Hm. destruct (ilog2_spec a Ha) as [L1 _].
  assert (He : (ilog2 a < EMIN)%Z).
  { apply pow2_lt_inv. eapply Qle_lt_trans; eassumption. }
  unfold roundMagnitude. cbv zeta. rewrite Z.max_r by lia.
  change (EMIN - 52)%Z with (-1074)%Z.
  pose proof (pow2_pos (-1074)) as Hq.
  assert (Hi : a / pow2 (-1074) == inject_Z m) by (rewrite Hm; field; lra).
  rewrite (roundHalfEven_integer _ m Hi). symmetry. exact Hm.
Qed.

Lemma fl64_comp (a b : Q) : a == b -> fl64 a = fl64 b.
Proof.
  intro H. unfold fl64.
  assert (E0 : Qeq_bool a 0 = Qeq_bool b 0).
  { destruct (Qeq_bool a 0) eqn:Ea, (Qeq_bool b 0) eqn:Eb; try reflexivity.
    - apply Qeq_bool_iff in Ea. apply Qeq_bool_neq in Eb. exfalso. apply Eb. lra.
    - apply Qeq_bool_iff in Eb. apply Qeq_bool_neq in Ea. exfalso. apply Ea. lra. }
  assert (E1 : Qltb a 0 = Qltb b 0).
  { destruct (Qltb a 0) eqn:Ea, (Qltb b 0) eqn:Eb; try reflexivity.
    - apply Qltb_lt in Ea. apply Qltb_ge in Eb. lra.
    - apply Qltb_lt in Eb. apply Qltb_ge in Ea. lra. }
  assert (E2 : Qred (Qabs a) = Qred (Qabs b)) by (apply Qred_complete; rewrite H; reflexivity).
  rewrite E0, E1, E2. reflexivity.
Qed.

#[global] Instance fl64_proper : Proper (Qeq ==> Qeq) fl64.
Proof. intros a b H. rewrite (fl64_comp a b H). reflexivity. Qed.

Lemma fl64_0 : fl64 0 = 0.
Proof. reflexivity. Qed.

(** The shape of [fl64]: the magnitude is rounded, the sign is kept. *)
Lemma fl64_cases (q : Q) :
  (q == 0 /\ fl64 q = 0)
  \/ (0 < q /\ exists a, a == q /\ fl64 q = roundMagnitude a)
  \/ (q < 0 /\ exists a, a == - q /\ fl64 q = - roundMagnitude a).
Proof.
  unfold fl64. destruct (Qeq_bool q 0) eqn:E0.
  - left. apply Qeq_bool_iff in E0. split; [exact E0 | reflexivity].
  - apply Qeq_bool_neq in E0. right. cbv zeta.
    destruct (Qltb q 0) eqn:E1.
    + apply Qltb_lt in E1. right. split; [exact E1|].
      exists (Qred (Qabs q)). split; [|reflexivity].
      rewrite Qred_correct. apply Qabs_neg. lra.
    + apply Qltb_ge in E1. left. split; [lra|].
      exists (Qred (Qabs q)). split; [|reflexivity].
      rewrite Qred_correct. apply Qabs_pos. exact E1.
Qed.

Lemma fl64_onGrid (q : Q) : onGrid (fl64 q).
Proof.
  destruct (fl64_cases q) as [[_ E]|[[Hq [a [Ha E]]]|[Hq [a [Ha E]]]]]; rewrite E.
  - exists 0%Z. ring.
  - destruct (roundMagnitude_onGrid a) as [m [_ Hm]]; [lra|]. exists m. exact Hm.
  - destruct (roundMagnitude_onGrid a) as [m [_ Hm]]; [lra|]. exists (- m)%Z.
    rewrite Hm, inject_Z_opp. ring.
Qed.

Lemma fl64_nonneg (q : Q) : 0 <= q -> 0 <= fl64 q.
Proof.
  intro H.
  destruct (fl64_cases q) as [[_ E]|[[Hq [a [Ha E]]]|[Hq [a [Ha E]]]]]; rewrite E.
  - lra.
  - destruct (roundMagnitude_onGrid a) as [m [Hm0 Hm]]; [lra|]. rewrite Hm.
    apply Qmult_le_0_compat; [|apply Qlt_le_weak, pow2_pos].
    change 0 with (inject_Z 0). rewrite <- Zle_Qle. exact Hm0.
  - lra.
Qed.

Lemma fl64_nonpos (q : Q) : q <= 0 -> fl64 q <= 0.
Proof.
  intro H.
  destruct (fl64_cases q) as [[_ E]|[[Hq [a [Ha E]]]|[Hq [a [Ha E]]]]]; rewrite E.
  - lra.
  - lra.
  - destruct (roundMagnitude_onGrid a) as [m [Hm0 Hm]]; [lra|]. rewrite Hm.
    assert (0 <= inject_Z m * pow2 (-1074)).
    { apply Qmult_le_0_compat; [|apply Qlt_le_weak, pow2_pos].
      change 0 with (inject_Z 0). rewrite <- Zle_Qle. exact Hm0. }
    lra.
Qed.

(** The standard model of rounding, in the normal range: the relative error
    is at most the unit roundoff 2^-53. *)
Lemma fl64_relative (q : Q) :
  pow2 EMIN <= Qabs q -> Qabs (fl64 q - q) <= unitRoundoff * Qabs q.
Proof.
  intro Hn.
  destruct (fl64_cases q) as [[H0 E]|[[Hq [a [Ha E]]]|[Hq [a [Ha E]]]]]; rewrite E.
  - rewrite H0. vm_compute. discriminate.
  - rewrite (Qabs_pos q) in * by lra. rewrite <- Ha in *.
    apply roundMagnitude_relative. exact Hn.
  - rewrite (Qabs_neg q) in * by lra.
    assert (Eo : - roundMagnitude a - q == - (roundMagnitude a - a)) by lra.
    rewrite Eo, Qabs_opp, <- Ha. apply roundMagnitude_relative. rewrite Ha. exact Hn.
Qed.

(** Below the normal range the grid has the fixed spacing 2^-1074, and a
    number on the grid is not rounded. *)
Lemma fl64_subnormal (q : Q) : onGrid q -> Qabs q < pow2 EMIN -> fl64 q == q.
Proof.
  intros [m Hm] Hs.
  destruct (fl64_cases q) as [[H0 E]|[[Hq [a [Ha E]]]|[Hq [a [Ha E]]]]]; rewrite E.
  - symmetry. exact H0.
  - rewrite (Qabs_pos q) in Hs by lra. rewrite <- Ha in *.
    apply (roundMagnitude_subnormal a m); [exact Hq | exact Hs | exact Hm].
  - rewrite (Qabs_neg q) in Hs by lra. rewrite <- Ha in Hs.
    rewrite (roundMagnitude_subnormal a (- m)); [lra | lra | exact Hs |].
    rewrite Ha, Hm, inject_Z_opp. ring.
Qed.

Lemma onGrid_plus (a b : Q) : onGrid a -> onGrid b -> onGrid (a + b).
Proof.
  intros [m Hm] [n Hn]. exists (m + n)%Z. rewrite Hm, Hn, inject_Z_plus. ring.
Qed.

Lemma onGrid_opp (a : Q) : onGrid a -> onGrid (- a).
Proof. intros [m Hm]. exists (- m)%Z. rewrite Hm, inject_Z_opp. ring. Qed.

(** A sum or difference of two doubles is rounded with a relative error of
    at most the unit roundoff, whatever its size. *)
Lemma fl64_sum (a b : Q) :
  onGrid a -> onGrid b -> Qabs (fl64 (a + b) - (a + b)) <= unitRoundoff * Qabs (a + b).
Proof.
  intros Ha Hb. destruct (Qlt_le_dec (Qabs (a + b)) (pow2 EMIN)) as [Hs|Hn].
  - rewrite (fl64_subnormal (a + b) (onGrid_plus a b Ha Hb) Hs).
    assert (E : a + b - (a + b) == 0) by ring. rewrite E.
    apply Qmult_le_0_compat; [apply Qlt_le_weak, pow2_pos | apply Qabs_nonneg].
  - apply fl64_relative. exact Hn.
Qed.

Lemma unitRoundoff_range : 0 < unitRoundoff /\ unitRoundoff < 1.
Proof. split; [apply pow2_pos | vm_compute; reflexivity]. Qed.

Lemma onGrid_0 : onGrid 0.
Proof. exists 0%Z. ring. Qed.

Lemma onGrid_eq (a b : Q) : a == b -> onGrid a -> onGrid b.
Proof. intros E [m Hm]. exists m. rewrite <- E. exact Hm. Qed.

(** A sum of two doubles that is not negative, rounded: between (1 - u) and
    (1 + u) times the exact sum. *)
Lemma fl64_sum_bounds (a b : Q) :
  onGrid a -> onGrid b -> 0 <= a + b ->
  (1 - unitRoundoff) * (a + b) <= fl64 (a + b) <= (1 + unitRoundoff) * (a + b).
Proof.
  intros Ha Hb Hs. pose proof (fl64_sum a b Ha Hb) as He.
  rewrite (Qabs_pos (a + b)) in He by exact Hs.
  apply Qabs_Qle_condition in He. destruct He as [H1 H2]. split; lra.
Qed.

Lemma powN_pos (b : Q) (n : nat) : 0 < b -> 0 < powN b n.
Proof.
  intro Hb. induction n as [|n IH]; cbn [powN]; [reflexivity|].
  apply Qmult_lt_0_compat; assumption.
Qed.

Lemma powN_le_1 (b : Q) (n : nat) : 0 < b -> b <= 1 -> powN b n <= 1.
Proof.
  intros Hb Hb1. induction n as [|n IH]; cbn [powN]; [discriminate|].
  pose proof (powN_pos b n Hb). nra.
Qed.

Lemma powN_ge_1 (b : Q) (n : nat) : 1 <= b -> 1 <= powN b n.
Proof.
  intro Hb. induction n as [|n IH]; cbn [powN]; [discriminate | nra].
Qed.

Lemma powN_grows (b : Q) (k n : nat) : 1 <= b -> (k <= n)%nat -> powN b k <= powN b n.
Proof.
  intros Hb Hle. induction Hle as [|n Hle IH]; [apply Qle_refl|].
  cbn [powN]. pose proof (powN_ge_1 b n Hb). nra.
Qed.

Lemma powN_shrinks (b : Q) (k n : nat) :
  0 < b -> b <= 1 -> (k <= n)%nat -> powN b n <= powN b k.
Proof.
  intros Hb Hb1 Hle. induction Hle as [|n Hle IH]; [apply Qle_refl|].
  cbn [powN]. pose proof (powN_pos b n Hb). nra.
Qed.

(** ** Math utilities *)

Lemma inject_Z_nat_nonneg (n : nat) : 0 <= inject_Z (Z.of_nat n).
Proof.
  change 0 with (inject_Z 0). rewrite <- Zle_Qle. apply Nat2Z.is_nonneg.
Qed.

Lemma clamp_bounds (v lo hi : Q) : lo <= hi -> lo <= clamp v lo hi <= hi.
Proof.
  intro H. unfold clamp. split.
  - apply Q.le_max_l.
  - apply Q.max_lub; [exact H | apply Q.le_min_r].
Qed.


(** ** Player: damage and healing *)

Lemma onDeath_health (p : Player.t) : Player.health (Player.onDeath p) = Player.health p.
Proof. unfold Player.onDeath. destruct (Player.cls p); reflexivity. Qed.

Lemma onDeath_maxHealth (p : Player.t) :
  Player.maxHealth (Player.onDeath p) = Player.maxHealth p.
Proof. unfold Player.onDeath. destruct (Player.cls p); reflexivity. Qed.

Lemma takeDamage_maxHealth (a : Q) (r : string) (p : Player.t) :
  Player.maxHealth (Player.takeDamage a r p) = Player.maxHealth p.
Proof.
  unfold Player.takeDamage.
  destruct (negb (Player.isAlive p) || Qleb a 0); [reflexivity|].
  cbv zeta.
  case_if; [rewrite onDeath_maxHealth|]; reflexivity.
Qed.

Lemma takeDamage_health (a : Q) (r : string) (p : Player.t) :
  Player.isAlive p = true -> 0 < a ->
  Player.health (Player.takeDamage a r p)
  = clamp (Player.health p - Math_round (a * Player.regionMultiplier r)) 0
      (Player.maxHealth p).
Proof.
  intros Halive Hpos. unfold Player.takeDamage.
  rewrite Halive. apply Qleb_gt in Hpos. rewrite Hpos. cbn [negb orb]. cbv zeta.
  case_if; [rewrite onDeath_health|]; reflexivity.
Qed.

Lemma takeDamage_noop (a : Q) (r : string) (p : Player.t) :
  Player.isAlive p = false \/ a <= 0 -> Player.takeDamage a r p = p.
Proof.
  intros [H|H]; unfold Player.takeDamage.
  - rewrite H. reflexivity.
  - apply Qleb_le in H. rewrite H, orb_true_r. reflexivity.
Qed.

Lemma heal_maxHealth (a : Q) (p : Player.t) :
  Player.maxHealth (Player.heal a p) = Player.maxHealth p.
Proof.
  unfold Player.heal. destruct (negb (Player.isAlive p) || Qleb a 0); reflexivity.
Qed.

Lemma takeDamage_inRange (a : Q) (r : string) (p : Player.t) :
  healthInRange p -> healthInRange (Player.takeDamage a r p).
Proof.
  intros Hin. unfold healthInRange. rewrite takeDamage_maxHealth.
  destruct (Player.isAlive p) eqn:Ea.
  - destruct (Qlt_le_dec 0 a) as [Hpos|Hle].
    + rewrite (takeDamage_health a r p Ea Hpos).
      apply clamp_bounds. destruct Hin as [H1 H2]. eapply Qle_trans; eassumption.
    + rewrite takeDamage_noop by (right; exact Hle). exact Hin.
  - rewrite takeDamage_noop by (left; exact Ea). exact Hin.
Qed.

Lemma heal_inRange (a : Q) (p : Player.t) : healthInRange p -> healthInRange (Player.heal a p).
Proof.
  intros Hin. unfold healthInRange. rewrite heal_maxHealth.
  unfold Player.heal. destruct (negb (Player.isAlive p) || Qleb a 0); [exact Hin|].
  cbn. apply clamp_bounds. destruct Hin as [H1 H2]. eapply Qle_trans; eassumption.
Qed.

Lemma call_inRange (c : HealthCall) (p : Player.t) : healthInRange p -> healthInRange (call p c).
Proof. destruct c; cbn; [apply takeDamage_inRange | apply heal_inRange]. Qed.

Lemma calls_inRange (cs : list HealthCall) (p : Player.t) :
  healthInRange p -> healthInRange (calls cs p).
Proof.
  revert p. induction cs as [|c cs IH]; intros p Hin; cbn; [exact Hin|].
  apply IH, call_inRange, Hin.
Qed.

(** C4, as stated, fails for "any maxHealth": a player constructed with the
    negative maxHealth -5 starts with health -5, below 0, and one
    [takeDamage(1)] leaves its health at clamp(-6, 0, -5) = 0, above its
    maxHealth.  The interval [0, maxHealth] is empty and health is outside
    it before and after the call. *)
Lemma C4_counterexample :
  let p := Player.new "p1" "Player_p1" Vec.ZERO Vec.ZERO (-5) in
  let p' := call p (TakeDamage 1 "torso") in
  Player.health p == -5 /\ Player.maxHealth p == -5
  /\ Player.health p' == 0 /\ Player.maxHealth p' == -5
  /\ Player.maxHealth p' < Player.health p'.
Proof. vm_compute. repeat split. Qed.

(** C4, amended. For every player whose health lies in [0, maxHealth] to
    begin with, as it does for every player constructed with a maxHealth
    that is not negative, and every finite sequence of [takeDamage] and
    [heal] calls, whatever their amounts (zero and negative ones included,
    which change nothing), the health lies in [0, maxHealth] after every
    call of the sequence. *)
Theorem C4_health_stays_in_range (p : Player.t) (cs : list HealthCall) (n : nat) :
  0 <= Player.health p <= Player.maxHealth p ->
  0 <= Player.health (calls (firstn n cs) p) <= Player.maxHealth (calls (firstn n cs) p)
  /\ (forall a r, a <= 0 -> call p (TakeDamage a r) = p)
  /\ (forall a, a <= 0 -> call p (Heal a) = p)
  /\ (forall id name position velocity maxHealth, 0 <= maxHealth ->
      let fresh := Player.new id name position velocity maxHealth in
      0 <= Player.health (calls (firstn n cs) fresh)
        <= Player.maxHealth (calls (firstn n cs) fresh)).
Proof.
  intro Hin. split; [apply (calls_inRange (firstn n cs) p Hin)|]. split; [|split].
  - intros a r Ha. cbn. apply takeDamage_noop. right. exact Ha.
  - intros a Ha. cbn. unfold Player.heal. apply Qleb_le in Ha.
    rewrite Ha, orb_true_r. reflexivity.
  - intros id name position velocity maxHealth Hm. cbv zeta.
    apply (calls_inRange (firstn n cs)). unfold healthInRange. cbn. split; [exact Hm | lra].
Qed.

Lemma C4_witness :
  (0 <= Player.health fullHealthPlayer <= Player.maxHealth fullHealthPlayer)
  /\ (0 <= Player.health (calls (firstn 3 sampleCalls) fullHealthPlayer)
        <= Player.maxHealth (calls (firstn 3 sampleCalls) fullHealthPlayer)).
Proof.
  assert (H : 0 <= Player.health fullHealthPlayer <= Player.maxHealth fullHealthPlayer)
    by (vm_compute; split; discriminate).
  split; [exact H | exact (proj1 (C4_health_stays_in_range fullHealthPlayer sampleCalls 3 H))].
Defined.




(** C10. [heal(amount)] returns the player unchanged, in every field, when
    the player is dead or when [amount <= 0]; it changes the player only
    when the player is alive and [amount] is strictly positive. *)
Theorem C10_heal_frame (p : Player.t) (amount : Q) :
  (Player.isAlive p = false \/ amount <= 0 -> Player.heal amount p = p)
  /\ (Player.heal amount p <> p -> Player.isAlive p = true /\ 0 < amount).
Proof.
  assert (Hnoop : Player.isAlive p = false \/ amount <= 0 -> Player.heal amount p = p).
  { intros [H|H]; unfold Player.heal.
    - rewrite H. reflexivity.
    - apply Qleb_le in H. rewrite H, orb_true_r. reflexivity. }
  split; [exact Hnoop|].
  intro Hneq. destruct (Player.isAlive p) eqn:Ea.
  - split; [reflexivity|]. destruct (Qlt_le_dec 0 amount) as [Hlt|Hle]; [exact Hlt|].
    exfalso. apply Hneq, Hnoop. right. exact Hle.
  - exfalso. apply Hneq, Hnoop. left. reflexivity.
Qed.

Lemma C10_witness :
  (Player.isAlive (Player.set_isAlive fullHealthPlayer false) = false \/ 25 <= 0)
  /\ Player.heal 25 (Player.set_isAlive fullHealthPlayer false)
     = Player.set_isAlive fullHealthPlayer false.
Proof.
  assert (H : Player.isAlive (Player.set_isAlive fullHealthPlayer false) = false \/ 25 <= 0)
    by (left; reflexivity).
  split; [exact H|].
  exact (proj1 (C10_heal_frame (Player.set_isAlive fullHealthPlayer false) 25) H).
Defined.

(** ** Weapon: fire gate *)

Lemma new_magazineConsistent (damage fireRate range projectileSpeed : Q)
    (rounds : JsNum) (reloadTime fireInterval : Q) :
  magazineConsistent
    (Weapon.mk damage fireRate range projectileSpeed rounds rounds reloadTime
       fireInterval 0 false 0).
Proof. unfold magazineConsistent. cbn. intro H. exact H. Qed.

Lemma startReload_magazineConsistent (now : Q) (w : Weapon.t) :
  magazineConsistent w -> magazineConsistent (fst (Weapon.startReload now w)).
Proof.
  unfold magazineConsistent, Weapon.startReload. intro H.
  destruct (negb (Weapon.maxAmmo_finite w) || Weapon.isReloading w || Weapon.ammo_full w);
    cbn; exact H.
Qed.

Lemma finishReload_magazineConsistent (w : Weapon.t) :
  magazineConsistent w -> magazineConsistent (Weapon.finishReload w).
Proof.
  unfold magazineConsistent, Weapon.finishReload. intro H.
  destruct (negb (Weapon.isReloading w)); cbn; [exact H | intro Hm; exact Hm].
Qed.

Lemma fire_magazineConsistent (now : Q) (ownerId : string) (ownerPosition direction : Vector3)
    (w : Weapon.t) :
  magazineConsistent w ->
  magazineConsistent (fst (fst (Pistol.fire now ownerId ownerPosition direction w))).
Proof.
  intro H. unfold Pistol.fire.
  destruct (negb (Weapon.canFire now w)); [exact H|]. cbv zeta.
  unfold Weapon.maxAmmo_finite at 1. cbn [Weapon.maxAmmo Weapon.set_lastFireTime].
  destruct (Weapon.maxAmmo w) as [m|] eqn:Em.
  - destruct (Weapon.ammo_le_0 _).
    + pose proof (startReload_magazineConsistent now
                    (Weapon.set_ammo (Weapon.set_lastFireTime w now)
                       (Weapon.decr (Weapon.ammo (Weapon.set_lastFireTime w now))))) as Hs.
      destruct (Weapon.startReload now _) as [w2 timer]. cbn [fst] in *.
      apply Hs. unfold magazineConsistent. cbn. rewrite Em. discriminate.
    + cbn [fst]. unfold magazineConsistent. cbn. rewrite Em. discriminate.
  - cbn [fst]. unfold magazineConsistent in *. cbn. exact H.
Qed.

(** C6. For every weapon state and every time [now], [canFire()] returns
    false if the weapon is reloading, false if its ammo is finite (the test
    of the code: [maxAmmo] is not [Infinity]) and [<= 0], false if
    [now - lastFireTime < fireInterval], and true otherwise.  On the states
    the code maintains, where an unbounded magazine has an unbounded
    counter, the second test is the same when it is read on [ammo] alone. *)
Theorem C6_canFire (now : Q) (w : Weapon.t) :
  (Weapon.isReloading w = true -> Weapon.canFire now w = false)
  /\ (Weapon.maxAmmo w <> Infinity ->
      (exists q, Weapon.ammo w = Fin q /\ q <= 0) -> Weapon.canFire now w = false)
  /\ (now - Weapon.lastFireTime w < Weapon.fireInterval w -> Weapon.canFire now w = false)
  /\ (Weapon.isReloading w = false ->
      ~ (Weapon.maxAmmo w <> Infinity /\ exists q, Weapon.ammo w = Fin q /\ q <= 0) ->
      ~ now - Weapon.lastFireTime w < Weapon.fireInterval w ->
      Weapon.canFire now w = true)
  /\ (magazineConsistent w -> Weapon.canFire now w = canFire_stated now w).
Proof.
  unfold Weapon.canFire. split; [|split; [|split; [|split]]].
  - intros ->. reflexivity.
  - intros Hmax [q [Hq Hle]]. destruct (Weapon.isReloading w); [reflexivity|].
    unfold Weapon.ammo_le_0, Weapon.maxAmmo_finite. rewrite Hq.
    apply Qleb_le in Hle. rewrite Hle.
    destruct (Weapon.maxAmmo w); [reflexivity | congruence].
  - intros Hlt. apply Qltb_lt in Hlt. rewrite Hlt.
    destruct (Weapon.isReloading w); [reflexivity|].
    destruct (Weapon.ammo_le_0 w && Weapon.maxAmmo_finite w); reflexivity.
  - intros -> Hammo Hcool.
    destruct (Weapon.ammo_le_0 w && Weapon.maxAmmo_finite w) eqn:E.
    + exfalso. apply Hammo. apply andb_true_iff in E. destruct E as [E1 E2].
      unfold Weapon.ammo_le_0 in E1. unfold Weapon.maxAmmo_finite in E2. split.
      * destruct (Weapon.maxAmmo w); congruence.
      * destruct (Weapon.ammo w) as [q|]; [|discriminate].
        exists q. split; [reflexivity | apply Qleb_le; exact E1].
    + destruct (Qltb (now - Weapon.lastFireTime w) (Weapon.fireInterval w)) eqn:E2;
        [|reflexivity].
      exfalso. apply Hcool, Qltb_lt. exact E2.
  - intro Hinv. unfold canFire_stated, magazineConsistent in *.
    destruct (Weapon.isReloading w); [reflexivity|].
    unfold Weapon.ammo_le_0, Weapon.maxAmmo_finite.
    destruct (Weapon.maxAmmo w) as [m|].
    + rewrite andb_true_r. reflexivity.
    + rewrite (Hinv eq_refl). reflexivity.
Qed.

Lemma C6_witness :
  Weapon.isReloading stockPistol = false
  /\ ~ (Weapon.maxAmmo stockPistol <> Infinity
        /\ exists q, Weapon.ammo stockPistol = Fin q /\ q <= 0)
  /\ ~ 1000 - Weapon.lastFireTime stockPistol < Weapon.fireInterval stockPistol
  /\ Weapon.canFire 1000 stockPistol = true.
Proof.
  assert (H1 : Weapon.isReloading stockPistol = false) by reflexivity.
  assert (H2 : ~ (Weapon.maxAmmo stockPistol <> Infinity
                  /\ exists q, Weapon.ammo stockPistol = Fin q /\ q <= 0))
    by (intros [H _]; apply H; reflexivity).
  assert (H3 : ~ 1000 - Weapon.lastFireTime stockPistol < Weapon.fireInterval stockPistol)
    by (vm_compute; discriminate).
  split; [exact H1|]. split; [exact H2|]. split; [exact H3|].
  exact (proj1 (proj2 (proj2 (proj2 (C6_canFire 1000 stockPistol)))) H1 H2 H3).
Defined.

(** ** CollisionSystem: world bounds *)










(** ** CollisionSystem: segment against box *)

Lemma fold_Qmax_ge (l : list Q) (a : Q) : a <= fold_left Qmax l a.
Proof.
  revert a. induction l as [|e l IH]; intro a; cbn; [apply Qle_refl|].
  eapply Qle_trans; [apply (Q.le_max_l a e) | apply IH].
Qed.

Lemma fold_Qmin_le (l : list Q) (b : Q) : fold_left Qmin l b <= b.
Proof.
  revert b. induction l as [|e l IH]; intro b; cbn; [apply Qle_refl|].
  eapply Qle_trans; [apply IH | apply (Q.le_min_l b e)].
Qed.

(** The segment [o + t * d], [t] in [0, 1], against the box [box]. *)
Section SlabTest.

Variables (o d : Vector3) (box : AABB).

Lemma slabStep_parallel (a : Axis) (st : Q * Q) :
  nearZero d a = true ->
  CollisionSystem.slabStep o d box a st
  = if outsideSlab o box a then None else Some st.
Proof.
  intro H. unfold nearZero in H. unfold CollisionSystem.slabStep, outsideSlab.
  destruct st as [lo hi]. cbv zeta. rewrite H. reflexivity.
Qed.

Lemma slabStep_moving (a : Axis) (lo hi : Q) :
  nearZero d a = false ->
  CollisionSystem.slabStep o d box a (lo, hi)
  = if Qltb (Qmin hi (axisExit o d box a)) (Qmax lo (axisEntry o d box a)) then None
    else Some (Qmax lo (axisEntry o d box a), Qmin hi (axisExit o d box a)).
Proof.
  intro H. unfold nearZero in H. unfold CollisionSystem.slabStep. cbv zeta.
  rewrite H. cbv iota.
  unfold axisEntry, axisExit, planeMin, planeMax.
  destruct (Qltb (_ * _) (_ * _)) eqn:E; reflexivity.
Qed.

(** The loop with its early returns computes the intersection of the
    per-axis intervals with the running interval. *)
Lemma slabLoop_spec (axes : list Axis) (lo hi : Q) :
  lo <= hi ->
  CollisionSystem.slabLoop o d box axes (lo, hi)
  = if parallelOutside o d box axes then None
    else if Qltb (firstExit o d box axes hi) (lastEntry o d box axes lo) then None
    else Some (lastEntry o d box axes lo, firstExit o d box axes hi).
Proof.
  revert lo hi. induction axes as [|a axes IH]; intros lo hi Hle.
  - cbn. unfold lastEntry, firstExit. cbn.
    replace (Qltb hi lo) with false by (symmetry; apply Qltb_ge; exact Hle).
    reflexivity.
  - cbn [CollisionSystem.slabLoop]. unfold parallelOutside. cbn [existsb].
    fold (parallelOutside o d box axes).
    destruct (nearZero d a) eqn:En.
    + rewrite slabStep_parallel by exact En. cbn [andb].
      destruct (outsideSlab o box a); cbn [orb]; [reflexivity|].
      rewrite (IH lo hi Hle). unfold lastEntry, firstExit, movingAxes. cbn [filter].
      rewrite En. reflexivity.
    + rewrite slabStep_moving by exact En. cbn [andb orb].
      assert (Hentry : lastEntry o d box (a :: axes) lo
                       = lastEntry o d box axes (Qmax lo (axisEntry o d box a)))
        by (unfold lastEntry, movingAxes; cbn [filter]; rewrite En; reflexivity).
      assert (Hexit : firstExit o d box (a :: axes) hi
                      = firstExit o d box axes (Qmin hi (axisExit o d box a)))
        by (unfold firstExit, movingAxes; cbn [filter]; rewrite En; reflexivity).
      rewrite Hentry, Hexit.
      destruct (Qltb (Qmin hi (axisExit o d box a)) (Qmax lo (axisEntry o d box a))) eqn:Ec.
      * destruct (parallelOutside o d box axes); [reflexivity|].
        apply Qltb_lt in Ec.
        replace (Qltb _ _) with true; [reflexivity|].
        symmetry. apply Qltb_lt.
        eapply Qle_lt_trans; [apply fold_Qmin_le|].
        eapply Qlt_le_trans; [exact Ec | apply fold_Qmax_ge].
      * apply Qltb_ge in Ec. apply (IH _ _ Ec).
Qed.

Lemma lastEntry_ge (axes : list Axis) (from : Q) :
  from <= lastEntry o d box axes from.
Proof. apply fold_Qmax_ge. Qed.

Lemma firstExit_le (axes : list Axis) (upto : Q) :
  firstExit o d box axes upto <= upto.
Proof. apply fold_Qmin_le. Qed.

Lemma checkRayAABBIntersection_spec (maxDistance : Q) :
  CollisionSystem.checkRayAABBIntersection o d maxDistance box = rayAABB_spec o d box.
Proof.
  unfold CollisionSystem.checkRayAABBIntersection, rayAABB_spec. cbv zeta.
  destruct (Qltb (Vec.magnitudeSq d) (1 # 100000)); [reflexivity|].
  rewrite slabLoop_spec by discriminate.
  destruct (parallelOutside o d box _); [reflexivity|].
  destruct (Qltb (firstExit o d box _ 1) (lastEntry o d box _ 0)) eqn:E; [reflexivity|].
  apply Qltb_ge in E.
  pose proof (lastEntry_ge [AxisX; AxisY; AxisZ] 0) as H0.
  pose proof (firstExit_le [AxisX; AxisY; AxisZ] 1) as H1.
  assert (A : Qleb (lastEntry o d box [AxisX; AxisY; AxisZ] 0) 1 = true)
    by (apply Qleb_le; lra).
  assert (B : Qleb 0 (firstExit o d box [AxisX; AxisY; AxisZ] 1) = true)
    by (apply Qleb_le; lra).
  assert (C : Qleb 0 (lastEntry o d box [AxisX; AxisY; AxisZ] 0) = true)
    by (apply Qleb_le; lra).
  rewrite A, B, C. reflexivity.
Qed.

Lemma checkRayAABBIntersection_range (maxDistance t : Q) :
  CollisionSystem.checkRayAABBIntersection o d maxDistance box = Some t -> 0 <= t <= 1.
Proof.
  rewrite checkRayAABBIntersection_spec. unfold rayAABB_spec. cbv zeta.
  destruct (Qltb (Vec.magnitudeSq d) (1 # 100000)).
  - destruct (CollisionSystem.checkAABBOverlap _ _); [|discriminate].
    intro H. injection H as <-. split; discriminate.
  - destruct (parallelOutside o d box _); [discriminate|].
    destruct (Qltb _ _) eqn:E; [discriminate|].
    intro H. injection H as <-. apply Qltb_ge in E.
    pose proof (lastEntry_ge [AxisX; AxisY; AxisZ] 0) as H0.
    pose proof (firstExit_le [AxisX; AxisY; AxisZ] 1) as H1.
    split; lra.
Qed.

End SlabTest.




(** ** ClientPlayer: reconciliation *)

Lemma applyAuthoritative_fields (st : PlayerState) (p : Player.t) :
  let p' := ClientPlayer.applyAuthoritative st p in
  Player.health p' = fromSnapshot (ps_health st) (Player.health p)
  /\ Player.maxHealth p' = fromSnapshot (ps_maxHealth st) (Player.maxHealth p)
  /\ Player.score p' = fromSnapshot (ps_score st) (Player.score p)
  /\ Player.isAlive p' = fromSnapshot (ps_isAlive st) (Player.isAlive p)
  /\ Player.position p' = Player.position p
  /\ Player.velocity p' = Player.velocity p
  /\ Player.id p' = Player.id p.
Proof.
  cbv zeta. unfold ClientPlayer.applyAuthoritative. cbv zeta.
  destruct (ps_health st), (ps_maxHealth st), (ps_score st), (ps_isAlive st);
    repeat split.
Qed.

Lemma reconcilePosition_fields (st : PlayerState) (p : Player.t) :
  let p' := ClientPlayer.reconcilePosition st p in
  Player.health p' = Player.health p
  /\ Player.maxHealth p' = Player.maxHealth p
  /\ Player.score p' = Player.score p
  /\ Player.isAlive p' = Player.isAlive p.
Proof.
  cbv zeta. unfold ClientPlayer.reconcilePosition. destruct p.
  destruct (ps_position st);
    cbn -[Qltb Vec.distanceToSq64 ClientPlayer.RECONCILIATION_THRESHOLD_SQ];
    repeat case_if; repeat split.
Qed.

Lemma reconcilePosition_alive (st : PlayerState) (p : Player.t) (pos : Vector3) :
  ps_position st = Some pos -> Player.isAlive p = true ->
  let p' := ClientPlayer.reconcilePosition st p in
  let discrepancySq := Vec.distanceToSq64 (Player.position p) pos in
  (ClientPlayer.RECONCILIATION_THRESHOLD_SQ < discrepancySq ->
   Player.position p' = pos /\ Player.velocity p' = Vec.ZERO)
  /\ (discrepancySq <= ClientPlayer.RECONCILIATION_THRESHOLD_SQ ->
      p' = p).
Proof.
  intros Hpos Halive. cbv zeta. unfold ClientPlayer.reconcilePosition.
  rewrite Hpos, Halive. cbv zeta. destruct pos as [px py pz]. cbn [x y z].
  split; intro H.
  - apply Qltb_lt in H. rewrite H. split; reflexivity.
  - apply Qltb_ge in H. rewrite H. reflexivity.
Qed.

Lemma updateState_local (st : PlayerState) (ts : Q) (p : Player.t) (c : ClientFields) :
  ClientPlayer.updateState (Some (Player.id p)) st ts p c
  = ClientPlayer.reconcile st
      (Player.set_cls p
         (ClientSide
            match targetState c with
            | Some old => mkClientFields (Some old) (Some st) (targetStateTimestamp c) ts
            | None => mkClientFields (Some st) (Some st) (ts - SERVER_TICK_INTERVAL_MS) ts
            end)).
Proof.
  unfold ClientPlayer.updateState. cbv zeta. rewrite String.eqb_refl. reflexivity.
Qed.

(** C3, as stated, fails: a local player that is alive when the snapshot
    arrives, and that the snapshot reports dead, is moved to the server
    position and stopped although the squared distance (0.015625) is below
    the threshold (0.04000000000000001). *)
Lemma C3_counterexample :
  let st := snapshotAt (mkVector3 (1 # 8) 0 0) 0 false in
  let p' := ClientPlayer.updateState (Some "p1"%string) st 1000 localPlayer noClientState in
  Player.isAlive localPlayer = true
  /\ Vec.distanceToSq64 (Player.position localPlayer) (mkVector3 (1 # 8) 0 0)
     <= ClientPlayer.RECONCILIATION_THRESHOLD_SQ
  /\ Player.position p' = mkVector3 (1 # 8) 0 0
  /\ Player.velocity p' = Vec.ZERO
  /\ Player.position p' <> Player.position localPlayer
  /\ Player.velocity p' <> Player.velocity localPlayer.
Proof.
  cbv zeta. split; [reflexivity|]. split; [vm_compute; discriminate|].
  split; [reflexivity|]. split; [reflexivity|]. split; discriminate.
Qed.

(** C3, amended. When the client applies a snapshot to the locally
    controlled player, health, maxHealth, score and isAlive take the
    snapshot's values (a field the snapshot leaves undefined keeps its local
    value); and if the player is alive once isAlive has been applied and the
    snapshot carries a position, the local position becomes the server
    position and the velocity zero when the squared distance between the two
    is strictly greater than the threshold, while at a squared distance equal
    to or below the threshold position and velocity are kept.  Squared
    distance and threshold are the doubles the program computes: the
    threshold [0.2 * 0.2] is 0.04000000000000001, above 4/100. *)
Theorem C3_reconciliation (st : PlayerState) (ts : Q) (p : Player.t) (c : ClientFields) :
  let p' := ClientPlayer.updateState (Some (Player.id p)) st ts p c in
  Player.health p' = fromSnapshot (ps_health st) (Player.health p)
  /\ Player.maxHealth p' = fromSnapshot (ps_maxHealth st) (Player.maxHealth p)
  /\ Player.score p' = fromSnapshot (ps_score st) (Player.score p)
  /\ Player.isAlive p' = fromSnapshot (ps_isAlive st) (Player.isAlive p)
  /\ (Player.isAlive p' = true ->
      forall pos, ps_position st = Some pos ->
      let discrepancySq := Vec.distanceToSq64 (Player.position p) pos in
      (ClientPlayer.RECONCILIATION_THRESHOLD_SQ < discrepancySq ->
       Player.position p' = pos /\ Player.velocity p' = Vec.ZERO)
      /\ (discrepancySq <= ClientPlayer.RECONCILIATION_THRESHOLD_SQ ->
          Player.position p' = Player.position p
          /\ Player.velocity p' = Player.velocity p))
  /\ ClientPlayer.RECONCILIATION_THRESHOLD_SQ == 1441151880758559 # 36028797018963968
  /\ 4 # 100 < ClientPlayer.RECONCILIATION_THRESHOLD_SQ.
Proof.
  cbv zeta. rewrite updateState_local. unfold ClientPlayer.reconcile.
  set (p0 := Player.set_cls p _).
  pose proof (applyAuthoritative_fields st p0) as Ha. cbv zeta in Ha.
  destruct Ha as [Hh [Hm [Hs [Hl [Hp [Hv _]]]]]].
  pose proof (reconcilePosition_fields st (ClientPlayer.applyAuthoritative st p0)) as Hr.
  cbv zeta in Hr. destruct Hr as [Rh [Rm [Rs Rl]]].
  rewrite Rh, Rm, Rs, Rl, Hh, Hm, Hs, Hl.
  split; [reflexivity|]. split; [reflexivity|]. split; [reflexivity|].
  split; [reflexivity|]. split; [|split; vm_compute; reflexivity].
  intros Halive pos Hpos. cbv zeta.
  assert (Ha : Player.isAlive (ClientPlayer.applyAuthoritative st p0) = true)
    by (rewrite Hl; exact Halive).
  pose proof (reconcilePosition_alive st _ pos Hpos Ha) as [R1 R2].
  rewrite Hp in R1, R2. split.
  - exact R1.
  - intro Hd. rewrite (R2 Hd). split; [exact Hp | exact Hv].
Qed.

Lemma C3_witness :
  let serverPos := mkVector3 (fl64 (2 # 10)) 0 0 in
  let st := snapshotAt serverPos 80 true in
  let p' := ClientPlayer.updateState (Some (Player.id localPlayer)) st 1000 localPlayer
              noClientState in
  Player.isAlive p' = true
  /\ ps_position st = Some serverPos
  /\ Vec.distanceToSq64 (Player.position localPlayer) serverPos
     <= ClientPlayer.RECONCILIATION_THRESHOLD_SQ
  /\ Player.position p' = Player.position localPlayer
  /\ Player.velocity p' = Player.velocity localPlayer.
Proof.
  cbv zeta.
  assert (H1 : Player.isAlive
                 (ClientPlayer.updateState (Some (Player.id localPlayer))
                    (snapshotAt (mkVector3 (fl64 (2 # 10)) 0 0) 80 true) 1000 localPlayer
                    noClientState) = true).
  { rewrite (proj1 (proj2 (proj2 (proj2
               (C3_reconciliation (snapshotAt (mkVector3 (fl64 (2 # 10)) 0 0) 80 true)
                  1000 localPlayer noClientState))))). reflexivity. }
  assert (H2 : ps_position (snapshotAt (mkVector3 (fl64 (2 # 10)) 0 0) 80 true)
               = Some (mkVector3 (fl64 (2 # 10)) 0 0)) by reflexivity.
  assert (H3 : Vec.distanceToSq64 (Player.position localPlayer)
                 (mkVector3 (fl64 (2 # 10)) 0 0)
               <= ClientPlayer.RECONCILIATION_THRESHOLD_SQ)
    by (vm_compute; discriminate).
  split; [exact H1|]. split; [exact H2|]. split; [exact H3|].
  exact (proj2 (proj1 (proj2 (proj2 (proj2 (proj2
           (C3_reconciliation (snapshotAt (mkVector3 (fl64 (2 # 10)) 0 0) 80 true) 1000
              localPlayer noClientState)))))
           H1 (mkVector3 (fl64 (2 # 10)) 0 0) H2) H3).
Defined.

(** Two runs at the boundary.  A player at the origin and a server position
    0.2 away on x: the squared distance is the threshold itself and the
    prediction is kept.  A player at x = 2 and a server position at x = 2.2:
    the difference of the two doubles is 0.20000000000000018, its square is
    above the threshold, and the player is snapped. *)
Example reconciliation_at_the_boundary :
  let near := snapshotAt (mkVector3 (fl64 (2 # 10)) 0 0) 100 true in
  let far := snapshotAt (mkVector3 (fl64 (22 # 10)) 0 0) 100 true in
  let atTwo := Player.set_position localPlayer (mkVector3 2 0 0) in
  Vec.distanceToSq64 Vec.ZERO (mkVector3 (fl64 (2 # 10)) 0 0)
  == ClientPlayer.RECONCILIATION_THRESHOLD_SQ
  /\ Player.position
       (ClientPlayer.updateState (Some "p1"%string) near 1000 localPlayer noClientState)
     = Vec.ZERO
  /\ ClientPlayer.RECONCILIATION_THRESHOLD_SQ
     < Vec.distanceToSq64 (mkVector3 2 0 0) (mkVector3 (fl64 (22 # 10)) 0 0)
  /\ Player.position
       (ClientPlayer.updateState (Some "p1"%string) far 1000 atTwo noClientState)
     = mkVector3 (fl64 (22 # 10)) 0 0
  /\ Player.velocity
       (ClientPlayer.updateState (Some "p1"%string) far 1000 atTwo noClientState)
     = Vec.ZERO.
Proof.
  cbv zeta. split; [vm_compute; reflexivity|]. split; [vm_compute; reflexivity|].
  split; [vm_compute; reflexivity|]. split; vm_compute; reflexivity.
Qed.

(** ** Projectile: range *)

Lemma update_distance `{Math} (dt : Q) (p : Projectile.t) :
  Projectile.distanceTraveled (Projectile.update dt p)
  = fl64 (Projectile.distanceTraveled p
          + fl64 (Vec.magnitude (Projectile.velocity p) * dt)).
Proof.
  unfold Projectile.update. cbv zeta.
  destruct (Qleb _ _); reflexivity.
Qed.

Lemma update_range `{Math} (dt : Q) (p : Projectile.t) :
  Projectile.range (Projectile.update dt p) = Projectile.range p.
Proof.
  unfold Projectile.update. cbv zeta.
  destruct (Qleb _ _); reflexivity.
Qed.

Lemma update_mark `{Math} (dt : Q) (p : Projectile.t) :
  Projectile.markForRemoval (Projectile.update dt p) = true
  <-> Projectile.range p <= Projectile.distanceTraveled (Projectile.update dt p)
      \/ Projectile.markForRemoval p = true.
Proof.
  rewrite update_distance. unfold Projectile.update. cbv zeta.
  cbn [Projectile.range Projectile.distanceTraveled Projectile.set_distanceTraveled].
  destruct (Qleb _ _) eqn:E; cbn [Projectile.markForRemoval Projectile.set_markForRemoval
                                    Projectile.set_distanceTraveled].
  - apply Qleb_le in E. split; [intros _; left; exact E | reflexivity].
  - apply Qleb_gt in E. split; [intro Hm; right; exact Hm|].
    intros [Hle|Hm]; [|exact Hm]. exfalso. apply (Qlt_not_le _ _ E Hle).
Qed.

Lemma ticks_app `{Math} (dt : Q) (vs ws : list Vector3) (p : Projectile.t) :
  ticks dt (vs ++ ws) p = ticks dt ws (ticks dt vs p).
Proof.
  revert p. induction vs as [|v vs IH]; intro p; cbn; [reflexivity | apply IH].
Qed.

Lemma ticks_range `{Math} (dt : Q) (vs : list Vector3) (p : Projectile.t) :
  Projectile.range (ticks dt vs p) = Projectile.range p.
Proof.
  revert p. induction vs as [|v vs IH]; intro p; cbn [ticks]; [reflexivity|].
  rewrite IH, update_range. reflexivity.
Qed.

Lemma Forall_firstn {A : Type} (P : A -> Prop) (k : nat) (l : list A) :
  Forall P l -> Forall P (firstn k l).
Proof.
  intro H. revert k. induction H as [|a l Ha Hl IH]; intro k.
  - rewrite firstn_nil. constructor.
  - destruct k as [|k]; cbn [firstn]; constructor; [exact Ha | apply IH].
Qed.

Lemma inject_Z_length_snoc {A : Type} (l : list A) (a : A) :
  inject_Z (Z.of_nat (List.length (l ++ [a]))) == inject_Z (Z.of_nat (List.length l)) + 1.
Proof.
  rewrite length_app. cbn [List.length]. rewrite Nat2Z.inj_add, inject_Z_plus. reflexivity.
Qed.

Lemma inject_Z_of_nat_le (k n : nat) :
  (k <= n)%nat -> inject_Z (Z.of_nat k) <= inject_Z (Z.of_nat n).
Proof. intro H. rewrite <- Zle_Qle. lia. Qed.

(** Each call adds the rounded step to the distance and rounds the sum: after
    n calls the distance is n steps, up to a factor between (1 - u)^n and
    (1 + u)^n. *)
Lemma ticks_distance_bounds `{Math} (S dt : Q) (vs : list Vector3) (p : Projectile.t) :
  0 < S -> 0 < dt -> Projectile.distanceTraveled p == 0 ->
  Forall (fun v => Vec.magnitude v == S) vs ->
  let n := List.length vs in
  let d := Projectile.distanceTraveled (ticks dt vs p) in
  onGrid d
  /\ inject_Z (Z.of_nat n) * fl64 (S * dt) * powN (1 - unitRoundoff) n <= d
  /\ d <= inject_Z (Z.of_nat n) * fl64 (S * dt) * powN (1 + unitRoundoff) n.
Proof.
  intros HS Hdt Hd0. cbv zeta.
  assert (Hstep : 0 <= fl64 (S * dt)).
  { apply fl64_nonneg, Qlt_le_weak, Qmult_lt_0_compat; assumption. }
  destruct unitRoundoff_range as [Hu0 Hu1].
  induction vs as [|v vs IH] using rev_ind; intro Hall.
  - cbn [ticks List.length powN].
    split; [apply (onGrid_eq 0); [symmetry; exact Hd0 | apply onGrid_0]|].
    rewrite Hd0. change (inject_Z (Z.of_nat 0)) with 0. split; lra.
  - apply Forall_app in Hall. destruct Hall as [Hvs Hv].
    inversion Hv as [|? ? Hmag _]; subst.
    destruct (IH Hvs) as [IG [IL IU]].
    rewrite ticks_app. cbn [ticks]. rewrite update_distance.
    cbn [Projectile.distanceTraveled Projectile.velocity Projectile.set_velocity].
    rewrite (fl64_comp (Vec.magnitude v * dt) (S * dt)) by (rewrite Hmag; reflexivity).
    set (d := Projectile.distanceTraveled (ticks dt vs p)) in *.
    set (s := fl64 (S * dt)) in *.
    pose proof (inject_Z_nat_nonneg (List.length vs)) as Hn.
    rewrite (inject_Z_length_snoc vs v).
    replace (List.length (vs ++ [v])) with (Datatypes.S (List.length vs))
      by (rewrite length_app; cbn; lia).
    cbn [powN].
    set (N := inject_Z (Z.of_nat (List.length vs))) in *.
    pose proof (powN_pos (1 - unitRoundoff) (List.length vs)) as Hlo0.
    pose proof (powN_le_1 (1 - unitRoundoff) (List.length vs)) as Hlo1.
    pose proof (powN_ge_1 (1 + unitRoundoff) (List.length vs)) as Hhi1.
    set (lo := powN (1 - unitRoundoff) (List.length vs)) in *.
    set (hi := powN (1 + unitRoundoff) (List.length vs)) in *.
    assert (Hlo0' : 0 < lo) by (apply Hlo0; lra).
    assert (Hlo1' : lo <= 1) by (apply Hlo1; lra).
    assert (Hhi1' : 1 <= hi) by (apply Hhi1; lra).
    assert (Hd : 0 <= d).
    { eapply Qle_trans; [|exact IL]. apply Qmult_le_0_compat; [|lra].
      apply Qmult_le_0_compat; assumption. }
    assert (Hsum : 0 <= d + s) by lra.
    destruct (fl64_sum_bounds d s IG (fl64_onGrid (S * dt)) Hsum) as [BL BU].
    split; [apply fl64_onGrid|]. split.
    + eapply Qle_trans; [|exact BL].
      assert (E : (N + 1) * s * ((1 - unitRoundoff) * lo)
                  == (1 - unitRoundoff) * (N * s * lo + s * lo)) by ring.
      rewrite E. apply Qmult_le_l; [lra|].
      assert (Hsl : s * lo <= s) by nra. lra.
    + eapply Qle_trans; [exact BU|].
      assert (E : (N + 1) * s * ((1 + unitRoundoff) * hi)
                  == (1 + unitRoundoff) * (N * s * hi + s * hi)) by ring.
      rewrite E. apply Qmult_le_l; [lra|].
      assert (Hsl : s <= s * hi) by nra. lra.
Qed.

(** The flag is raised by the first call that leaves the distance at the
    range or beyond, and stays raised. *)
Lemma ticks_mark `{Math} (dt : Q) (vs : list Vector3) (p : Projectile.t) :
  Projectile.markForRemoval p = false ->
  Projectile.markForRemoval (ticks dt vs p) = true
  <-> exists k, (1 <= k <= List.length vs)%nat
        /\ Projectile.range p
           <= Projectile.distanceTraveled (ticks dt (firstn k vs) p).
Proof.
  intro Hm0. induction vs as [|v vs IH] using rev_ind.
  - cbn [ticks List.length]. rewrite Hm0. split; [discriminate|].
    intros [k [Hk _]]. lia.
  - rewrite ticks_app. cbn [ticks]. rewrite update_mark.
    cbn [Projectile.range Projectile.markForRemoval Projectile.set_velocity].
    rewrite ticks_range, IH, length_app. cbn [List.length]. split.
    + intros [Hle|[k [Hk Hle]]].
      * exists (List.length vs + 1)%nat. split; [lia|].
        replace (List.length vs + 1)%nat with (List.length (vs ++ [v]))
          by (rewrite length_app; reflexivity).
        rewrite firstn_all, ticks_app. exact Hle.
      * exists k. split; [lia|]. rewrite firstn_app.
        replace (k - List.length vs)%nat with 0%nat by lia.
        cbn [firstn]. rewrite app_nil_r. exact Hle.
    + intros [k [Hk Hle]]. destruct (Nat.eq_dec k (List.length vs + 1)) as [->|Hne].
      * left.
        replace (List.length vs + 1)%nat with (List.length (vs ++ [v])) in Hle
          by (rewrite length_app; reflexivity).
        rewrite firstn_all, ticks_app in Hle. exact Hle.
      * right. exists k. split; [lia|]. rewrite firstn_app in Hle.
        replace (k - List.length vs)%nat with 0%nat in Hle by lia.
        cbn [firstn] in Hle. rewrite app_nil_r in Hle. exact Hle.
Qed.

(** When no product and no sum is rounded, the distance after n calls is
    n * S * dt. *)
Lemma ticks_distance_exact `{Math} (S dt : Q) (vs : list Vector3) (p : Projectile.t) :
  Projectile.distanceTraveled p == 0 ->
  Forall (fun v => Vec.magnitude v == S) vs ->
  (forall k, (1 <= k <= List.length vs)%nat ->
     fl64 (inject_Z (Z.of_nat k) * (S * dt)) == inject_Z (Z.of_nat k) * (S * dt)) ->
  Projectile.distanceTraveled (ticks dt vs p)
  == inject_Z (Z.of_nat (List.length vs)) * (S * dt).
Proof.
  intro Hd0. induction vs as [|v vs IH] using rev_ind; intros Hall Hex.
  - cbn. rewrite Hd0. ring.
  - apply Forall_app in Hall. destruct Hall as [Hvs Hv].
    inversion Hv as [|? ? Hmag _]; subst.
    assert (Hlen : List.length (vs ++ [v]) = Datatypes.S (List.length vs))
      by (rewrite length_app; cbn; lia).
    assert (IH' : Projectile.distanceTraveled (ticks dt vs p)
                  == inject_Z (Z.of_nat (List.length vs)) * (S * dt)).
    { apply IH; [exact Hvs|]. intros k Hk. apply Hex. lia. }
    rewrite ticks_app. cbn [ticks]. rewrite update_distance.
    cbn [Projectile.distanceTraveled Projectile.velocity Projectile.set_velocity].
    assert (H1 : fl64 (Vec.magnitude v * dt) == S * dt).
    { rewrite (fl64_comp (Vec.magnitude v * dt) (inject_Z (Z.of_nat 1) * (S * dt))).
      - rewrite Hex by lia. cbn. ring.
      - rewrite Hmag. cbn. ring. }
    rewrite (fl64_comp _ (inject_Z (Z.of_nat (List.length (vs ++ [v]))) * (S * dt))).
    + apply Hex. lia.
    + rewrite H1, IH', inject_Z_length_snoc. ring.
Qed.

Lemma Qceiling_le_iff (q : Q) (n : Z) : q <= inject_Z n <-> (Qceiling q <= n)%Z.
Proof.
  split; intro H.
  - rewrite <- (Qceiling_Z n). apply Qceiling_resp_le. exact H.
  - eapply Qle_trans; [apply Qle_ceiling|]. rewrite <- Zle_Qle. exact H.
Qed.

Lemma range_reached_iff (R S dt : Q) (n : nat) :
  0 < S -> 0 < dt ->
  R <= inject_Z (Z.of_nat n) * (S * dt) <-> (ticksToRange R S dt <= n)%nat.
Proof.
  intros HS Hdt. unfold ticksToRange.
  assert (Hstep : 0 < S * dt) by (apply Qmult_lt_0_compat; assumption).
  assert (Hiff : R <= inject_Z (Z.of_nat n) * (S * dt)
                 <-> R / (S * dt) <= inject_Z (Z.of_nat n)).
  { split; intro Hle.
    - apply Qle_shift_div_r; assumption.
    - apply (Qmult_le_r _ _ (S * dt)) in Hle; [|exact Hstep].
      assert (E : R / (S * dt) * (S * dt) == R) by (field; lra).
      rewrite E in Hle. exact Hle. }
  rewrite Hiff, Qceiling_le_iff. lia.
Qed.

(** C7, as stated, fails.  A projectile of range 1 and speed 1 updated with
    the step 0.1: ceil(R / (S * dt)) is 10, but ten additions of 0.1 leave
    [distanceTraveled] at 0.9999999999999999, below the range, and
    [markForRemoval] unset; the flag is set by call 11.  Nor is the distance
    after three calls three times the step: it is 0.30000000000000004. *)
Lemma C7_counterexample :
  let dt := fl64 (1 # 10) in
  let bullet :=
    Projectile.new "p1" Vec.ZERO (mkVector3 1 0 0) 15 1 1 "pistol_bullet" "b1" in
  let after n := @ticks RationalMath dt (repeat (mkVector3 1 0 0) n) bullet in
  0 < Projectile.range bullet /\ 0 < dt
  /\ @Vec.magnitude RationalMath (mkVector3 1 0 0) == 1
  /\ ticksToRange (Projectile.range bullet) 1 dt = 10%nat
  /\ Projectile.distanceTraveled (after 10%nat) < Projectile.range bullet
  /\ Projectile.markForRemoval (after 10%nat) = false
  /\ Projectile.markForRemoval (after 11%nat) = true
  /\ 3 * (1 * dt) < Projectile.distanceTraveled (after 3%nat).
Proof. vm_compute. repeat split. Qed.

(** C7, amended.  A projectile of range R > 0, created with no distance
    travelled, whose velocity has magnitude S > 0 at every call of [update]
    with a fixed step dt > 0.  Every call replaces [distanceTraveled] by the
    double nearest to [distanceTraveled + s], where s is the double nearest
    to S * dt; so after n calls the distance lies between n * s * (1 - u)^n
    and n * s * (1 + u)^n, u = 2^-53 being the unit roundoff.
    [markForRemoval], unset before, is set by exactly the first call that
    leaves [distanceTraveled >= R]: after n calls it is set if and only if
    one of them did.  That call comes no later than any n with
    n * s * (1 - u)^n >= R and later than every n with
    n * s * (1 + u)^n < R; and when none of the products k * S * dt, k <= n,
    is rounded, the distance after n calls is n * S * dt and the flag is set
    if and only if n >= ceil(R / (S * dt)). *)
Theorem C7_range_termination `{Math} (p : Projectile.t) (S dt : Q) (vs : list Vector3) :
  0 < Projectile.range p -> 0 < S -> 0 < dt ->
  Projectile.distanceTraveled p == 0 -> Projectile.markForRemoval p = false ->
  Forall (fun v => Vec.magnitude v == S) vs ->
  let R := Projectile.range p in
  let n := List.length vs in
  let s := fl64 (S * dt) in
  let travelled k := Projectile.distanceTraveled (ticks dt (firstn k vs) p) in
  let p' := ticks dt vs p in
  (forall q v, Vec.magnitude v == S ->
     Projectile.distanceTraveled (Projectile.update dt (Projectile.set_velocity q v))
     = fl64 (Projectile.distanceTraveled q + s))
  /\ (pow2 EMIN <= S * dt ->
      (1 - unitRoundoff) * (S * dt) <= s <= (1 + unitRoundoff) * (S * dt))
  /\ inject_Z (Z.of_nat n) * s * powN (1 - unitRoundoff) n
     <= Projectile.distanceTraveled p'
     <= inject_Z (Z.of_nat n) * s * powN (1 + unitRoundoff) n
  /\ (Projectile.markForRemoval p' = true
      <-> exists k, (1 <= k <= n)%nat /\ R <= travelled k)
  /\ (R <= inject_Z (Z.of_nat n) * s * powN (1 - unitRoundoff) n ->
      Projectile.markForRemoval p' = true)
  /\ (inject_Z (Z.of_nat n) * s * powN (1 + unitRoundoff) n < R ->
      Projectile.markForRemoval p' = false)
  /\ ((forall k, (1 <= k <= n)%nat ->
         fl64 (inject_Z (Z.of_nat k) * (S * dt)) == inject_Z (Z.of_nat k) * (S * dt)) ->
      Projectile.distanceTraveled p' == inject_Z (Z.of_nat n) * (S * dt)
      /\ (Projectile.markForRemoval p' = true <-> (ticksToRange R S dt <= n)%nat))
  /\ (1 <= ticksToRange R S dt)%nat.
Proof.
  intros HR HS Hdt Hd0 Hm0 Hall. cbv zeta.
  destruct unitRoundoff_range as [Hu0 Hu1].
  assert (Hstep : 0 < S * dt) by (apply Qmult_lt_0_compat; assumption).
  assert (Hs : 0 <= fl64 (S * dt)) by (apply fl64_nonneg, Qlt_le_weak; exact Hstep).
  destruct (ticks_distance_bounds S dt vs p HS Hdt Hd0 Hall) as [_ [BL BU]].
  pose proof (ticks_mark dt vs p Hm0) as Hmark.
  split; [|split; [|split; [|split; [|split; [|split; [|split]]]]]].
  - intros q v Hmag. rewrite update_distance.
    cbn [Projectile.distanceTraveled Projectile.velocity Projectile.set_velocity].
    rewrite (fl64_comp (Vec.magnitude v * dt) (S * dt)) by (rewrite Hmag; reflexivity).
    reflexivity.
  - intro Hn. pose proof (fl64_relative (S * dt)) as He.
    rewrite (Qabs_pos (S * dt)) in He by lra.
    apply Qabs_Qle_condition in He; [|exact Hn]. destruct He as [H1 H2]. split; lra.
  - split; [exact BL | exact BU].
  - exact Hmark.
  - intro Hle. apply Hmark. exists (List.length vs). split.
    + destruct vs as [|v vs']; [|cbn; lia]. exfalso. cbn [List.length powN] in Hle.
      change (inject_Z (Z.of_nat 0)) with 0 in Hle. lra.
    + rewrite firstn_all. eapply Qle_trans; [exact Hle | exact BL].
  - intro Hlt. destruct (Projectile.markForRemoval (ticks dt vs p)) eqn:Em; [|reflexivity].
    exfalso. destruct (proj1 Hmark eq_refl) as [k [Hk Hle]].
    pose proof (Forall_firstn _ k vs Hall) as Hpre.
    destruct (ticks_distance_bounds S dt (firstn k vs) p HS Hdt Hd0 Hpre) as [_ [_ BUk]].
    cbv zeta in BUk. rewrite length_firstn, Nat.min_l in BUk by lia.
    pose proof (inject_Z_of_nat_le k (List.length vs) (proj2 Hk)) as Hkn.
    pose proof (inject_Z_nat_nonneg k) as Hk0.
    pose proof (powN_grows (1 + unitRoundoff) k (List.length vs)) as Hg.
    pose proof (powN_ge_1 (1 + unitRoundoff) k) as Hg1.
    assert (Hgrow : powN (1 + unitRoundoff) k <= powN (1 + unitRoundoff) (List.length vs))
      by (apply Hg; [lra | lia]).
    assert (Hge1 : 1 <= powN (1 + unitRoundoff) k) by (apply Hg1; lra).
    assert (Hmono : inject_Z (Z.of_nat k) * fl64 (S * dt) * powN (1 + unitRoundoff) k
                    <= inject_Z (Z.of_nat (List.length vs)) * fl64 (S * dt)
                       * powN (1 + unitRoundoff) (List.length vs)).
    { apply Qle_trans with (inject_Z (Z.of_nat (List.length vs)) * fl64 (S * dt)
                            * powN (1 + unitRoundoff) k).
      - apply Qmult_le_compat_r; [|lra]. apply Qmult_le_compat_r; assumption.
      - rewrite (Qmult_comm _ (powN (1 + unitRoundoff) k)),
          (Qmult_comm _ (powN (1 + unitRoundoff) (List.length vs))).
        apply Qmult_le_compat_r; [exact Hgrow|].
        apply Qmult_le_0_compat; [apply inject_Z_nat_nonneg | exact Hs]. }
    lra.
  - intro Hex.
    pose proof (ticks_distance_exact S dt vs p Hd0 Hall Hex) as Hd.
    split; [exact Hd|].
    rewrite Hmark. rewrite <- (range_reached_iff _ S dt _ HS Hdt). split.
    + intros [k [Hk Hle]].
      pose proof (Forall_firstn _ k vs Hall) as Hpre.
      pose proof (ticks_distance_exact S dt (firstn k vs) p Hd0 Hpre) as Hdk.
      rewrite length_firstn, Nat.min_l in Hdk by lia.
      rewrite Hdk in Hle by (intros j Hj; apply Hex; lia).
      eapply Qle_trans; [exact Hle|].
      apply Qmult_le_compat_r; [apply inject_Z_of_nat_le; lia | lra].
    + intro Hle. exists (List.length vs). split.
      * destruct vs as [|v vs']; [|cbn; lia]. exfalso. cbn [List.length] in Hle.
        change (inject_Z (Z.of_nat 0)) with 0 in Hle. lra.
      * rewrite firstn_all, Hd. exact Hle.
  - destruct (ticksToRange (Projectile.range p) S dt) as [|k] eqn:E; [|lia].
    exfalso. assert (Hz : (ticksToRange (Projectile.range p) S dt <= 0)%nat) by lia.
    apply (range_reached_iff _ S dt 0%nat HS Hdt) in Hz.
    change (inject_Z (Z.of_nat 0)) with 0 in Hz. lra.
Qed.

Lemma C7_witness :
  let dt := fl64 (1 # 10) in
  let bullet :=
    Projectile.new "p1" Vec.ZERO (mkVector3 1 0 0) 15 1 1 "pistol_bullet" "b1" in
  let vs := repeat (mkVector3 1 0 0) 11 in
  0 < Projectile.range bullet /\ 0 < 1 /\ 0 < dt
  /\ Projectile.distanceTraveled bullet == 0
  /\ Projectile.markForRemoval bullet = false
  /\ Forall (fun v => @Vec.magnitude RationalMath v == 1) vs
  /\ Projectile.range bullet
     <= inject_Z (Z.of_nat (List.length vs)) * fl64 (1 * dt)
        * powN (1 - unitRoundoff) (List.length vs)
  /\ Projectile.markForRemoval (@ticks RationalMath dt vs bullet) = true.
Proof.
  cbv zeta.
  set (bullet := Projectile.new "p1" Vec.ZERO (mkVector3 1 0 0) 15 1 1 "pistol_bullet" "b1").
  assert (H1 : 0 < Projectile.range bullet) by reflexivity.
  assert (H2 : 0 < 1) by reflexivity.
  assert (H3 : 0 < fl64 (1 # 10)) by (vm_compute; reflexivity).
  assert (H4 : Projectile.distanceTraveled bullet == 0) by reflexivity.
  assert (H5 : Projectile.markForRemoval bullet = false) by reflexivity.
  assert (H6 : Forall (fun v => @Vec.magnitude RationalMath v == 1)
                 (repeat (mkVector3 1 0 0) 11)).
  { apply Forall_forall. intros v Hin. apply repeat_spec in Hin. subst v. reflexivity. }
  assert (H7 : Projectile.range bullet
               <= inject_Z (Z.of_nat (List.length (repeat (mkVector3 1 0 0) 11)))
                  * fl64 (1 * fl64 (1 # 10))
                  * powN (1 - unitRoundoff) (List.length (repeat (mkVector3 1 0 0) 11)))
    by (vm_compute; discriminate).
  split; [exact H1|]. split; [exact H2|]. split; [exact H3|]. split; [exact H4|].
  split; [exact H5|]. split; [exact H6|]. split; [exact H7|].
  exact (proj1 (proj2 (proj2 (proj2 (proj2
           (@C7_range_termination RationalMath bullet 1 (fl64 (1 # 10))
              (repeat (mkVector3 1 0 0) 11) H1 H2 H3 H4 H5 H6))))) H7).
Defined.

(** The pistol bullet at the server tick.  With the step 1/30 as a double,
    S * dt rounds to 2 exactly and fifty sums are exact: the flag is set by
    call 50, not by call 49, while ceil(R / (S * dt)) is 51, the double
    being below 1/30. *)
Example pistolBullet_expires_at_tick_50 :
  let dt := fl64 (1 # 30) in
  fl64 (60 * dt) == 2
  /\ ticksToRange (Projectile.range pistolBullet) 60 dt = 51%nat
  /\ Projectile.markForRemoval
       (@ticks RationalMath dt (repeat (mkVector3 60 0 0) 49) pistolBullet) = false
  /\ Projectile.markForRemoval
       (@ticks RationalMath dt (repeat (mkVector3 60 0 0) 50) pistolBullet) = true.
Proof. vm_compute. repeat split. Qed.

(** ** ServerPlayer: input application *)









(** ** MovementSystem: projectile impact *)


Lemma hitboxLoop_struck (store : list Player.t) (ownerId : string) (o d : Vector3)
    (md : Q) (tgt : nat) (tp : Player.t) (boxes : list (string * AABB))
    (best : option PlayerHit) :
  nth_error store tgt = Some tp -> Player.isAlive tp = true ->
  String.eqb (Player.id tp) ownerId = false ->
  (forall kb, In kb boxes -> In kb (Player.getHitboxes tp)) ->
  (forall b, best = Some b -> struck store ownerId o d md b) ->
  forall h, CollisionSystem.hitboxLoop o d md tgt boxes best = Some h ->
            struck store ownerId o d md h.
Proof.
  intros Hnth Halive Hid. revert best.
  induction boxes as [|[key box] l IH]; intros best Hsub Hbest h;
    cbn [CollisionSystem.hitboxLoop].
  - apply Hbest.
  - apply IH; [intros kb Hkb; apply Hsub; right; exact Hkb|].
    intros b.
    destruct (CollisionSystem.checkRayAABBIntersection o d md box) as [th|] eqn:E;
      [|apply Hbest].
    destruct (CollisionSystem.closer _ _); [|apply Hbest].
    intro Eq. injection Eq as <-. exists tp, box. cbn [target hitboxKey ph_t].
    repeat split; try assumption. apply Hsub. left. reflexivity.
Qed.

Lemma targetLoop_struck (store : list Player.t) (ownerId : string) (o d : Vector3)
    (md : Q) (targets : list nat) (best : option PlayerHit) :
  (forall b, best = Some b -> struck store ownerId o d md b) ->
  forall h, CollisionSystem.targetLoop store ownerId o d md targets best = Some h ->
            struck store ownerId o d md h.
Proof.
  revert best. induction targets as [|tgt l IH]; intros best Hbest h;
    cbn [CollisionSystem.targetLoop].
  - apply Hbest.
  - apply IH. intros b.
    destruct (nth_error store tgt) as [tp|] eqn:En; [|apply Hbest].
    destruct (String.eqb (Player.id tp) ownerId) eqn:Ei; cbn [orb]; [apply Hbest|].
    destruct (Player.isAlive tp) eqn:Ea; cbn [negb]; [|apply Hbest].
    apply (hitboxLoop_struck store ownerId o d md tgt tp _ best En Ea Ei);
      [intros kb Hkb; exact Hkb | exact Hbest].
Qed.

Lemma applyGravity_projectile (dt : Q) (prj : Projectile.t) :
  MovementSystem.applyGravity dt (EProjectile prj) = EProjectile (afterGravity dt prj).
Proof.
  unfold MovementSystem.applyGravity, afterGravity. cbn [Entity.ignoreGravity].
  destruct (negb (Projectile.ignoreGravity prj)); reflexivity.
Qed.

Lemma afterGravity_frame (dt : Q) (prj : Projectile.t) :
  Projectile.position (afterGravity dt prj) = Projectile.position prj
  /\ Projectile.markForRemoval (afterGravity dt prj) = Projectile.markForRemoval prj
  /\ Projectile.damage (afterGravity dt prj) = Projectile.damage prj
  /\ Projectile.ownerId (afterGravity dt prj) = Projectile.ownerId prj
  /\ Projectile.id (afterGravity dt prj) = Projectile.id prj.
Proof.
  unfold afterGravity. destruct (negb (Projectile.ignoreGravity prj)); repeat split.
Qed.

Lemma settle_stopped (ms : MovementSystem.t) (q : Projectile.t) (pot fin : Vector3) :
  MovementSystem.settle ms (EProjectile q) pot fin true
  = EProjectile (Projectile.set_velocity (Projectile.set_position q fin) Vec.ZERO).
Proof.
  unfold MovementSystem.settle. cbn [negb]. cbv zeta.
  destruct (Qleb (y fin) _ && Qltb _ 0); destruct q; reflexivity.
Qed.














Example head_shot_by_projectile :
  let '(prj', store', events) :=
    @MovementSystem.updateProjectile RationalMath openField (1 # 30) [standingPlayer]
      [0%nat] headBullet in
  option_map Player.health (nth_error store' 0) = Some 55
  /\ Vec.eqv (Projectile.position prj') (mkVector3 (47 # 10) (18 # 10) 0)
  /\ Projectile.markForRemoval prj' = true.
Proof. vm_compute. repeat split. Qed.

Example wall_before_player :
  let '(prj', store', events) :=
    @MovementSystem.updateProjectile RationalMath scenarioSystem (1 # 30) [standingPlayer]
      [0%nat] headBullet in
  option_map Player.health (nth_error store' 0) = Some 100
  /\ Vec.eqv (Projectile.position prj') (mkVector3 4 (18 # 10) 0)
  /\ Projectile.markForRemoval prj' = true.
Proof. vm_compute. repeat split. Qed.

(** * Further properties *)

(** ** CollisionSystem: geometry of the segment test *)

Lemma fold_Qmax_In (l : list Q) (a e : Q) : In e l -> e <= fold_left Qmax l a.
Proof.
  revert a. induction l as [|h l IH]; intros a Hin; [contradiction|].
  cbn [fold_left]. destruct Hin as [<-|Hin].
  - eapply Qle_trans; [apply (Q.le_max_r a h) | apply fold_Qmax_ge].
  - apply IH. exact Hin.
Qed.

Lemma fold_Qmin_In (l : list Q) (b e : Q) : In e l -> fold_left Qmin l b <= e.
Proof.
  revert b. induction l as [|h l IH]; intros b Hin; [contradiction|].
  cbn [fold_left]. destruct Hin as [<-|Hin].
  - eapply Qle_trans; [apply fold_Qmin_le | apply (Q.le_min_r b h)].
  - apply IH. exact Hin.
Qed.



Lemma nearZero_false_nonzero (d : Vector3) (a : Axis) :
  nearZero d a = false -> ~ component a d == 0.
Proof.
  unfold nearZero. intros H E. apply Qltb_ge in H.
  rewrite E in H. vm_compute in H. apply H. reflexivity.
Qed.

Lemma planeMin_times (o d : Vector3) (box : AABB) (a : Axis) :
  ~ component a d == 0 ->
  planeMin o d box a * component a d == component a (aabb_min box) - component a o.
Proof. intro H. unfold planeMin. field. exact H. Qed.

Lemma planeMax_times (o d : Vector3) (box : AABB) (a : Axis) :
  ~ component a d == 0 ->
  planeMax o d box a * component a d == component a (aabb_max box) - component a o.
Proof. intro H. unfold planeMax. field. exact H. Qed.

(** On a moving axis of a box with ordered faces, the fractions between
    the entry and the exit are those whose point is between the faces. *)
Lemma axis_interval_sound (o d : Vector3) (box : AABB) (a : Axis) (t : Q) :
  nearZero d a = false ->
  component a (aabb_min box) <= component a (aabb_max box) ->
  axisEntry o d box a <= t <= axisExit o d box a ->
  inSlab box a (pointAt o d t a).
Proof.
  intros Hn Hwf [He Hx]. pose proof (nearZero_false_nonzero d a Hn) as Hd.
  pose proof (planeMin_times o d box a Hd) as Hm.
  pose proof (planeMax_times o d box a Hd) as HM.
  unfold axisEntry in He. unfold axisExit in Hx. unfold inSlab, pointAt.
  set (pm := planeMin o d box a) in *. set (pM := planeMax o d box a) in *.
  set (da := component a d) in *. set (oa := component a o) in *.
  set (lo := component a (aabb_min box)) in *.
  set (hi := component a (aabb_max box)) in *.
  clearbody pm pM da oa lo hi.
  assert (Hsign : da < 0 \/ 0 < da).
  { destruct (Qlt_le_dec da 0) as [L|L]; [left; exact L|].
    right. apply Qle_lteq in L. destruct L as [L|L]; [exact L|].
    exfalso. apply Hd. symmetry. exact L. }
  destruct (Qltb pM pm) eqn:E.
  - apply Qltb_lt in E. destruct Hsign as [S|S]; split; nra.
  - apply Qltb_ge in E. destruct Hsign as [S|S]; split; nra.
Qed.


Lemma outsideSlab_false (o : Vector3) (box : AABB) (a : Axis) :
  outsideSlab o box a = false <-> inSlab box a (component a o).
Proof.
  unfold outsideSlab, inSlab. rewrite orb_false_iff. split.
  - intros [A B]. apply Qltb_ge in A, B. split; assumption.
  - intros [A B]. split; apply Qltb_ge; assumption.
Qed.

Lemma parallelOutside_false (o d : Vector3) (box : AABB) (axes : list Axis) :
  parallelOutside o d box axes = false <->
  (forall a, In a axes -> nearZero d a = true -> inSlab box a (component a o)).
Proof.
  unfold parallelOutside. split.
  - intros H a Hin Hn. apply outsideSlab_false.
    destruct (outsideSlab o box a) eqn:E; [|reflexivity].
    assert (X : existsb (fun a => nearZero d a && outsideSlab o box a) axes = true)
      by (apply existsb_exists; exists a; split; [exact Hin | rewrite Hn, E; reflexivity]).
    rewrite X in H. discriminate.
  - intro H. destruct (existsb _ axes) eqn:E; [|reflexivity].
    apply existsb_exists in E. destruct E as [a [Hin Ha]].
    apply andb_true_iff in Ha. destruct Ha as [Hn Ho].
    apply (proj2 (outsideSlab_false o box a)) in H; [|exact Hin|exact Hn]; try congruence.
Qed.

Lemma all_axes (a : Axis) : In a [AxisX; AxisY; AxisZ].
Proof. destruct a; cbn; auto. Qed.

Lemma axisEntry_le_lastEntry (o d : Vector3) (box : AABB) (axes : list Axis) (from : Q)
    (a : Axis) :
  In a axes -> nearZero d a = false ->
  axisEntry o d box a <= lastEntry o d box axes from.
Proof.
  intros Hin Hn. unfold lastEntry. apply fold_Qmax_In. apply in_map.
  unfold movingAxes. apply filter_In. split; [exact Hin | rewrite Hn; reflexivity].
Qed.

Lemma firstExit_le_axisExit (o d : Vector3) (box : AABB) (axes : list Axis) (upto : Q)
    (a : Axis) :
  In a axes -> nearZero d a = false ->
  firstExit o d box axes upto <= axisExit o d box a.
Proof.
  intros Hin Hn. unfold firstExit. apply fold_Qmin_In. apply in_map.
  unfold movingAxes. apply filter_In. split; [exact Hin | rewrite Hn; reflexivity].
Qed.

Lemma checkAABBOverlap_true (A B : AABB) :
  CollisionSystem.checkAABBOverlap A B = true <->
  (forall a, component a (aabb_min A) < component a (aabb_max B)
             /\ component a (aabb_min B) < component a (aabb_max A)).
Proof.
  unfold CollisionSystem.checkAABBOverlap. cbv zeta.
  rewrite negb_true_iff. rewrite !orb_false_iff. split.
  - intros [[[[[H1 H2] H3] H4] H5] H6].
    apply Qleb_gt in H1, H2, H3, H4, H5, H6.
    intros []; cbn [component]; split; assumption.
  - intro H. pose proof (H AxisX) as [X1 X2]. pose proof (H AxisY) as [Y1 Y2].
    pose proof (H AxisZ) as [Z1 Z2]. cbn [component] in *.
    repeat split; apply Qleb_gt; assumption.
Qed.

(** X1. A reported hit is on the box.  For a box whose faces are ordered
    on every axis, the fraction that [checkRayAABBIntersection] returns
    gives a point of the segment that lies between the two faces on every
    axis along which the segment moves; on an axis whose direction
    component is near zero it is the origin that lies between them. *)
Theorem ray_hit_lies_on_box (o d : Vector3) (maxDistance : Q) (box : AABB) (t : Q) :
  wellFormed box ->
  CollisionSystem.checkRayAABBIntersection o d maxDistance box = Some t ->
  forall a, inSlab box a (slabCoordinate o d t a).
Proof.
  intros Hwf Hr a. rewrite checkRayAABBIntersection_spec in Hr.
  unfold rayAABB_spec in Hr. cbv zeta in Hr. unfold slabCoordinate.
  destruct (Qltb (Vec.magnitudeSq d) (1 # 100000)).
  - destruct (CollisionSystem.checkAABBOverlap _ _) eqn:Eo; [|discriminate].
    injection Hr as <-.
    pose proof (proj1 (checkAABBOverlap_true _ _) Eo a) as [A B].
    cbn [aabb_min aabb_max] in A, B.
    unfold inSlab, pointAt. destruct (nearZero d a); split; lra.
  - destruct (parallelOutside o d box _) eqn:Ep; [discriminate|].
    destruct (Qltb _ _) eqn:El; [discriminate|]. injection Hr as <-.
    apply Qltb_ge in El.
    destruct (nearZero d a) eqn:En.
    + apply (proj1 (parallelOutside_false o d box _) Ep a (all_axes a) En).
    + apply axis_interval_sound; [exact En | apply Hwf |].
      split; [apply axisEntry_le_lastEntry; [apply all_axes | exact En]|].
      eapply Qle_trans; [exact El|].
      apply firstExit_le_axisExit; [apply all_axes | exact En].
Qed.

Lemma ray_hit_lies_on_box_witness :
  wellFormed (CollisionSystem.obstacleAABB scenarioWall)
  /\ exists t,
       CollisionSystem.checkRayAABBIntersection (mkVector3 0 1 0) (mkVector3 10 0 0) 10
         (CollisionSystem.obstacleAABB scenarioWall) = Some t
       /\ forall a,
            inSlab (CollisionSystem.obstacleAABB scenarioWall) a
              (slabCoordinate (mkVector3 0 1 0) (mkVector3 10 0 0) t a).
Proof.
  assert (Hwf : wellFormed (CollisionSystem.obstacleAABB scenarioWall))
    by (intros []; vm_compute; discriminate).
  split; [exact Hwf|]. eexists. split; [reflexivity|].
  apply (ray_hit_lies_on_box (mkVector3 0 1 0) (mkVector3 10 0 0) 10
           (CollisionSystem.obstacleAABB scenarioWall) _ Hwf).
  reflexivity.
Defined.



(** X3. [checkAABBOverlap] holds exactly when the two boxes overlap
    strictly on all three axes; it is symmetric in its arguments; and two
    boxes that only touch along a face (the maximum of one equal to the
    minimum of the other on some axis) do not overlap. *)
Theorem checkAABBOverlap_strict_symmetric (A B : AABB) :
  (CollisionSystem.checkAABBOverlap A B = true <->
   forall a, component a (aabb_min A) < component a (aabb_max B)
             /\ component a (aabb_min B) < component a (aabb_max A))
  /\ CollisionSystem.checkAABBOverlap A B = CollisionSystem.checkAABBOverlap B A
  /\ forall a, component a (aabb_max A) == component a (aabb_min B) ->
               CollisionSystem.checkAABBOverlap A B = false.
Proof.
  split; [apply checkAABBOverlap_true|]. split.
  - destruct (CollisionSystem.checkAABBOverlap B A) eqn:E.
    + apply checkAABBOverlap_true. intro a.
      destruct (proj1 (checkAABBOverlap_true B A) E a). split; assumption.
    + destruct (CollisionSystem.checkAABBOverlap A B) eqn:E'; [|reflexivity].
      rewrite <- E. symmetry. apply checkAABBOverlap_true. intro a.
      destruct (proj1 (checkAABBOverlap_true A B) E' a). split; assumption.
  - intros a Ha. destruct (CollisionSystem.checkAABBOverlap A B) eqn:E; [|reflexivity].
    destruct (proj1 (checkAABBOverlap_true A B) E a) as [_ H]. lra.
Qed.

(** ** CollisionSystem: the two projectile raycasts *)

Lemma closer_None_true {X : Type} (th : Q) (best : option (X * Q)) :
  0 <= th -> CollisionSystem.closer (Some th) best = false ->
  exists b tb, best = Some (b, tb) /\ tb <= th.
Proof.
  intros H0 Hc. unfold CollisionSystem.closer in Hc.
  replace (Qleb 0 th) with true in Hc by (symmetry; apply Qleb_le; exact H0).
  cbn [andb] in Hc. destruct best as [[b tb]|]; [|discriminate].
  exists b, tb. split; [reflexivity | apply Qltb_ge; exact Hc].
Qed.

Lemma closer_true {X : Type} (th : Q) (best : option (X * Q)) :
  CollisionSystem.closer (Some th) best = true ->
  forall b tb, best = Some (b, tb) -> th < tb.
Proof.
  unfold CollisionSystem.closer. intros Hc b tb ->.
  apply andb_true_iff in Hc. destruct Hc as [_ Hc]. apply Qltb_lt. exact Hc.
Qed.

(** The obstacle loop keeps the nearest hit seen so far. *)
Lemma staticLoop_nearest (o d : Vector3) (md : Q) (obstacles : list Obstacle)
    (best : option (Obstacle * Q)) :
  match CollisionSystem.staticLoop o d md obstacles best with
  | Some (ob, t) =>
      (best = Some (ob, t)
       \/ (In ob obstacles
           /\ CollisionSystem.checkRayAABBIntersection o d md (CollisionSystem.obstacleAABB ob)
              = Some t))
      /\ (forall ob' t', In ob' obstacles ->
            CollisionSystem.checkRayAABBIntersection o d md (CollisionSystem.obstacleAABB ob')
            = Some t' -> t <= t')
      /\ (forall ob' t', best = Some (ob', t') -> t <= t')
  | None =>
      best = None
      /\ forall ob', In ob' obstacles ->
           CollisionSystem.checkRayAABBIntersection o d md (CollisionSystem.obstacleAABB ob')
           = None
  end.
Proof.
  revert best. induction obstacles as [|h l IH]; intro best;
    cbn [CollisionSystem.staticLoop].
  - destruct best as [[ob t]|].
    + split; [left; reflexivity|]. split; [intros ? ? []|].
      intros ob' t' E. injection E as <- <-. apply Qle_refl.
    + split; [reflexivity | intros ? []].
  - destruct (CollisionSystem.checkRayAABBIntersection o d md
                (CollisionSystem.obstacleAABB h)) as [th|] eqn:E.
    + pose proof (checkRayAABBIntersection_range o d _ md th E) as [Hth _].
      destruct (CollisionSystem.closer (Some th) best) eqn:Ec.
      * specialize (IH (Some (h, th))).
        destruct (CollisionSystem.staticLoop o d md l (Some (h, th))) as [[ob t]|].
        -- destruct IH as [Hsrc [Hmin Hbest]].
           pose proof (Hbest h th eq_refl) as Hle.
           split; [|split].
           ++ right. destruct Hsrc as [Eq|[Hin Hc]].
              ** injection Eq as <- <-. split; [left; reflexivity | exact E].
              ** split; [right; exact Hin | exact Hc].
           ++ intros ob' t' [<-|Hin] Hc.
              ** rewrite E in Hc. injection Hc as <-. exact Hle.
              ** apply (Hmin ob' t' Hin Hc).
           ++ intros ob' t' Eb. pose proof (closer_true th best Ec ob' t' Eb). lra.
        -- destruct IH as [Hn _]. discriminate.
      * destruct (closer_None_true th best Hth Ec) as [b [tb [Eb Hle]]].
        specialize (IH best).
        destruct (CollisionSystem.staticLoop o d md l best) as [[ob t]|].
        -- destruct IH as [Hsrc [Hmin Hbest]]. split; [|split].
           ++ destruct Hsrc as [Eq|[Hin Hc]]; [left; exact Eq|].
              right. split; [right; exact Hin | exact Hc].
           ++ intros ob' t' [<-|Hin] Hc.
              ** rewrite E in Hc. injection Hc as <-.
                 pose proof (Hbest b tb Eb). lra.
              ** apply (Hmin ob' t' Hin Hc).
           ++ exact Hbest.
        -- destruct IH as [Hn _]. rewrite Hn in Eb. discriminate.
    + specialize (IH best).
      destruct (CollisionSystem.staticLoop o d md l best) as [[ob t]|].
      * destruct IH as [Hsrc [Hmin Hbest]]. split; [|split].
        -- destruct Hsrc as [Eq|[Hin Hc]]; [left; exact Eq|].
           right. split; [right; exact Hin | exact Hc].
        -- intros ob' t' [<-|Hin] Hc; [rewrite E in Hc; discriminate|].
           apply (Hmin ob' t' Hin Hc).
        -- exact Hbest.
      * destruct IH as [Hn Hall]. split; [exact Hn|].
        intros ob' [<-|Hin]; [exact E | apply Hall; exact Hin].
Qed.

(** X4. The raycast against the static obstacles returns nothing for a
    move shorter than 0.0001; otherwise it returns an obstacle of the list
    together with the fraction at which the segment test strikes its box,
    that fraction being the smallest among all the obstacles the segment
    strikes; and it returns nothing exactly when the segment strikes no
    obstacle of the list. *)
Theorem static_raycast_reports_nearest `{Math} (prev delta : Vector3)
    (obstacles : list Obstacle) :
  let md := Vec.magnitude delta in
  let r := CollisionSystem.checkProjectileHitStaticObstacleRaycast prev delta obstacles in
  let strikes ob t :=
    CollisionSystem.checkRayAABBIntersection prev delta md (CollisionSystem.obstacleAABB ob)
    = Some t in
  (md < 1 # 10000 -> r = None)
  /\ (1 # 10000 <= md ->
      match r with
      | Some (ob, t) =>
          In ob obstacles /\ strikes ob t
          /\ forall ob' t', In ob' obstacles -> strikes ob' t' -> t <= t'
      | None =>
          forall ob' t', In ob' obstacles -> ~ strikes ob' t'
      end).
Proof.
  cbv zeta. unfold CollisionSystem.checkProjectileHitStaticObstacleRaycast. cbv zeta.
  split; intro Hmd.
  - apply Qltb_lt in Hmd. rewrite Hmd. reflexivity.
  - apply Qltb_ge in Hmd. rewrite Hmd.
    pose proof (staticLoop_nearest prev delta (Vec.magnitude delta) obstacles None) as L.
    destruct (CollisionSystem.staticLoop prev delta (Vec.magnitude delta) obstacles None)
      as [[ob t]|].
    + destruct L as [[Eq|[Hin Hc]] [Hmin _]]; [discriminate|].
      split; [exact Hin|]. split; [exact Hc | exact Hmin].
    + destruct L as [_ Hall]. intros ob' t' Hin Hc. rewrite (Hall ob' Hin) in Hc.
      discriminate.
Qed.

Lemma struck_target (store : list Player.t) (ownerId : string) (o d : Vector3) (md : Q)
    (h : PlayerHit) (tgt : nat) :
  struck store ownerId o d md h -> target h = tgt ->
  exists tp box,
    nth_error store tgt = Some tp /\ Player.isAlive tp = true
    /\ String.eqb (Player.id tp) ownerId = false
    /\ In (hitboxKey h, box) (Player.getHitboxes tp)
    /\ CollisionSystem.checkRayAABBIntersection o d md box = Some (ph_t h).
Proof. intros [tp [box Hs]] <-. exists tp, box. exact Hs. Qed.

(** The hitbox loop of one target keeps the nearest hit seen so far. *)
Lemma hitboxLoop_nearest (o d : Vector3) (md : Q) (tgt : nat)
    (boxes : list (string * AABB)) (best : option PlayerHit) :
  match CollisionSystem.hitboxLoop o d md tgt boxes best with
  | Some h =>
      (best = Some h
       \/ (target h = tgt
           /\ exists box, In (hitboxKey h, box) boxes
                /\ CollisionSystem.checkRayAABBIntersection o d md box = Some (ph_t h)))
      /\ (forall key box t', In (key, box) boxes ->
            CollisionSystem.checkRayAABBIntersection o d md box = Some t' -> ph_t h <= t')
      /\ (forall b, best = Some b -> ph_t h <= ph_t b)
  | None =>
      best = None
      /\ forall key box, In (key, box) boxes ->
           CollisionSystem.checkRayAABBIntersection o d md box = None
  end.
Proof.
  revert best. induction boxes as [|[k bx] l IH]; intro best;
    cbn [CollisionSystem.hitboxLoop].
  - destruct best as [b|].
    + split; [left; reflexivity|]. split; [intros ? ? ? []|].
      intros b' E. injection E as <-. apply Qle_refl.
    + split; [reflexivity | intros ? ? []].
  - destruct (CollisionSystem.checkRayAABBIntersection o d md bx) as [th|] eqn:E.
    + pose proof (checkRayAABBIntersection_range o d _ md th E) as [Hth _].
      destruct (CollisionSystem.closer (Some th) (option_map (fun h => (h, ph_t h)) best))
        eqn:Ec.
      * specialize (IH (Some (mkPlayerHit tgt k th))).
        destruct (CollisionSystem.hitboxLoop o d md tgt l _) as [h|].
        -- destruct IH as [Hsrc [Hmin Hbest]].
           pose proof (Hbest _ eq_refl) as Hle. cbn [ph_t] in Hle.
           split; [|split].
           ++ right. destruct Hsrc as [Eq|[Ht [box [Hin Hc]]]].
              ** injection Eq as <-. cbn [target hitboxKey ph_t].
                 split; [reflexivity|]. exists bx. split; [left; reflexivity | exact E].
              ** split; [exact Ht|]. exists box. split; [right; exact Hin | exact Hc].
           ++ intros key box t' [Eq|Hin] Hc.
              ** injection Eq as <- <-. rewrite E in Hc. injection Hc as <-. exact Hle.
              ** apply (Hmin key box t' Hin Hc).
           ++ intros b Eb. subst best. cbn [option_map] in Ec.
              pose proof (closer_true th _ Ec b (ph_t b) eq_refl). lra.
        -- destruct IH as [Hn _]. discriminate.
      * destruct (closer_None_true th _ Hth Ec) as [b [tb [Eb Hle]]].
        destruct best as [b0|]; [|discriminate]. cbn [option_map] in Eb.
        injection Eb as <- <-.
        specialize (IH (Some b0)).
        destruct (CollisionSystem.hitboxLoop o d md tgt l (Some b0)) as [h|].
        -- destruct IH as [Hsrc [Hmin Hbest]]. split; [|split].
           ++ destruct Hsrc as [Eq|[Ht [box [Hin Hc]]]]; [left; exact Eq|].
              right. split; [exact Ht|]. exists box. split; [right; exact Hin | exact Hc].
           ++ intros key box t' [Eq|Hin] Hc.
              ** injection Eq as <- <-. rewrite E in Hc. injection Hc as <-.
                 pose proof (Hbest b0 eq_refl). lra.
              ** apply (Hmin key box t' Hin Hc).
           ++ exact Hbest.
        -- destruct IH as [Hn _]. discriminate.
    + specialize (IH best).
      destruct (CollisionSystem.hitboxLoop o d md tgt l best) as [h|].
      * destruct IH as [Hsrc [Hmin Hbest]]. split; [|split].
        -- destruct Hsrc as [Eq|[Ht [box [Hin Hc]]]]; [left; exact Eq|].
           right. split; [exact Ht|]. exists box. split; [right; exact Hin | exact Hc].
        -- intros key box t' [Eq|Hin] Hc;
             [injection Eq as <- <-; rewrite E in Hc; discriminate|].
           apply (Hmin key box t' Hin Hc).
        -- exact Hbest.
      * destruct IH as [Hn Hall]. split; [exact Hn|].
        intros key box [Eq|Hin]; [injection Eq as <- <-; exact E|].
        apply (Hall key box Hin).
Qed.

(** The target loop keeps the nearest hit on an eligible target. *)
Lemma targetLoop_nearest (store : list Player.t) (ownerId : string) (o d : Vector3)
    (md : Q) (targets : list nat) (best : option PlayerHit) :
  match CollisionSystem.targetLoop store ownerId o d md targets best with
  | Some h =>
      (best = Some h \/ (In (target h) targets /\ struck store ownerId o d md h))
      /\ (forall h', In (target h') targets -> struck store ownerId o d md h' ->
            ph_t h <= ph_t h')
      /\ (forall b, best = Some b -> ph_t h <= ph_t b)
  | None =>
      best = None
      /\ forall h', In (target h') targets -> ~ struck store ownerId o d md h'
  end.
Proof.
  revert best. induction targets as [|tgt l IH]; intro best;
    cbn [CollisionSystem.targetLoop].
  - destruct best as [b|].
    + split; [left; reflexivity|]. split; [intros ? []|].
      intros b' E. injection E as <-. apply Qle_refl.
    + split; [reflexivity | intros ? []].
  - set (best' := match nth_error store tgt with
                  | Some tp =>
                      if String.eqb (Player.id tp) ownerId || negb (Player.isAlive tp)
                      then best
                      else CollisionSystem.hitboxLoop o d md tgt (Player.getHitboxes tp) best
                  | None => best
                  end).
    assert (Hstep :
      match best' with
      | Some h =>
          (best = Some h \/ (target h = tgt /\ struck store ownerId o d md h))
          /\ (forall h', target h' = tgt -> struck store ownerId o d md h' ->
                ph_t h <= ph_t h')
          /\ (forall b, best = Some b -> ph_t h <= ph_t b)
      | None =>
          best = None
          /\ forall h', target h' = tgt -> ~ struck store ownerId o d md h'
      end).
    { assert (Hskip : (forall h', target h' = tgt -> ~ struck store ownerId o d md h') ->
        match best with
        | Some h =>
            (best = Some h \/ (target h = tgt /\ struck store ownerId o d md h))
            /\ (forall h', target h' = tgt -> struck store ownerId o d md h' ->
                  ph_t h <= ph_t h')
            /\ (forall b, best = Some b -> ph_t h <= ph_t b)
        | None =>
            best = None
            /\ forall h', target h' = tgt -> ~ struck store ownerId o d md h'
        end).
      { intro Hno. destruct best as [b|].
        - split; [left; reflexivity|]. split.
          + intros h' Ht Hs. exfalso. apply (Hno h' Ht Hs).
          + intros b' E. injection E as <-. apply Qle_refl.
        - split; [reflexivity | exact Hno]. }
      subst best'. destruct (nth_error store tgt) as [tp|] eqn:En.
      - destruct (String.eqb (Player.id tp) ownerId) eqn:Ei; cbn [orb].
        + apply Hskip. intros h' Ht Hs.
          destruct (struck_target _ _ _ _ _ _ _ Hs Ht) as [tp' [box [A [_ [C _]]]]].
          rewrite En in A. injection A as <-. congruence.
        + destruct (Player.isAlive tp) eqn:Ea; cbn [negb].
          * pose proof (hitboxLoop_nearest o d md tgt (Player.getHitboxes tp) best) as L.
            destruct (CollisionSystem.hitboxLoop o d md tgt (Player.getHitboxes tp) best)
              as [h|].
            -- destruct L as [Hsrc [Hmin Hbest]]. split; [|split].
               ++ destruct Hsrc as [Eq|[Ht [box [Hin Hc]]]]; [left; exact Eq|].
                  right. split; [exact Ht|]. exists tp, box. rewrite Ht.
                  repeat split; assumption.
               ++ intros h' Ht Hs.
                  destruct (struck_target _ _ _ _ _ _ _ Hs Ht)
                    as [tp' [box [A [_ [_ [Hin Hc]]]]]].
                  rewrite En in A. injection A as <-.
                  apply (Hmin (hitboxKey h') box (ph_t h') Hin Hc).
               ++ exact Hbest.
            -- destruct L as [Hn Hall]. split; [exact Hn|].
               intros h' Ht Hs.
               destruct (struck_target _ _ _ _ _ _ _ Hs Ht)
                 as [tp' [box [A [_ [_ [Hin Hc]]]]]].
               rewrite En in A. injection A as <-.
               rewrite (Hall (hitboxKey h') box Hin) in Hc. discriminate.
          * apply Hskip. intros h' Ht Hs.
            destruct (struck_target _ _ _ _ _ _ _ Hs Ht) as [tp' [box [A [B _]]]].
            rewrite En in A. injection A as <-. congruence.
      - apply Hskip. intros h' Ht Hs.
        destruct (struck_target _ _ _ _ _ _ _ Hs Ht) as [tp' [box [A _]]].
        rewrite En in A. discriminate. }
    clearbody best'. specialize (IH best').
    destruct (CollisionSystem.targetLoop store ownerId o d md l best') as [h|].
    + destruct IH as [Hsrc [Hmin Hbest]].
      destruct best' as [b'|].
      * destruct Hstep as [Hsrc' [Hmin' Hbest']].
        pose proof (Hbest b' eq_refl) as Hle.
        split; [|split].
        -- destruct Hsrc as [Eq|[Hin Hs]].
           ++ injection Eq as <-. destruct Hsrc' as [Eq|[Ht Hs]]; [left; exact Eq|].
              right. split; [left; symmetry; exact Ht | exact Hs].
           ++ right. split; [right; exact Hin | exact Hs].
        -- intros h' [Ht|Hin] Hs.
           ++ pose proof (Hmin' h' (eq_sym Ht) Hs). lra.
           ++ apply (Hmin h' Hin Hs).
        -- intros b Eb. pose proof (Hbest' b Eb). lra.
      * destruct Hstep as [Hn Hno]. split; [|split].
        -- destruct Hsrc as [Eq|[Hin Hs]]; [discriminate|].
           right. split; [right; exact Hin | exact Hs].
        -- intros h' [Ht|Hin] Hs.
           ++ exfalso. apply (Hno h' (eq_sym Ht) Hs).
           ++ apply (Hmin h' Hin Hs).
        -- intros b Eb. rewrite Hn in Eb. discriminate.
    + destruct IH as [Hn Hall]. rewrite Hn in Hstep. destruct Hstep as [Hb Hno].
      split; [exact Hb|]. intros h' [Ht|Hin] Hs.
      * apply (Hno h' (eq_sym Ht) Hs).
      * apply (Hall h' Hin Hs).
Qed.

(** X5. The raycast against the players returns nothing for a projectile
    already marked for removal or a move shorter than 0.0001.  Otherwise a
    returned hit names a live target other than the projectile's owner
    and one of its hitboxes, struck at the reported fraction, and no
    hitbox of any live target other than the owner is struck at a smaller
    fraction; and nothing is returned exactly when no such hitbox is
    struck at all.  The owner and dead players are never hit. *)
Theorem player_raycast_reports_nearest `{Math} (store : list Player.t)
    (prj : Projectile.t) (prev delta : Vector3) (targets : list nat) :
  let md := Vec.magnitude delta in
  let r := CollisionSystem.checkProjectileHitRaycast store prj prev delta targets in
  let eligible := struck store (Projectile.ownerId prj) prev delta md in
  (Projectile.markForRemoval prj = true \/ md < 1 # 10000 -> r = None)
  /\ (Projectile.markForRemoval prj = false -> 1 # 10000 <= md ->
      match r with
      | Some h =>
          In (target h) targets /\ eligible h
          /\ forall h', In (target h') targets -> eligible h' -> ph_t h <= ph_t h'
      | None => forall h', In (target h') targets -> ~ eligible h'
      end).
Proof.
  cbv zeta. unfold CollisionSystem.checkProjectileHitRaycast. cbv zeta. split.
  - intros [Hm|Hmd]; [rewrite Hm; reflexivity|].
    apply Qltb_lt in Hmd. rewrite Hmd. destruct (Projectile.markForRemoval prj); reflexivity.
  - intros Hm Hmd. rewrite Hm. apply Qltb_ge in Hmd. rewrite Hmd.
    pose proof (targetLoop_nearest store (Projectile.ownerId prj) prev delta
                  (Vec.magnitude delta) targets None) as L.
    destruct (CollisionSystem.targetLoop store (Projectile.ownerId prj) prev delta
                (Vec.magnitude delta) targets None) as [h|].
    + destruct L as [[Eq|[Hin Hs]] [Hmin _]]; [discriminate|].
      split; [exact Hin|]. split; [exact Hs | exact Hmin].
    + destruct L as [_ Hall]. exact Hall.
Qed.

(** ** CollisionSystem: response to the map bounds and to obstacles *)

Lemma velocity_set_velocity (e : Entity) (v : Vector3) :
  Entity.velocity (Entity.set_velocity e v) = v.
Proof. destruct e; reflexivity. Qed.

Lemma set_velocity_velocity (e : Entity) : Entity.set_velocity e (Entity.velocity e) = e.
Proof. destruct e as [p|p]; destruct p; reflexivity. Qed.

Lemma resolveAxis_response (lo hi boundMin boundMax atMin atMax pos vel : Q) :
  let r := CollisionSystem.resolveAxis lo hi boundMin boundMax atMin atMax pos vel in
  (lo < boundMin -> fst r = atMin /\ snd r == Qmax vel 0)
  /\ (boundMin <= lo -> boundMax < hi -> fst r = atMax /\ snd r == Qmin vel 0)
  /\ (boundMin <= lo -> hi <= boundMax -> r = (pos, vel)).
Proof.
  cbv zeta. unfold CollisionSystem.resolveAxis. split; [|split].
  - intro H. apply Qltb_lt in H. rewrite H. cbn [fst snd]. split; [reflexivity|].
    destruct (Qltb vel 0) eqn:E.
    + apply Qltb_lt in E. rewrite Q.max_r; [reflexivity | lra].
    + apply Qltb_ge in E. rewrite Q.max_l; [reflexivity | lra].
  - intros H1 H2. apply Qltb_ge in H1. apply Qltb_lt in H2. rewrite H1, H2.
    cbn [fst snd]. split; [reflexivity|].
    destruct (Qltb 0 vel) eqn:E.
    + apply Qltb_lt in E. rewrite Q.min_r; [reflexivity | lra].
    + apply Qltb_ge in E. rewrite Q.min_l; [reflexivity | lra].
  - intros H1 H2. apply Qltb_ge in H1, H2. rewrite H1, H2. reflexivity.
Qed.

(** X6. The velocity response of [resolveWorldBoundsCollision], axis by
    axis.  Where the entity's box sticks out below the lower bound, the
    velocity component becomes max(v, 0): motion into the wall is
    cancelled, motion away from it is kept.  Where it sticks out above the
    upper bound only, the component becomes min(v, 0).  Where the box is
    within the bounds on the axis, the coordinate and the velocity
    component are left as they were. *)
Theorem resolveWorldBounds_velocity_response (entity : Entity) (pos : Vector3)
    (mapBounds : AABB) (a : Axis) :
  let box := CollisionSystem.potentialAABB entity pos in
  let r := CollisionSystem.resolveWorldBoundsCollision entity pos mapBounds in
  let v := component a (Entity.velocity entity) in
  let v' := component a (Entity.velocity (snd r)) in
  let lo := component a (aabb_min box) in
  let hi := component a (aabb_max box) in
  let boundMin := component a (aabb_min mapBounds) in
  let boundMax := component a (aabb_max mapBounds) in
  (lo < boundMin -> v' == Qmax v 0)
  /\ (boundMin <= lo -> boundMax < hi -> v' == Qmin v 0)
  /\ (boundMin <= lo -> hi <= boundMax ->
      v' = v /\ component a (fst r) = component a pos).
Proof.
  cbv zeta. unfold CollisionSystem.resolveWorldBoundsCollision. cbv zeta.
  cbn [fst snd]. rewrite velocity_set_velocity.
  destruct a; cbn [component x y z];
    match goal with
    | |- context [CollisionSystem.resolveAxis ?l ?h ?bm ?bM ?am ?aM ?p ?vl] =>
        pose proof (resolveAxis_response l h bm bM am aM p vl) as R
    end; cbv zeta in R; destruct R as [R1 [R2 R3]].
  all: split; [intro H1; exact (proj2 (R1 H1))|].
  all: split; [intros H1 H2; exact (proj2 (R2 H1 H2))|].
  all: intros H1 H2; rewrite (R3 H1 H2); split; reflexivity.
Qed.

Lemma pushStep_clear (obstacles : list Obstacle) (st : CollisionSystem.PushState) :
  (forall ob, In ob obstacles ->
     CollisionSystem.checkAABBOverlap (CollisionSystem.entityAABB st) (CollisionSystem.obstacleAABB ob)
     = false) ->
  fold_left (fun st obstacle => CollisionSystem.pushStep obstacle st) obstacles st = st.
Proof.
  induction obstacles as [|h l IH]; intro Hall; [reflexivity|].
  cbn [fold_left]. unfold CollisionSystem.pushStep at 2. cbv zeta.
  rewrite (Hall h (or_introl eq_refl)). apply IH.
  intros ob Hin. apply Hall. right. exact Hin.
Qed.

(** X7. An entity whose bounding box at the proposed position overlaps
    no obstacle is left alone by [resolveStaticObstacleCollision]: the
    position is returned as proposed and the entity, velocity included, is
    unchanged. *)
Theorem resolveStaticObstacle_clear (entity : Entity) (pos : Vector3)
    (obstacles : list Obstacle) :
  (forall ob, In ob obstacles ->
     CollisionSystem.checkAABBOverlap (Entity.getBoundingBox entity pos)
       (CollisionSystem.obstacleAABB ob) = false) ->
  CollisionSystem.resolveStaticObstacleCollision entity pos obstacles = (pos, entity).
Proof.
  intro Hall. unfold CollisionSystem.resolveStaticObstacleCollision.
  unfold CollisionSystem.MAX_RESOLUTION_ITERATIONS.
  cbn [CollisionSystem.resolveIterations]. cbv zeta.
  rewrite pushStep_clear by exact Hall.
  cbn [CollisionSystem.collisionOccurredThisIteration negb CollisionSystem.adjustedPosition
       CollisionSystem.push_velocity].
  rewrite set_velocity_velocity. reflexivity.
Qed.

Lemma resolveStaticObstacle_clear_witness :
  (forall ob, In ob [scenarioWall] ->
     CollisionSystem.checkAABBOverlap
       (Entity.getBoundingBox (EPlayer fullHealthPlayer) (mkVector3 0 0 0))
       (CollisionSystem.obstacleAABB ob) = false)
  /\ CollisionSystem.resolveStaticObstacleCollision (EPlayer fullHealthPlayer)
       (mkVector3 0 0 0) [scenarioWall]
     = (mkVector3 0 0 0, EPlayer fullHealthPlayer).
Proof.
  assert (H : forall ob, In ob [scenarioWall] ->
     CollisionSystem.checkAABBOverlap
       (Entity.getBoundingBox (EPlayer fullHealthPlayer) (mkVector3 0 0 0))
       (CollisionSystem.obstacleAABB ob) = false)
    by (intros ob [<-|[]]; reflexivity).
  split; [exact H|].
  exact (resolveStaticObstacle_clear (EPlayer fullHealthPlayer) (mkVector3 0 0 0)
           [scenarioWall] H).
Defined.

(** ** MovementSystem: frames and the ground *)

Lemma movedOnly_shape (e e' : Entity) (pos vel : Vector3) :
  e' = Entity.set_velocity (Entity.set_position e pos) vel -> movedOnly e e'.
Proof. intros ->. unfold movedOnly. destruct e as [q|q]; destruct q; reflexivity. Qed.

Lemma resolveWorldBounds_shape (e : Entity) (pos : Vector3) (mb : AABB) :
  exists v, snd (CollisionSystem.resolveWorldBoundsCollision e pos mb)
            = Entity.set_velocity e v.
Proof. unfold CollisionSystem.resolveWorldBoundsCollision. cbv zeta. eexists. reflexivity. Qed.

Lemma resolveStaticObstacle_shape (e : Entity) (pos : Vector3) (obs : list Obstacle) :
  exists v, snd (CollisionSystem.resolveStaticObstacleCollision e pos obs)
            = Entity.set_velocity e v.
Proof.
  unfold CollisionSystem.resolveStaticObstacleCollision.
  destruct (CollisionSystem.resolveIterations _ _ _ _ _) as [p v]. exists v. reflexivity.
Qed.

(** The end of the loop body changes position and velocity only. *)
Lemma settle_shape (ms : MovementSystem.t) (e : Entity) (pot fin : Vector3)
    (stopped : bool) :
  exists pos vel,
    MovementSystem.settle ms e pot fin stopped
    = Entity.set_velocity (Entity.set_position e pos) vel.
Proof.
  unfold MovementSystem.settle. destruct stopped; cbn [negb]; cbv zeta.
  - destruct (_ && _); destruct e as [q|q]; destruct q; cbn; eexists; eexists; reflexivity.
  - destruct (resolveWorldBounds_shape e pot (MovementSystem.mapBounds ms)) as [v1 H1].
    destruct (CollisionSystem.resolveWorldBoundsCollision e pot (MovementSystem.mapBounds ms))
      as [p1 e1]. cbn [snd] in H1. subst e1.
    destruct (resolveStaticObstacle_shape (Entity.set_velocity e v1) p1
                (MovementSystem.obstacles ms)) as [v2 H2].
    destruct (CollisionSystem.resolveStaticObstacleCollision _ p1 _) as [p2 e2].
    cbn [snd] in H2. subst e2.
    destruct (_ && _); destruct e as [q|q]; destruct q; cbn; eexists; eexists; reflexivity.
Qed.

Lemma settle_movedOnly (ms : MovementSystem.t) (e : Entity) (pot fin : Vector3)
    (stopped : bool) :
  movedOnly e (MovementSystem.settle ms e pot fin stopped).
Proof.
  destruct (settle_shape ms e pot fin stopped) as [pos [vel H]].
  apply (movedOnly_shape _ _ pos vel H).
Qed.

Lemma movedOnly_projectile (q : Projectile.t) (e' : Entity) :
  movedOnly (EProjectile q) e' ->
  exists q', e' = EProjectile q'
    /\ Projectile.id q' = Projectile.id q
    /\ Projectile.markForRemoval q' = Projectile.markForRemoval q
    /\ Projectile.ownerId q' = Projectile.ownerId q
    /\ Projectile.distanceTraveled q' = Projectile.distanceTraveled q.
Proof.
  unfold movedOnly. cbn [Entity.set_position Entity.set_velocity]. intro H.
  eexists. split; [exact H|]. repeat split.
Qed.

(** The loop body on a projectile that is already marked. *)
Lemma projectileBody_marked
    (logic : MovementSystem.t -> list Player.t -> Projectile.t -> Vector3 -> Vector3 ->
             Vector3 -> list nat -> MovementSystem.ProjectileOutcome)
    (ms : MovementSystem.t) (dt : Q) (store : list Player.t) (targets : list nat)
    (prj : Projectile.t) :
  Projectile.markForRemoval prj = true ->
  exists prj',
    MovementSystem.projectileBody logic ms dt store targets prj = (prj', store, [])
    /\ movedOnly (EProjectile prj) (EProjectile prj').
Proof.
  intro Hm. unfold MovementSystem.projectileBody. cbv zeta.
  rewrite applyGravity_projectile. cbn [Entity.position Entity.velocity].
  destruct (afterGravity_frame dt prj) as [Hp [Hmk _]]. rewrite Hmk, Hm. cbn [negb].
  cbn [MovementSystem.projectileStoppedByHit MovementSystem.projectileStoppedByGround orb
       MovementSystem.out_projectile MovementSystem.out_finalPosition
       MovementSystem.out_players MovementSystem.out_events].
  destruct (settle_shape ms (EProjectile (afterGravity dt prj))
              (Vec.add (Projectile.position (afterGravity dt prj))
                 (Vec.multiplyScalar (Projectile.velocity (afterGravity dt prj)) dt))
              (Vec.add (Projectile.position (afterGravity dt prj))
                 (Vec.multiplyScalar (Projectile.velocity (afterGravity dt prj)) dt))
              false) as [pos [vel Hs]].
  rewrite Hs. cbn [Entity.set_position Entity.set_velocity].
  eexists. split; [reflexivity|].
  apply (movedOnly_shape _ _ pos vel). unfold afterGravity.
  destruct (negb (Projectile.ignoreGravity prj)); destruct prj; reflexivity.
Qed.

(** X8. A projectile that is already marked for removal is inert in the
    movement step of either copy of the movement system: no raycast is
    made for it, so the player store is returned as it was and no impact
    event is emitted; the projectile itself changes in position and
    velocity only, and so stays marked. *)
Theorem marked_projectile_is_inert `{Math} (ms : MovementSystem.t) (dt : Q)
    (store : list Player.t) (targets : list nat) (prj : Projectile.t) :
  Projectile.markForRemoval prj = true ->
  (exists prj',
     MovementSystem.updateProjectile ms dt store targets prj = (prj', store, [])
     /\ movedOnly (EProjectile prj) (EProjectile prj')
     /\ Projectile.markForRemoval prj' = true)
  /\ (exists prj',
        MovementSystem0.updateProjectile ms dt store targets prj = (prj', store, [])
        /\ movedOnly (EProjectile prj) (EProjectile prj')
        /\ Projectile.markForRemoval prj' = true).
Proof.
  intro Hm. split.
  - destruct (projectileBody_marked MovementSystem.projectileLogic ms dt store targets prj Hm)
      as [prj' [E M]].
    exists prj'. split; [exact E|]. split; [exact M|].
    destruct (movedOnly_projectile prj _ M) as [q [Eq [_ [Hk _]]]].
    injection Eq as <-. rewrite Hk. exact Hm.
  - destruct (projectileBody_marked MovementSystem0.projectileLogic ms dt store targets prj Hm)
      as [prj' [E M]].
    exists prj'. split; [exact E|]. split; [exact M|].
    destruct (movedOnly_projectile prj _ M) as [q [Eq [_ [Hk _]]]].
    injection Eq as <-. rewrite Hk. exact Hm.
Qed.

Lemma marked_projectile_is_inert_witness :
  Projectile.markForRemoval (Projectile.set_markForRemoval headBullet true) = true
  /\ exists prj',
       @MovementSystem.updateProjectile RationalMath openField (1 # 30) [standingPlayer]
         [0%nat] (Projectile.set_markForRemoval headBullet true)
       = (prj', [standingPlayer], [])
       /\ Projectile.markForRemoval prj' = true.
Proof.
  split; [reflexivity|].
  destruct (proj1 (@marked_projectile_is_inert RationalMath openField (1 # 30)
                     [standingPlayer] [0%nat]
                     (Projectile.set_markForRemoval headBullet true) eq_refl))
    as [prj' [E [_ M]]].
  exists prj'. split; [exact E | exact M].
Defined.

(** X9. The ground plane stops a projectile (first copy of the movement
    system).  When an unmarked projectile hits neither an obstacle nor a
    player during the step, starts at or above the floor of the map and
    would end below it, it is placed where its path crosses the floor
    (a point of the segment, at floor height), stopped, and marked for
    removal; the player store is untouched and one impact event of
    surface "static" and obstacle type "ground" is emitted at that point. *)
Theorem projectile_stops_at_ground `{Math} (ms : MovementSystem.t) (dt : Q)
    (store : list Player.t) (targets : list nat) (prj : Projectile.t) :
  let GROUND_Y := y (aabb_min (MovementSystem.mapBounds ms)) in
  let potentialPosition := Vec.add (Projectile.position prj) (deltaPosition dt prj) in
  Projectile.markForRemoval prj = false ->
  MovementSystem.finalHitResult (hitStaticResult ms dt prj)
    (hitPlayerResult store dt prj targets) = None ->
  GROUND_Y <= y (Projectile.position prj) ->
  y potentialPosition < GROUND_Y ->
  exists prj' t,
    MovementSystem.updateProjectile ms dt store targets prj
    = (prj', store,
       [mkImpactEvent (Projectile.id prj) (Projectile.position prj') "static"
          (Some "ground"%string)])
    /\ 0 <= t <= 1
    /\ Projectile.position prj'
       = Vec.add (Projectile.position prj) (Vec.multiplyScalar (deltaPosition dt prj) t)
    /\ y (Projectile.position prj') == GROUND_Y
    /\ Projectile.velocity prj' = Vec.ZERO
    /\ Projectile.markForRemoval prj' = true.
Proof.
  cbv zeta. intros Hm Hnone Hprev Hpot.
  set (G := y (aabb_min (MovementSystem.mapBounds ms))) in *.
  set (t := (G - y (Projectile.position prj))
            / (y (Vec.add (Projectile.position prj) (deltaPosition dt prj))
               - y (Projectile.position prj))).
  assert (Hdy : y (deltaPosition dt prj) < 0)
    by (cbn [y Vec.add] in Hpot; lra).
  assert (Ht : t * y (deltaPosition dt prj) == G - y (Projectile.position prj)).
  { unfold t. cbn [y Vec.add]. field. lra. }
  assert (Ht01 : 0 <= t <= 1).
  { cbn [y Vec.add] in Hpot. split; nra. }
  exists (Projectile.set_velocity
            (Projectile.set_position
               (Projectile.set_velocity
                  (Projectile.set_markForRemoval (afterGravity dt prj) true) Vec.ZERO)
               (Vec.add (Projectile.position prj)
                  (Vec.multiplyScalar (deltaPosition dt prj) t))) Vec.ZERO), t.
  split; [|split; [exact Ht01|split; [reflexivity|split; [|split; reflexivity]]]].
  - unfold MovementSystem.updateProjectile, MovementSystem.projectileBody. cbv zeta.
    rewrite applyGravity_projectile. cbn [Entity.position Entity.velocity].
    destruct (afterGravity_frame dt prj) as [Hp [Hmk [_ [_ Hid]]]].
    rewrite Hp, Hmk, Hm. cbn [negb]. fold (deltaPosition dt prj).
    unfold MovementSystem.projectileLogic. cbv zeta.
    fold (hitStaticResult ms dt prj). fold (hitPlayerResult store dt prj targets).
    rewrite Hnone. unfold MovementSystem.groundCheck. cbv zeta. fold G. fold t.
    replace (Qleb G (y (Projectile.position prj))) with true
      by (symmetry; apply Qleb_le; exact Hprev).
    replace (Qltb (y (Vec.add (Projectile.position prj) (deltaPosition dt prj))) G)
      with true by (symmetry; apply Qltb_lt; exact Hpot).
    replace (Qleb 0 t) with true by (symmetry; apply Qleb_le; apply Ht01).
    replace (Qleb t 1) with true by (symmetry; apply Qleb_le; apply Ht01).
    cbn [andb MovementSystem.projectileStoppedByHit
         MovementSystem.projectileStoppedByGround orb MovementSystem.out_projectile
         MovementSystem.out_finalPosition MovementSystem.out_players
         MovementSystem.out_events].
    rewrite settle_stopped. cbn [Projectile.id Projectile.set_velocity
      Projectile.set_markForRemoval Projectile.set_position Projectile.position].
    rewrite Hid. reflexivity.
  - cbn [Projectile.position Projectile.set_velocity Projectile.set_position y Vec.add
         Vec.multiplyScalar].
    rewrite (Qmult_comm (y (deltaPosition dt prj)) t). rewrite Ht. ring.
Qed.

Lemma projectile_stops_at_ground_witness :
  Projectile.markForRemoval droppingBullet = false
  /\ @MovementSystem.finalHitResult
       (@hitStaticResult RationalMath openField (1 # 30) droppingBullet)
       (@hitPlayerResult RationalMath [] (1 # 30) droppingBullet []) = None
  /\ exists prj' t,
       @MovementSystem.updateProjectile RationalMath openField (1 # 30) [] [] droppingBullet
       = (prj', [],
          [mkImpactEvent "b3" (Projectile.position prj') "static" (Some "ground"%string)])
       /\ 0 <= t <= 1
       /\ y (Projectile.position prj') == 0
       /\ Projectile.markForRemoval prj' = true.
Proof.
  assert (H1 : Projectile.markForRemoval droppingBullet = false) by reflexivity.
  assert (H2 : @MovementSystem.finalHitResult
                 (@hitStaticResult RationalMath openField (1 # 30) droppingBullet)
                 (@hitPlayerResult RationalMath [] (1 # 30) droppingBullet []) = None)
    by reflexivity.
  split; [exact H1|]. split; [exact H2|].
  destruct (@projectile_stops_at_ground RationalMath openField (1 # 30) [] []
              droppingBullet H1 H2)
    as [prj' [t [E [Ht [_ [Hy [_ Hk]]]]]]].
  - vm_compute. discriminate.
  - vm_compute. reflexivity.
  - exists prj', t. split; [exact E|]. split; [exact Ht|]. split; [exact Hy | exact Hk].
Defined.





Lemma applyGravity_movedOnly (dt : Q) (e : Entity) :
  movedOnly e (MovementSystem.applyGravity dt e).
Proof.
  unfold MovementSystem.applyGravity. destruct (negb (Entity.ignoreGravity e)).
  - apply (movedOnly_shape _ _ (Entity.position e)
             (Vec.set_y (Entity.velocity e) (y (Entity.velocity e) - GRAVITY * dt))).
    destruct e as [q|q]; destruct q; reflexivity.
  - apply (movedOnly_shape _ _ (Entity.position e) (Entity.velocity e)).
    destruct e as [q|q]; destruct q; reflexivity.
Qed.

Lemma movedOnly_trans (e1 e2 e3 : Entity) :
  movedOnly e1 e2 -> movedOnly e2 e3 -> movedOnly e1 e3.
Proof.
  unfold movedOnly. intros H12 H23. rewrite H23 at 1. rewrite H12.
  destruct e1 as [q|q]; destruct q; reflexivity.
Qed.




(** ** MovementSystem: the step never adds, removes or renames entities *)

Lemma takeDamage_id (a : Q) (k : string) (p : Player.t) :
  Player.id (Player.takeDamage a k p) = Player.id p.
Proof.
  unfold Player.takeDamage. destruct (negb (Player.isAlive p) || Qleb a 0); [reflexivity|].
  cbv zeta. destruct (_ && _); [|reflexivity].
  unfold Player.onDeath. cbn [Player.cls Player.set_isAlive Player.set_health].
  destruct (Player.cls p); reflexivity.
Qed.

Lemma map_list_set {X Y : Type} (f : X -> Y) (l : list X) (i : nat) (v a : X) :
  nth_error l i = Some a -> f v = f a -> map f (list_set l i v) = map f l.
Proof.
  revert i. induction l as [|h l IH]; intros [|i] Hn Hf; cbn in *; try discriminate.
  - injection Hn as ->. rewrite Hf. reflexivity.
  - rewrite (IH i Hn Hf). reflexivity.
Qed.

Lemma impact_keeps (store : list Player.t) (prj : Projectile.t) (prev delta : Vector3)
    (hit : Hit) :
  let out := MovementSystem.impact store prj prev delta hit in
  Projectile.id (MovementSystem.out_projectile out) = Projectile.id prj
  /\ map Player.id (MovementSystem.out_players out) = map Player.id store.
Proof.
  cbv zeta. unfold MovementSystem.impact. cbv zeta.
  cbn [MovementSystem.out_projectile MovementSystem.out_players]. split; [reflexivity|].
  destruct hit as [o t|h]; [reflexivity|].
  destruct (nth_error store (target h)) as [tp|] eqn:E; [|reflexivity].
  apply (map_list_set Player.id store (target h) _ tp E). apply takeDamage_id.
Qed.

Lemma groundCheck_keeps (G : Q) (store : list Player.t) (prj : Projectile.t)
    (prev delta pot : Vector3) :
  let out := MovementSystem.groundCheck G store prj prev delta pot in
  Projectile.id (MovementSystem.out_projectile out) = Projectile.id prj
  /\ map Player.id (MovementSystem.out_players out) = map Player.id store.
Proof.
  cbv zeta. unfold MovementSystem.groundCheck. cbv zeta.
  destruct (_ && _); [destruct (_ && _)|]; split; reflexivity.
Qed.

Lemma projectileLogic_keeps `{Math} : keepsIdentities MovementSystem.projectileLogic.
Proof.
  intros ms store prj prev delta pot targets. unfold MovementSystem.projectileLogic.
  cbv zeta. destruct (MovementSystem.finalHitResult _ _) as [hit|].
  - destruct (_ && _); [apply impact_keeps | apply groundCheck_keeps].
  - apply groundCheck_keeps.
Qed.

Lemma projectileLogic0_keeps `{Math} : keepsIdentities MovementSystem0.projectileLogic.
Proof.
  intros ms store prj prev delta pot targets. unfold MovementSystem0.projectileLogic.
  cbv zeta. destruct (MovementSystem.finalHitResult _ _) as [hit|].
  - apply impact_keeps.
  - split; reflexivity.
Qed.

Lemma projectileBody_keeps
    (logic : MovementSystem.t -> list Player.t -> Projectile.t -> Vector3 -> Vector3 ->
             Vector3 -> list nat -> MovementSystem.ProjectileOutcome)
    (ms : MovementSystem.t) (dt : Q) (store : list Player.t) (targets : list nat)
    (prj : Projectile.t) :
  keepsIdentities logic ->
  let r := MovementSystem.projectileBody logic ms dt store targets prj in
  Projectile.id (fst (fst r)) = Projectile.id prj
  /\ map Player.id (snd (fst r)) = map Player.id store.
Proof.
  intro Hk. cbv zeta. unfold MovementSystem.projectileBody. cbv zeta.
  rewrite applyGravity_projectile. cbn [Entity.position Entity.velocity].
  destruct (afterGravity_frame dt prj) as [_ [_ [_ [_ Hid]]]].
  set (out := if negb (Projectile.markForRemoval (afterGravity dt prj)) then _ else _).
  assert (Hout : Projectile.id (MovementSystem.out_projectile out) = Projectile.id prj
                 /\ map Player.id (MovementSystem.out_players out) = map Player.id store).
  { subst out. destruct (negb _).
    - rewrite <- Hid. apply Hk.
    - split; [exact Hid | reflexivity]. }
  clearbody out. destruct Hout as [Ho1 Ho2].
  pose proof (settle_movedOnly ms (EProjectile (MovementSystem.out_projectile out))
                (Vec.add (Projectile.position (afterGravity dt prj))
                   (Vec.multiplyScalar (Projectile.velocity (afterGravity dt prj)) dt))
                (MovementSystem.out_finalPosition out)
                (MovementSystem.projectileStoppedByHit out
                 || MovementSystem.projectileStoppedByGround out)) as Hs.
  destruct (movedOnly_projectile _ _ Hs) as [q [Eq [Hq _]]].
  rewrite Eq. cbn [fst snd]. split; [rewrite Hq; exact Ho1 | exact Ho2].
Qed.

Lemma updatePlayer_id (ms : MovementSystem.t) (dt : Q) (p : Player.t) :
  Player.id (MovementSystem.updatePlayer ms dt p) = Player.id p.
Proof.
  unfold MovementSystem.updatePlayer. cbv zeta.
  pose proof (movedOnly_trans _ _ _ (applyGravity_movedOnly dt (EPlayer p))
                (settle_movedOnly ms (MovementSystem.applyGravity dt (EPlayer p))
                   (Vec.add (Entity.position (MovementSystem.applyGravity dt (EPlayer p)))
                      (Vec.multiplyScalar
                         (Entity.velocity (MovementSystem.applyGravity dt (EPlayer p))) dt))
                   (Vec.add (Entity.position (MovementSystem.applyGravity dt (EPlayer p)))
                      (Vec.multiplyScalar
                         (Entity.velocity (MovementSystem.applyGravity dt (EPlayer p))) dt))
                   false)) as Hm.
  destruct (MovementSystem.settle _ _ _ _ _) as [p'|q']; [|reflexivity].
  unfold movedOnly in Hm. cbn [Entity.set_position Entity.set_velocity] in Hm.
  injection Hm as ->. reflexivity.
Qed.

Lemma entityStep_keeps
    (body : MovementSystem.t -> Q -> list Player.t -> list nat -> Projectile.t ->
            Projectile.t * list Player.t * list ImpactEvent)
    (ms : MovementSystem.t) (dt : Q) (targets : list nat) :
  (forall store prj,
     Projectile.id (fst (fst (body ms dt store targets prj))) = Projectile.id prj
     /\ map Player.id (snd (fst (body ms dt store targets prj))) = map Player.id store) ->
  forall (entities : list EntityRef) (acc : World * list ImpactEvent),
    let r := fold_left (MovementSystem.entityStep body ms dt targets) entities acc in
    map Player.id (players (fst r)) = map Player.id (players (fst acc))
    /\ map Projectile.id (projectiles (fst r)) = map Projectile.id (projectiles (fst acc)).
Proof.
  intro Hbody. induction entities as [|ref l IH]; intro acc; cbv zeta;
    [split; reflexivity|].
  cbn [fold_left]. specialize (IH (MovementSystem.entityStep body ms dt targets acc ref)).
  cbv zeta in IH. destruct IH as [IH1 IH2]. rewrite IH1, IH2. clear IH1 IH2.
  destruct acc as [w events]. unfold MovementSystem.entityStep. cbn [fst].
  destruct ref as [i|i].
  - destruct (nth_error (players w) i) as [p|] eqn:E; cbn [fst players projectiles];
      [|split; reflexivity].
    split; [|reflexivity].
    apply (map_list_set Player.id _ i _ p E). apply updatePlayer_id.
  - destruct (nth_error (projectiles w) i) as [prj|] eqn:E; [|split; reflexivity].
    destruct (Hbody (players w) prj) as [H1 H2].
    destruct (body ms dt (players w) targets prj) as [[prj' store'] evs].
    cbn [fst snd players projectiles] in *. split; [exact H2|].
    apply (map_list_set Projectile.id _ i _ prj E). exact H1.
Qed.

(** Both copies of the step keep the ids of the two stores. *)
Lemma movement_update_ids `{Math} (ms : MovementSystem.t) (w : World)
    (entities : list EntityRef) (deltaTime : Q) (targets : list nat) :
  (map Player.id (players (fst (MovementSystem.update ms w entities deltaTime targets)))
   = map Player.id (players w)
   /\ map Projectile.id
        (projectiles (fst (MovementSystem.update ms w entities deltaTime targets)))
      = map Projectile.id (projectiles w))
  /\ (map Player.id (players (fst (MovementSystem0.update ms w entities deltaTime targets)))
      = map Player.id (players w)
      /\ map Projectile.id
           (projectiles (fst (MovementSystem0.update ms w entities deltaTime targets)))
         = map Projectile.id (projectiles w)).
Proof.
  unfold MovementSystem.update, MovementSystem0.update. split.
  - destruct (Qleb deltaTime 0); [split; reflexivity|].
    apply (entityStep_keeps MovementSystem.updateProjectile ms deltaTime targets).
    intros store prj.
    apply (projectileBody_keeps MovementSystem.projectileLogic ms deltaTime store targets
             prj projectileLogic_keeps).
  - destruct (Qleb deltaTime 0); [split; reflexivity|].
    apply (entityStep_keeps MovementSystem0.updateProjectile ms deltaTime targets).
    intros store prj.
    apply (projectileBody_keeps MovementSystem0.projectileLogic ms deltaTime store targets
             prj projectileLogic0_keeps).
Qed.

(** X11. The movement step, in either copy of the movement system, never
    adds, removes, reorders or renames an entity: the player store and the
    projectile store it returns list the same ids in the same order as
    before, whatever references and targets it is given; and with a time
    step that is not positive it returns the world unchanged and emits
    nothing. *)
Theorem movement_update_keeps_entities `{Math} (ms : MovementSystem.t) (w : World)
    (entities : list EntityRef) (deltaTime : Q) (targets : list nat) :
  let r := MovementSystem.update ms w entities deltaTime targets in
  let r0 := MovementSystem0.update ms w entities deltaTime targets in
  (map Player.id (players (fst r)) = map Player.id (players w)
   /\ map Projectile.id (projectiles (fst r)) = map Projectile.id (projectiles w))
  /\ (map Player.id (players (fst r0)) = map Player.id (players w)
      /\ map Projectile.id (projectiles (fst r0)) = map Projectile.id (projectiles w))
  /\ (deltaTime <= 0 -> r = (w, []) /\ r0 = (w, [])).
Proof.
  cbv zeta.
  destruct (movement_update_ids ms w entities deltaTime targets) as [H1 H2].
  split; [exact H1|]. split; [exact H2|].
  intro Hd. apply Qleb_le in Hd.
  unfold MovementSystem.update, MovementSystem0.update. rewrite Hd. split; reflexivity.
Qed.

(** ** Player: life cycle *)

Lemma takeDamage_consistent (a : Q) (k : string) (p : Player.t) :
  consistent p -> consistent (Player.takeDamage a k p).
Proof.
  intros [Hmax [Hrange Halive]]. unfold consistent.
  rewrite takeDamage_maxHealth. split; [exact Hmax|].
  unfold Player.takeDamage.
  destruct (negb (Player.isAlive p) || Qleb a 0) eqn:Eg; [split; assumption|].
  cbv zeta. cbn [Player.health Player.set_health Player.isAlive Player.maxHealth].
  set (h := clamp _ 0 (Player.maxHealth p)).
  assert (Hh : 0 <= h <= Player.maxHealth p) by (apply clamp_bounds; lra).
  apply orb_false_iff in Eg. destruct Eg as [Ea _]. apply negb_false_iff in Ea.
  rewrite Ea. destruct (Qleb h 0) eqn:E0; cbn [andb].
  - apply Qleb_le in E0. rewrite onDeath_health.
    assert (Hd : Player.isAlive
                   (Player.onDeath (Player.set_isAlive (Player.set_health p h) false))
                 = false)
      by (unfold Player.onDeath; cbn [Player.cls Player.set_isAlive Player.set_health];
          destruct (Player.cls p); reflexivity).
    rewrite Hd. cbn [Player.health Player.set_isAlive Player.set_health].
    split; [exact Hh|]. split; [discriminate | intro; lra].
  - apply Qleb_gt in E0. cbn [Player.health Player.set_health Player.isAlive].
    split; [exact Hh|]. rewrite Ea. split; [intro; exact E0 | reflexivity].
Qed.

Lemma heal_consistent (a : Q) (p : Player.t) : consistent p -> consistent (Player.heal a p).
Proof.
  intros [Hmax [Hrange Halive]]. unfold consistent. rewrite heal_maxHealth.
  split; [exact Hmax|]. unfold Player.heal.
  destruct (negb (Player.isAlive p) || Qleb a 0) eqn:Eg; [split; assumption|].
  cbn [Player.health Player.set_health Player.isAlive].
  apply orb_false_iff in Eg. destruct Eg as [Ea Eamt]. apply negb_false_iff in Ea.
  apply Qleb_gt in Eamt. pose proof (proj1 Halive Ea) as Hpos.
  assert (Hh : 0 <= clamp (Player.health p + a) 0 (Player.maxHealth p)
               <= Player.maxHealth p) by (apply clamp_bounds; lra).
  split; [exact Hh|]. rewrite Ea. split; [intros _ | reflexivity].
  unfold clamp. apply Qlt_le_trans with (Qmin (Player.health p + a) (Player.maxHealth p));
    [|apply Q.le_max_r].
  apply Q.min_glb_lt; lra.
Qed.

Lemma respawn_consistent (pos : Vector3) (p : Player.t) :
  0 < Player.maxHealth p -> consistent (Player.respawn pos p).
Proof.
  intro Hmax. unfold consistent, Player.respawn.
  cbn [Player.maxHealth Player.health Player.isAlive Player.set_velocity
       Player.set_position Player.set_isAlive Player.set_health].
  split; [exact Hmax|]. split; [lra|]. split; [intros _; exact Hmax | reflexivity].
Qed.

(** X12. Alive means health left.  The invariant "0 <= health <=
    maxHealth, and isAlive holds exactly when health > 0" (for a positive
    maxHealth) is kept by every sequence of [takeDamage], [heal] and
    [respawn] calls, whatever their arguments: damage kills exactly when
    it empties the health, healing never revives, and a respawn restores
    both at once. *)
Theorem alive_iff_health_left (cs : list LifeCall) (p : Player.t) :
  consistent p -> consistent (lifeCalls cs p).
Proof.
  unfold lifeCalls. revert p. induction cs as [|c cs IH]; intros p H; [exact H|].
  cbn [fold_left]. apply IH. destruct c as [[a k|a]|pos]; cbn [lifeCall call].
  - apply takeDamage_consistent. exact H.
  - apply heal_consistent. exact H.
  - apply respawn_consistent. apply H.
Qed.

Lemma alive_iff_health_left_witness :
  consistent fullHealthPlayer
  /\ consistent
       (lifeCalls [HealthChange (TakeDamage 40 "head"); HealthChange (Heal 500);
                   Respawn (mkVector3 1 0 1); HealthChange (TakeDamage 15 "legs")]
          fullHealthPlayer).
Proof.
  assert (H : consistent fullHealthPlayer).
  { split; [reflexivity|]. split; [split; vm_compute; discriminate|].
    split; reflexivity. }
  split; [exact H|]. apply alive_iff_health_left. exact H.
Defined.

Lemma call_dead (p : Player.t) (c : HealthCall) : Player.isAlive p = false -> call p c = p.
Proof.
  intro Hd. destruct c as [a k|a]; cbn [call].
  - unfold Player.takeDamage. rewrite Hd. reflexivity.
  - unfold Player.heal. rewrite Hd. reflexivity.
Qed.

(** X13. The dead stay as they are.  No sequence of [takeDamage] and
    [heal] calls changes a dead player in any field: it cannot be damaged
    further, cannot be healed back to life, and its death handler does not
    run again (on the server the respawn countdown is not re-armed). *)
Theorem dead_player_is_unchanged (cs : list HealthCall) (p : Player.t) :
  Player.isAlive p = false -> calls cs p = p.
Proof.
  unfold calls. intro Hd. induction cs as [|c cs IH]; [reflexivity|].
  cbn [fold_left]. rewrite (call_dead p c Hd). exact IH.
Qed.

Lemma dead_player_is_unchanged_witness :
  Player.isAlive deadServerPlayer = false
  /\ calls sampleCalls deadServerPlayer = deadServerPlayer.
Proof.
  split; [reflexivity|]. apply dead_player_is_unchanged. reflexivity.
Defined.



(** X15. Snapshot round trip.  Applying to a player [p] the state that
    [getState] reads off a player [q] makes every replicated field of [p]
    (position, health, maxHealth, name, score, isAlive) equal to that of
    [q], so that the snapshot of the result is the snapshot of [q] under
    the id of [p]; the id, velocity, dimensions, weapon and class fields of
    [p] are kept; and applying a player's own snapshot changes nothing. *)
Theorem snapshot_round_trip (p q : Player.t) :
  let p' := Player.setState (Player_getState q) p in
  Player_getState p'
  = mkPlayerState (Player.id p) (ps_position (Player_getState q))
      (ps_health (Player_getState q)) (ps_maxHealth (Player_getState q))
      (ps_name (Player_getState q)) (ps_score (Player_getState q))
      (ps_isAlive (Player_getState q))
  /\ Player.position p' = Player.position q
  /\ (Player.id p' = Player.id p /\ Player.velocity p' = Player.velocity p
      /\ Player.currentWeapon p' = Player.currentWeapon p /\ Player.cls p' = Player.cls p
      /\ Player.width p' = Player.width p /\ Player.height p' = Player.height p
      /\ Player.depth p' = Player.depth p)
  /\ Player.setState (Player_getState p) p = p.
Proof.
  cbv zeta. destruct p, q. unfold Player.setState, Player_getState. cbn.
  destruct position, position0. cbn. repeat split.
Qed.

(** ** Weapon and Pistol: the firing cycle *)

Lemma canFire_cooldown (now : Q) (w : Weapon.t) :
  now - Weapon.lastFireTime w < Weapon.fireInterval w -> Weapon.canFire now w = false.
Proof.
  intro H. unfold Weapon.canFire. apply Qltb_lt in H. rewrite H.
  destruct (Weapon.isReloading w); [reflexivity|].
  destruct (Weapon.ammo_le_0 w && Weapon.maxAmmo_finite w); reflexivity.
Qed.

(** X16. [Pistol.fire] is gated by [canFire] and enforces the cooldown.
    When [canFire] is false the weapon is returned unchanged, with no
    projectile and no timer.  When it is true, a projectile descriptor is
    returned that carries the owner's id, an origin at the owner's position
    raised by the eye height, the direction scaled by the projectile speed
    and the weapon's damage and range; the shot is time-stamped, so that
    no further shot is possible until a full fire interval has passed; and
    a weapon with unbounded ammunition keeps its ammunition and never
    starts a reload. *)
Theorem fire_gate_and_cooldown (now : Q) (ownerId : string) (ownerPosition : Vector3)
    (direction : Vector3) (w : Weapon.t) :
  let r := Pistol.fire now ownerId ownerPosition direction w in
  let w' := fst (fst r) in
  (Weapon.canFire now w = false -> r = (w, None, None))
  /\ (Weapon.canFire now w = true ->
      (exists d, snd (fst r) = Some d
         /\ pd_ownerId d = ownerId
         /\ pd_origin d = Vec.add ownerPosition (mkVector3 0 PLAYER_EYE_HEIGHT 0)
         /\ pd_velocity d = Vec.multiplyScalar direction (Weapon.projectileSpeed w)
         /\ pd_damage d = Weapon.damage w /\ pd_range d = Weapon.range w)
      /\ Weapon.lastFireTime w' = now
      /\ (forall now', now' - now < Weapon.fireInterval w -> Weapon.canFire now' w' = false)
      /\ (Weapon.maxAmmo w = Infinity ->
          Weapon.ammo w' = Weapon.ammo w /\ Weapon.isReloading w' = false
          /\ snd r = None)).
Proof.
  cbv zeta. unfold Pistol.fire. split; intro Hc; rewrite Hc; cbn [negb]; [reflexivity|].
  cbv zeta.
  assert (Hrel : Weapon.isReloading w = false).
  { unfold Weapon.canFire in Hc. destruct (Weapon.isReloading w); [discriminate|reflexivity]. }
  set (w1 := Weapon.set_lastFireTime w now).
  set (branch := if Weapon.maxAmmo_finite w1 then _ else _).
  assert (Hb : Weapon.lastFireTime (fst branch) = now
               /\ Weapon.fireInterval (fst branch) = Weapon.fireInterval w
               /\ Weapon.projectileSpeed (fst branch) = Weapon.projectileSpeed w
               /\ Weapon.damage (fst branch) = Weapon.damage w
               /\ Weapon.range (fst branch) = Weapon.range w
               /\ (Weapon.maxAmmo w = Infinity ->
                   Weapon.ammo (fst branch) = Weapon.ammo w
                   /\ Weapon.isReloading (fst branch) = false /\ snd branch = None)).
  { subst branch. unfold Weapon.maxAmmo_finite. subst w1.
    cbn [Weapon.maxAmmo Weapon.set_lastFireTime].
    destruct (Weapon.maxAmmo w) eqn:Em.
    - destruct (Weapon.ammo_le_0 _).
      + unfold Weapon.startReload. destruct (_ || _); cbn [fst snd];
          repeat split; try reflexivity; discriminate.
      + cbn [fst snd]. repeat split; try reflexivity; discriminate.
    - cbn [fst snd]. repeat split; try reflexivity. exact Hrel. }
  clearbody branch. destruct branch as [w2 timer]. cbn [fst snd] in *.
  destruct Hb as [H1 [H2 [H3 [H4 [H5 H6]]]]].
  split; [|split; [exact H1|split; [|exact H6]]].
  - eexists. split; [reflexivity|]. cbn [pd_ownerId pd_origin pd_velocity pd_damage pd_range].
    rewrite H3, H4, H5. repeat split.
  - intros now' Hn. apply canFire_cooldown. rewrite H1, H2. exact Hn.
Qed.

(** X17. The magazine.  For a weapon that can fire, with a finite
    magazine of capacity [m] > 0 holding [a] rounds: firing leaves [a - 1]
    rounds; with more than one round left nothing else happens; firing the
    last round starts a reload stamped with the time of the shot and
    schedules [finishReload] after reloadTime * 1000 ms, and until that
    call the weapon cannot fire at any time; the call refills the magazine
    to [m], after which the weapon fires as soon as the cooldown of the
    last shot has passed. *)
Theorem magazine_cycle (now : Q) (ownerId : string) (ownerPosition direction : Vector3)
    (w : Weapon.t) (a m : Q) :
  Weapon.canFire now w = true ->
  Weapon.ammo w = Fin a -> Weapon.maxAmmo w = Fin m -> 0 < m ->
  let r := Pistol.fire now ownerId ownerPosition direction w in
  let w' := fst (fst r) in
  Weapon.ammo w' = Fin (a - 1)
  /\ (1 < a -> Weapon.isReloading w' = false /\ snd r = None)
  /\ (a <= 1 ->
      Weapon.isReloading w' = true /\ Weapon.reloadStartTime w' = now
      /\ snd r = Some (Weapon.reloadTime w * 1000)
      /\ (forall now', Weapon.canFire now' w' = false)
      /\ Weapon.ammo (Weapon.finishReload w') = Fin m
      /\ Weapon.isReloading (Weapon.finishReload w') = false
      /\ forall now', Weapon.canFire now' (Weapon.finishReload w')
                      = negb (Qltb (now' - now) (Weapon.fireInterval w))).
Proof.
  intros Hc Ha Hm Hmpos. cbv zeta. unfold Pistol.fire. rewrite Hc. cbn [negb]. cbv zeta.
  assert (Hrel : Weapon.isReloading w = false).
  { unfold Weapon.canFire in Hc. destruct (Weapon.isReloading w); [discriminate|reflexivity]. }
  assert (Hfin : Weapon.maxAmmo_finite (Weapon.set_lastFireTime w now) = true)
    by (unfold Weapon.maxAmmo_finite; cbn [Weapon.maxAmmo Weapon.set_lastFireTime];
        rewrite Hm; reflexivity).
  rewrite Hfin. cbn [Weapon.ammo Weapon.set_lastFireTime]. rewrite Ha. cbn [Weapon.decr].
  change (Weapon.ammo_le_0 (Weapon.set_ammo (Weapon.set_lastFireTime w now) (Fin (a - 1))))
    with (Qleb (a - 1) 0).
  destruct (Qleb (a - 1) 0) eqn:E.
  - apply Qleb_le in E. unfold Weapon.startReload.
    unfold Weapon.maxAmmo_finite, Weapon.ammo_full.
    cbn [Weapon.maxAmmo Weapon.ammo Weapon.isReloading Weapon.set_ammo
         Weapon.set_lastFireTime Weapon.reloadTime].
    rewrite Hm, Hrel. cbn [negb orb].
    assert (Hne : Qeq_bool (a - 1) m = false).
    { destruct (Qeq_bool (a - 1) m) eqn:Eq; [|reflexivity].
      apply Qeq_bool_iff in Eq. lra. }
    rewrite Hne. cbn [fst snd Weapon.ammo Weapon.isReloading Weapon.reloadStartTime].
    split; [reflexivity|]. split; [intro; lra|]. intros _.
    split; [reflexivity|]. split; [reflexivity|]. split; [reflexivity|].
    split; [intro now'; reflexivity|].
    unfold Weapon.finishReload. cbn [Weapon.isReloading negb Weapon.ammo Weapon.maxAmmo].
    split; [reflexivity|]. split; [reflexivity|].
    intro now'. unfold Weapon.canFire, Weapon.ammo_le_0.
    cbn [Weapon.isReloading Weapon.ammo Weapon.lastFireTime Weapon.fireInterval
         Weapon.set_ammo Weapon.set_lastFireTime].
    replace (Qleb m 0) with false by (symmetry; apply Qleb_gt; exact Hmpos).
    cbn [andb]. destruct (Qltb (now' - now) (Weapon.fireInterval w)); reflexivity.
  - apply Qleb_gt in E.
    cbn [fst snd Weapon.ammo Weapon.isReloading Weapon.set_ammo Weapon.set_lastFireTime].
    split; [reflexivity|]. split; [intros _; split; [exact Hrel | reflexivity]|].
    intro; lra.
Qed.

Lemma magazine_cycle_witness :
  Weapon.canFire 1000 lastRoundPistol = true
  /\ Weapon.isReloading
       (fst (fst (Pistol.fire 1000 "p1" Vec.ZERO (mkVector3 1 0 0) lastRoundPistol))) = true
  /\ snd (Pistol.fire 1000 "p1" Vec.ZERO (mkVector3 1 0 0) lastRoundPistol)
     = Some (Weapon.reloadTime lastRoundPistol * 1000).
Proof.
  assert (Hc : Weapon.canFire 1000 lastRoundPistol = true) by reflexivity.
  split; [exact Hc|].
  assert (Hm : 0 < 6) by reflexivity.
  destruct (magazine_cycle 1000 "p1" Vec.ZERO (mkVector3 1 0 0) lastRoundPistol 1 6
              Hc eq_refl eq_refl Hm) as [_ [_ H]].
  assert (H1 : 1 <= 1) by discriminate.
  destruct (H H1) as [A [_ [B _]]]. split; [exact A | exact B].
Defined.

(** ** ServerPlayer: respawn countdown and friction *)

Lemma inject_Z_succ (n : nat) :
  inject_Z (Z.of_nat (Datatypes.S n)) == inject_Z (Z.of_nat n) + 1.
Proof. rewrite Nat2Z.inj_succ. unfold Z.succ. rewrite inject_Z_plus. reflexivity. Qed.

Lemma countdown_succ (dt : Q) (n : nat) (t : Q) :
  countdown dt (Datatypes.S n) t = fl64 (countdown dt n t - dt).
Proof.
  revert t. induction n as [|n IH]; intro t; [reflexivity|].
  change (countdown dt (Datatypes.S (Datatypes.S n)) t)
    with (countdown dt (Datatypes.S n) (fl64 (t - dt))).
  rewrite IH. reflexivity.
Qed.

Lemma isDouble_onGrid (q : Q) : isDouble q -> onGrid q.
Proof. intro H. apply (onGrid_eq (fl64 q)); [exact H | apply fl64_onGrid]. Qed.

Lemma countdown_onGrid (dt : Q) (n : nat) (t : Q) : onGrid t -> onGrid (countdown dt n t).
Proof.
  intro Ht. destruct n as [|n]; [exact Ht|]. rewrite countdown_succ. apply fl64_onGrid.
Qed.

(** The countdown stays above [T * (1 - u)^n - n * dt] as long as that is
    positive. *)
Lemma countdown_lower (dt T : Q) (n : nat) :
  0 < dt -> onGrid T -> onGrid dt ->
  inject_Z (Z.of_nat n) * dt < T * powN (1 - unitRoundoff) n ->
  T * powN (1 - unitRoundoff) n - inject_Z (Z.of_nat n) * dt <= countdown dt n T.
Proof.
  intros Hdt HT Hg. destruct unitRoundoff_range as [Hu0 Hu1].
  induction n as [|n IH]; intro Hlt.
  - cbn [countdown powN]. change (inject_Z (Z.of_nat 0)) with 0. lra.
  - rewrite countdown_succ, inject_Z_succ. rewrite inject_Z_succ in Hlt. cbn [powN] in *.
    pose proof (inject_Z_nat_nonneg n) as Hn.
    pose proof (powN_pos (1 - unitRoundoff) n) as Hp0.
    pose proof (powN_le_1 (1 - unitRoundoff) n) as Hp1.
    set (N := inject_Z (Z.of_nat n)) in *.
    set (lo := powN (1 - unitRoundoff) n) in *.
    assert (Hlo0 : 0 < lo) by (apply Hp0; lra).
    assert (Hlo1 : lo <= 1) by (apply Hp1; lra).
    assert (Hnd : 0 <= N * dt) by (apply Qmult_le_0_compat; lra).
    assert (Hc : 0 < (1 - unitRoundoff) * lo) by (apply Qmult_lt_0_compat; lra).
    assert (HT0 : 0 < T).
    { destruct (Qlt_le_dec 0 T) as [Hpos|Hneg]; [exact Hpos|]. exfalso.
      assert (Hle : - T * ((1 - unitRoundoff) * lo) >= 0)
        by (apply Qmult_le_0_compat; lra).
      lra. }
    assert (Hul : 0 <= unitRoundoff * (T * lo))
      by (apply Qmult_le_0_compat; [|apply Qmult_le_0_compat]; lra).
    assert (Hprev : N * dt < T * lo) by lra.
    specialize (IH Hprev).
    set (t := countdown dt n T) in *.
    assert (Hdiff : 0 <= t + - dt) by lra.
    assert (Gt : onGrid t) by (apply countdown_onGrid; exact HT).
    destruct (fl64_sum_bounds t (- dt) Gt (onGrid_opp dt Hg) Hdiff) as [BL _].
    rewrite (fl64_comp (t - dt) (t + - dt)) by reflexivity.
    eapply Qle_trans; [|exact BL].
    assert (Hm : (1 - unitRoundoff) * (T * lo - N * dt) <= (1 - unitRoundoff) * t)
      by (apply Qmult_le_l; [lra | exact IH]).
    assert (Hud : 0 <= unitRoundoff * ((N + 1) * dt))
      by (apply Qmult_le_0_compat; [|apply Qmult_le_0_compat]; lra).
    lra.
Qed.

(** While it is positive, the countdown is at most [T * (1 + u)^n - n * dt]. *)
Lemma countdown_upper (dt T : Q) (n : nat) :
  0 < dt -> 0 < T -> onGrid T -> onGrid dt ->
  (forall k, (1 <= k <= n)%nat -> 0 < countdown dt k T) ->
  countdown dt n T <= T * powN (1 + unitRoundoff) n - inject_Z (Z.of_nat n) * dt.
Proof.
  intros Hdt HT0 HT Hg. destruct unitRoundoff_range as [Hu0 Hu1].
  induction n as [|n IH]; intro Hpos.
  - cbn [countdown powN]. change (inject_Z (Z.of_nat 0)) with 0. lra.
  - assert (IH' : countdown dt n T
                  <= T * powN (1 + unitRoundoff) n - inject_Z (Z.of_nat n) * dt)
      by (apply IH; intros k Hk; apply Hpos; lia).
    assert (Hlast : 0 < countdown dt (Datatypes.S n) T) by (apply Hpos; lia).
    rewrite countdown_succ in Hlast. rewrite countdown_succ, inject_Z_succ. cbn [powN].
    pose proof (inject_Z_nat_nonneg n) as Hn.
    pose proof (powN_ge_1 (1 + unitRoundoff) n) as Hp1.
    set (N := inject_Z (Z.of_nat n)) in *.
    set (hi := powN (1 + unitRoundoff) n) in *.
    assert (Hhi : 1 <= hi) by (apply Hp1; lra).
    set (t := countdown dt n T) in *.
    assert (Hdiff : 0 <= t + - dt).
    { destruct (Qlt_le_dec (t - dt) 0) as [Hneg|Hok]; [|lra].
      exfalso. pose proof (fl64_nonpos (t - dt)) as Hnp.
      assert (fl64 (t - dt) <= 0) by (apply Hnp; lra). lra. }
    assert (Gt : onGrid t) by (apply countdown_onGrid; exact HT).
    destruct (fl64_sum_bounds t (- dt) Gt (onGrid_opp dt Hg) Hdiff) as [_ BU].
    rewrite (fl64_comp (t - dt) (t + - dt)) by reflexivity.
    eapply Qle_trans; [exact BU|].
    assert (Hm : (1 + unitRoundoff) * t <= (1 + unitRoundoff) * (T * hi - N * dt))
      by (apply Qmult_le_l; [lra | exact IH']).
    assert (Hud : 0 <= unitRoundoff * ((N + 1) * dt))
      by (apply Qmult_le_0_compat; [|apply Qmult_le_0_compat]; lra).
    lra.
Qed.

(** Either the countdown is positive through n ticks or there is a first
    tick at which it is not. *)
Lemma countdown_first (dt T : Q) (n : nat) :
  (forall k, (1 <= k <= n)%nat -> 0 < countdown dt k T)
  \/ (exists k, (1 <= k <= n)%nat /\ countdown dt k T <= 0
        /\ forall j, (1 <= j < k)%nat -> 0 < countdown dt j T).
Proof.
  induction n as [|n [IH|IH]].
  - left. intros k Hk. lia.
  - destruct (Qlt_le_dec 0 (countdown dt (Datatypes.S n) T)) as [Hpos|Hle].
    + left. intros k Hk. destruct (Nat.eq_dec k (Datatypes.S n)) as [->|Hne];
        [exact Hpos | apply IH; lia].
    + right. exists (Datatypes.S n). split; [lia|]. split; [exact Hle|].
      intros j Hj. apply IH. lia.
  - right. destruct IH as [k [Hk [Hle Hfirst]]]. exists k. split; [lia|].
    split; [exact Hle | exact Hfirst].
Qed.

(** The check of the countdown on a run, as a computation. *)
Lemma countdown_positive_check (dt T : Q) (n : nat) :
  forallb (fun k => Qltb 0 (countdown dt k T)) (seq 1 n) = true ->
  forall k, (1 <= k <= n)%nat -> 0 < countdown dt k T.
Proof.
  intros Hall k Hk. apply Qltb_lt.
  apply (proj1 (forallb_forall _ _) Hall). apply in_seq. lia.
Qed.

(** When no difference is rounded, the countdown after n ticks is
    [T - n * dt]. *)
Lemma countdown_exact (dt T : Q) (n : nat) :
  (forall k, (1 <= k <= n)%nat ->
     fl64 (T - inject_Z (Z.of_nat k) * dt) == T - inject_Z (Z.of_nat k) * dt) ->
  countdown dt n T == T - inject_Z (Z.of_nat n) * dt.
Proof.
  induction n as [|n IH]; intro Hex.
  - cbn [countdown]. change (inject_Z (Z.of_nat 0)) with 0. ring.
  - rewrite countdown_succ.
    rewrite (fl64_comp _ (T - inject_Z (Z.of_nat (Datatypes.S n)) * dt)).
    + apply Hex. lia.
    + rewrite IH by (intros k Hk; apply Hex; lia).
      rewrite inject_Z_succ. ring.
Qed.

(** While the countdown has not run out, the ticks of a dead server
    player do nothing but count down. *)
Lemma serverTicks_dead `{Math} (dt : Q) (steps : list (Q * Vector3)) :
  forall (p : Player.t) (s : ServerFields),
    Player.cls p = ServerSide s -> Player.isAlive p = false ->
    (forall k, (1 <= k <= List.length steps)%nat ->
       0 < countdown dt k (timeToRespawn s)) ->
    serverTicks dt steps p
    = ServerPlayer.set_server p
        (with_timeToRespawn s (countdown dt (List.length steps) (timeToRespawn s))).
Proof.
  unfold serverTicks.
  induction steps as [|st steps IH]; intros p s Hcls Hdead Hpos.
  - cbn [fold_left List.length countdown]. destruct p, s. cbn in Hcls. subst. reflexivity.
  - cbn [List.length] in *.
    cbn [fold_left]. unfold serverTick at 2. rewrite Hcls.
    unfold ServerPlayer_update. rewrite Hdead. cbn [negb]. cbv zeta.
    cbn [timeToRespawn with_timeToRespawn].
    assert (H1 : 0 < fl64 (timeToRespawn s - dt)) by (apply (Hpos 1%nat); lia).
    replace (Qleb (fl64 (timeToRespawn s - dt)) 0) with false
      by (symmetry; apply Qleb_gt; exact H1).
    cbn [fst].
    rewrite (IH (ServerPlayer.set_server p
                   (with_timeToRespawn s (fl64 (timeToRespawn s - dt))))
                (with_timeToRespawn s (fl64 (timeToRespawn s - dt))) eq_refl Hdead).
    + reflexivity.
    + intros k Hk. cbn [timeToRespawn with_timeToRespawn].
      apply (Hpos (Datatypes.S k)). lia.
Qed.

(** X18. The respawn countdown.  A dead server player whose countdown is
    [T] and that is ticked with the step [dt], both doubles.  Each tick
    replaces the countdown by the double nearest to countdown - dt
    ([countdown dt k T] after k ticks).  As long as that stays positive the
    player stays dead and the ticks change nothing but the countdown
    (inputs are not applied, the queue is kept); the first tick that leaves
    it at zero or below revives the player with full health at the spawn
    point it is given, at rest.  The countdown is positive through n ticks
    when n * dt < T * (1 - u)^n, and it has run out by tick n when
    T * (1 + u)^n <= n * dt, u = 2^-53 being the unit roundoff; when no
    difference is rounded it is T - n * dt after n ticks. *)
Theorem respawn_countdown `{Math} (dt : Q) (steps : list (Q * Vector3)) (now : Q)
    (spawnPosition : Vector3) (p : Player.t) (s : ServerFields) :
  let n := List.length steps in
  let T := timeToRespawn s in
  Player.cls p = ServerSide s -> Player.isAlive p = false ->
  0 < dt -> 0 < T -> isDouble dt -> isDouble T ->
  let waiting := serverTicks dt steps p in
  let back := serverTicks dt (steps ++ [(now, spawnPosition)]) p in
  ((forall k, (1 <= k <= n)%nat -> 0 < countdown dt k T) ->
   waiting = ServerPlayer.set_server p (with_timeToRespawn s (countdown dt n T))
   /\ Player.isAlive waiting = false
   /\ (countdown dt (Datatypes.S n) T <= 0 ->
       Player.isAlive back = true
       /\ Player.health back = Player.maxHealth p
       /\ Player.position back = spawnPosition
       /\ Player.velocity back = Vec.ZERO)
   /\ (0 < countdown dt (Datatypes.S n) T -> Player.isAlive back = false))
  /\ (inject_Z (Z.of_nat n) * dt < T * powN (1 - unitRoundoff) n ->
      forall k, (1 <= k <= n)%nat -> 0 < countdown dt k T)
  /\ (T * powN (1 + unitRoundoff) n <= inject_Z (Z.of_nat n) * dt ->
      exists k, (1 <= k <= n)%nat /\ countdown dt k T <= 0
        /\ forall j, (1 <= j < k)%nat -> 0 < countdown dt j T)
  /\ ((forall k, (1 <= k <= n)%nat ->
         fl64 (T - inject_Z (Z.of_nat k) * dt) == T - inject_Z (Z.of_nat k) * dt) ->
      countdown dt n T == T - inject_Z (Z.of_nat n) * dt).
Proof.
  cbv zeta. intros Hcls Hdead Hdt HT Ddt DT.
  pose proof (isDouble_onGrid dt Ddt) as Gdt. pose proof (isDouble_onGrid _ DT) as GT.
  destruct unitRoundoff_range as [Hu0 Hu1].
  split; [|split; [|split]].
  - intro Hpos. pose proof (serverTicks_dead dt steps p s Hcls Hdead Hpos) as Eq.
    split; [exact Eq|]. split; [rewrite Eq; exact Hdead|].
    assert (Estep : serverTicks dt (steps ++ [(now, spawnPosition)]) p
                    = serverTick dt (serverTicks dt steps p) (now, spawnPosition)).
    { unfold serverTicks. rewrite fold_left_app. reflexivity. }
    rewrite Estep, Eq. unfold serverTick.
    cbn [Player.cls ServerPlayer.set_server Player.set_cls fst snd].
    unfold ServerPlayer_update.
    cbn [Player.isAlive ServerPlayer.set_server Player.set_cls]. rewrite Hdead.
    cbn [negb]. cbv zeta. cbn [timeToRespawn with_timeToRespawn].
    rewrite countdown_succ. split.
    + intro Hle. apply Qleb_le in Hle. rewrite Hle. cbn [fst]. repeat split.
    + intro Hgt. apply Qleb_gt in Hgt. rewrite Hgt. cbn [fst]. exact Hdead.
  - intros Hlt k Hk.
    pose proof (inject_Z_of_nat_le k (List.length steps) (proj2 Hk)) as Hkn.
    pose proof (powN_shrinks (1 - unitRoundoff) k (List.length steps)) as Hsh.
    assert (Hshrink : powN (1 - unitRoundoff) (List.length steps)
                      <= powN (1 - unitRoundoff) k) by (apply Hsh; [lra | lra | lia]).
    assert (Hkd : inject_Z (Z.of_nat k) * dt <= inject_Z (Z.of_nat (List.length steps)) * dt)
      by (apply Qmult_le_compat_r; lra).
    assert (HTl : timeToRespawn s * powN (1 - unitRoundoff) (List.length steps)
                  <= timeToRespawn s * powN (1 - unitRoundoff) k)
      by (apply Qmult_le_l; [exact HT | exact Hshrink]).
    assert (Hltk : inject_Z (Z.of_nat k) * dt
                   < timeToRespawn s * powN (1 - unitRoundoff) k) by lra.
    pose proof (countdown_lower dt (timeToRespawn s) k Hdt GT Gdt Hltk) as Hlow. lra.
  - intro Hle. destruct (countdown_first dt (timeToRespawn s) (List.length steps))
      as [Hpos|Hex]; [|exact Hex].
    exfalso.
    pose proof (countdown_upper dt (timeToRespawn s) (List.length steps) Hdt HT GT Gdt Hpos)
      as Hup.
    destruct steps as [|st steps'].
    + cbn [List.length powN] in Hle. change (inject_Z (Z.of_nat 0)) with 0 in Hle. lra.
    + assert (0 < countdown dt (List.length (st :: steps')) (timeToRespawn s))
        by (apply Hpos; cbn [List.length]; lia).
      lra.
  - apply countdown_exact.
Qed.

Lemma respawn_countdown_witness :
  let dt := fl64 (5 # 100) in
  let s := with_timeToRespawn sampleServerFields RESPAWN_DELAY in
  let steps := repeat (0, Vec.ZERO) 60 in
  Player.cls deadServerPlayer = ServerSide s
  /\ Player.isAlive deadServerPlayer = false
  /\ 0 < dt /\ 0 < timeToRespawn s /\ isDouble dt /\ isDouble (timeToRespawn s)
  /\ Player.isAlive (@serverTicks RationalMath dt steps deadServerPlayer) = false
  /\ Player.isAlive
       (@serverTicks RationalMath dt (steps ++ [(0, mkVector3 5 0 5)]) deadServerPlayer)
     = true
  /\ Player.position
       (@serverTicks RationalMath dt (steps ++ [(0, mkVector3 5 0 5)]) deadServerPlayer)
     = mkVector3 5 0 5.
Proof.
  cbv zeta.
  set (s := with_timeToRespawn sampleServerFields RESPAWN_DELAY).
  assert (H1 : Player.cls deadServerPlayer = ServerSide s) by reflexivity.
  assert (H2 : Player.isAlive deadServerPlayer = false) by reflexivity.
  assert (H3 : 0 < fl64 (5 # 100)) by (vm_compute; reflexivity).
  assert (H4 : 0 < timeToRespawn s) by reflexivity.
  assert (H5 : isDouble (fl64 (5 # 100))) by (vm_compute; reflexivity).
  assert (H6 : isDouble (timeToRespawn s)) by (vm_compute; reflexivity).
  assert (Hpos : forall k, (1 <= k <= List.length (repeat (0, Vec.ZERO) 60))%nat ->
                   0 < countdown (fl64 (5 # 100)) k (timeToRespawn s)).
  { apply countdown_positive_check. vm_compute. reflexivity. }
  assert (Hout : countdown (fl64 (5 # 100))
                   (Datatypes.S (List.length (repeat (0, Vec.ZERO) 60))) (timeToRespawn s)
                 <= 0)
    by (vm_compute; discriminate).
  destruct (proj1 (@respawn_countdown RationalMath (fl64 (5 # 100))
                     (repeat (0, Vec.ZERO) 60) 0 (mkVector3 5 0 5) deadServerPlayer s
                     H1 H2 H3 H4 H5 H6) Hpos)
    as [_ [A [B _]]].
  destruct (B Hout) as [B1 [_ [B3 _]]].
  split; [exact H1|]. split; [exact H2|]. split; [exact H3|]. split; [exact H4|].
  split; [exact H5|]. split; [exact H6|]. split; [exact A|]. split; [exact B1 | exact B3].
Defined.

(** Two runs of the countdown from 3 seconds.  With the step 0.05 the
    countdown is still positive after 60 ticks, 60 * 0.05 being above 3 as
    a product, and the player is revived by tick 61; with the step 0.6 it
    has run out after 5 ticks, 5 * 0.6 being below 3. *)
Example countdown_from_three_seconds :
  3 < 60 * fl64 (5 # 100)
  /\ 0 < countdown (fl64 (5 # 100)) 60 3
  /\ countdown (fl64 (5 # 100)) 61 3 <= 0
  /\ 5 * fl64 (6 # 10) < 3
  /\ 0 < countdown (fl64 (6 # 10)) 4 3
  /\ countdown (fl64 (6 # 10)) 5 3 <= 0.
Proof. vm_compute. repeat split; discriminate. Qed.

Lemma lerp_toward_zero (v alpha : Q) :
  let t := Qmax 0 (Qmin 1 alpha) in
  Qabs (v + (0 - v) * t) <= Qabs v /\ 0 <= (v + (0 - v) * t) * v.
Proof.
  cbv zeta.
  assert (Ht : 0 <= Qmax 0 (Qmin 1 alpha) <= 1).
  { split; [apply Q.le_max_l|]. apply Q.max_lub; [discriminate | apply Q.le_min_l]. }
  set (t := Qmax 0 (Qmin 1 alpha)) in *. clearbody t. split.
  - apply Qabs_case; intro Hv; apply Qabs_case; intro Hr; nra.
  - nra.
Qed.

Lemma fireWeapon_velocity (now : Q) (dir : Vector3) (p : Player.t) :
  let p' := fst (fst (Player.fireWeapon now dir p)) in
  Player.velocity p' = Player.velocity p /\ Player.position p' = Player.position p
  /\ Player.health p' = Player.health p /\ Player.isAlive p' = Player.isAlive p.
Proof.
  cbv zeta. unfold Player.fireWeapon. destruct (Player.currentWeapon p) as [w|];
    [|repeat split].
  destruct (negb (Player.isAlive p)); [repeat split|].
  destruct (Pistol.fire _ _ _ _ _) as [[w' data] timer]. repeat split.
Qed.

(** X19. Friction on the server.  When a live server player has no
    movement input this tick (no new input in the queue, or a newest
    input whose movement keys cancel out, such as forward together with
    backward), [applyInputs] never speeds it up and never reverses it: on
    every axis the new velocity component has at most the old magnitude
    and not the opposite sign, whatever [Math.exp] returns; position,
    health and life are untouched. *)
Theorem applyInputs_friction_slows `{Math} (now dt : Q) (p : Player.t) (s : ServerFields) :
  Player.isAlive p = true ->
  (forall i, ServerPlayer.latestInput (lastProcessedInputSequence s) (pendingInputs s)
             = Some i ->
             Vec.magnitudeSq (ServerPlayer.inputDirection (keys i)) <= 0) ->
  let p' := fst (ServerPlayer.applyInputs now dt p s) in
  (forall a, Qabs (component a (Player.velocity p')) <= Qabs (component a (Player.velocity p))
             /\ 0 <= component a (Player.velocity p') * component a (Player.velocity p))
  /\ Player.position p' = Player.position p
  /\ Player.health p' = Player.health p
  /\ Player.isAlive p' = true.
Proof.
  intros Ha Hdir. cbv zeta. unfold ServerPlayer.applyInputs. rewrite Ha. cbn [negb].
  assert (Hfinal : forall (p1 : Player.t) (s1 : ServerFields) (eff : list Effect),
    Player.velocity p1 = Player.velocity p -> Player.position p1 = Player.position p ->
    Player.health p1 = Player.health p -> Player.isAlive p1 = true ->
    let v' := Vec.lerp (Player.velocity p1) Vec.ZERO (1 - Math_exp (- PLAYER_FRICTION * dt)) in
    let p' := fst (ServerPlayer.set_server
                     (Player.set_velocity p1
                        (if Qltb (Vec.magnitudeSq v')
                              (MIN_SPEED_THRESHOLD * MIN_SPEED_THRESHOLD)
                         then Vec.ZERO else v')) s1, eff) in
    (forall a, Qabs (component a (Player.velocity p'))
               <= Qabs (component a (Player.velocity p))
               /\ 0 <= component a (Player.velocity p') * component a (Player.velocity p))
    /\ Player.position p' = Player.position p
    /\ Player.health p' = Player.health p
    /\ Player.isAlive p' = true).
  { intros p1 s1 eff Hv Hp Hh Hal. cbv zeta.
    cbn [fst ServerPlayer.set_server Player.set_cls Player.set_velocity Player.velocity
         Player.position Player.health Player.isAlive].
    split; [|split; [exact Hp|split; [exact Hh|exact Hal]]].
    intro a. rewrite Hv. destruct (Qltb _ _).
    - destruct a; cbn [component Vec.ZERO x y z]; split;
        try (apply Qabs_nonneg); lra.
    - unfold Vec.lerp. cbv zeta.
      destruct a; cbn [component Vec.ZERO x y z]; apply lerp_toward_zero. }
  destruct (ServerPlayer.latestInput (lastProcessedInputSequence s) (pendingInputs s))
    as [i|] eqn:E.
  - specialize (Hdir i eq_refl). unfold ServerPlayer.applyLatest. cbv zeta.
    replace (Qltb 0 (Vec.magnitudeSq (ServerPlayer.inputDirection (keys i)))) with false
      by (symmetry; apply Qltb_ge; exact Hdir).
    destruct (Keys.Fire (keys i)).
    + pose proof (fireWeapon_velocity now
                    (Vec.normalize
                       (mkVector3 (- Math_sin (lookYaw i) * Math_cos (lookPitch i))
                          (Math_sin (lookPitch i))
                          (- Math_cos (lookYaw i) * Math_cos (lookPitch i)))) p) as Hf.
      cbv zeta in Hf.
      destruct (Player.fireWeapon _ _ p) as [[p1 data] timer]. cbn [fst] in Hf.
      destruct Hf as [Hv [Hp [Hh Hal]]].
      apply Hfinal; try assumption. rewrite Hal. exact Ha.
    + apply Hfinal; try reflexivity. exact Ha.
  - apply Hfinal; try reflexivity. exact Ha.
Qed.

Lemma applyInputs_friction_slows_witness :
  Player.isAlive glidingPlayer = true
  /\ (forall a,
        Qabs (component a (Player.velocity
                (fst (@ServerPlayer.applyInputs RationalMath 0 (1 # 30) glidingPlayer
                        opposedInputFields))))
        <= Qabs (component a (Player.velocity glidingPlayer))).
Proof.
  assert (Ha : Player.isAlive glidingPlayer = true) by reflexivity.
  split; [exact Ha|].
  assert (Hd : forall i,
             ServerPlayer.latestInput (lastProcessedInputSequence opposedInputFields)
               (pendingInputs opposedInputFields) = Some i ->
             Vec.magnitudeSq (ServerPlayer.inputDirection (keys i)) <= 0).
  { intros i Hi. vm_compute in Hi. injection Hi as <-. vm_compute. discriminate. }
  intro a.
  apply (proj1 (@applyInputs_friction_slows RationalMath 0 (1 # 30) glidingPlayer
                  opposedInputFields Ha Hd)).
Defined.

(** ** Vector3 and math-utils *)

(** X20. The two interpolations.  [Vector3.lerp] clamps its factor: the
    result is, on every axis, between the two end points; it is the start
    for a factor <= 0, the target for a factor >= 1, and the linear blend
    for a factor in [0, 1].  [lerp] of math-utils does not clamp: it
    agrees with the clamped blend on [0, 1] and extrapolates beyond the
    target for a factor above 1. *)
Theorem lerp_clamped_and_unclamped (a v : Vector3) (alpha : Q) (axis : Axis) :
  let r := component axis (Vec.lerp a v alpha) in
  let from := component axis a in
  let to := component axis v in
  Qmin from to <= r <= Qmax from to
  /\ (alpha <= 0 -> r == from)
  /\ (1 <= alpha -> r == to)
  /\ (0 <= alpha <= 1 -> r == MathUtils_lerp from to alpha)
  /\ (1 < alpha -> from < to -> to < MathUtils_lerp from to alpha).
Proof.
  cbv zeta. unfold MathUtils_lerp.
  assert (Hr : component axis (Vec.lerp a v alpha)
               = component axis a
                 + (component axis v - component axis a) * Qmax 0 (Qmin 1 alpha))
    by (destruct axis; reflexivity).
  rewrite Hr.
  assert (Ht : 0 <= Qmax 0 (Qmin 1 alpha) <= 1).
  { split; [apply Q.le_max_l|]. apply Q.max_lub; [discriminate | apply Q.le_min_l]. }
  set (f := component axis a). set (g := component axis v).
  split; [|split; [|split; [|split]]].
  - set (t := Qmax 0 (Qmin 1 alpha)) in *. clearbody t f g.
    split.
    + apply Q.min_case_strong; [intros ? ? E; rewrite E; exact (fun H => H)| |]; intro; nra.
    + apply Q.max_case_strong; [intros ? ? E; rewrite E; exact (fun H => H)| |]; intro; nra.
  - intro H0. rewrite (Q.max_l 0 (Qmin 1 alpha)); [ring|].
    eapply Qle_trans; [apply Q.le_min_r | exact H0].
  - intro H1. rewrite (Q.min_l 1 alpha) by exact H1.
    rewrite (Q.max_r 0 1) by discriminate. ring.
  - intros [H0 H1]. rewrite (Q.min_r 1 alpha) by exact H1.
    rewrite (Q.max_r 0 alpha) by exact H0. reflexivity.
  - intros H1 Hlt. clearbody f g. nra.
Qed.


Lemma Qltb_ext (a b c : Q) : a == b -> Qltb a c = Qltb b c.
Proof.
  intro E. destruct (Qltb b c) eqn:Eb.
  - apply Qltb_lt. apply Qltb_lt in Eb. lra.
  - apply Qltb_ge. apply Qltb_ge in Eb. lra.
Qed.

Lemma Vec_equals_true (a v : Vector3) (epsilon : Q) :
  Vec_equals a v epsilon = true
  <-> forall axis, Qabs (component axis a - component axis v) < epsilon.
Proof.
  unfold Vec_equals. rewrite !andb_true_iff. split.
  - intros [[A B] C]. apply Qltb_lt in A, B, C. intros []; assumption.
  - intro Hall. repeat split; apply Qltb_lt.
    + exact (Hall AxisX).
    + exact (Hall AxisY).
    + exact (Hall AxisZ).
Qed.

(** X22. [Vector3.equals] is a tolerance test, not an equivalence.  It
    holds exactly when the two vectors differ by less than epsilon on
    every axis; it is symmetric, reflexive for a positive epsilon and
    false for every pair when epsilon <= 0; vectors it identifies are
    closer than sqrt(3) * epsilon (in squared distance, 3 * epsilon^2);
    and it is not transitive: with the default epsilon, (0, 0, 0) equals
    (0.000008, 0, 0), which equals (0.000016, 0, 0), which does not equal
    (0, 0, 0). *)
Theorem equals_is_a_tolerance (a v : Vector3) (epsilon : Q) :
  (Vec_equals a v epsilon = true
   <-> forall axis, Qabs (component axis a - component axis v) < epsilon)
  /\ Vec_equals a v epsilon = Vec_equals v a epsilon
  /\ (0 < epsilon -> Vec_equals a a epsilon = true)
  /\ (epsilon <= 0 -> Vec_equals a v epsilon = false)
  /\ (Vec_equals a v epsilon = true -> Vec.distanceToSq a v < 3 * epsilon * epsilon)
  /\ (Vec_equals (mkVector3 0 0 0) (mkVector3 (8 # 1000000) 0 0) DEFAULT_EPSILON = true
      /\ Vec_equals (mkVector3 (8 # 1000000) 0 0) (mkVector3 (16 # 1000000) 0 0)
           DEFAULT_EPSILON = true
      /\ Vec_equals (mkVector3 0 0 0) (mkVector3 (16 # 1000000) 0 0) DEFAULT_EPSILON
         = false).
Proof.
  split; [apply Vec_equals_true|].
  assert (Hsym : forall p q, Qabs (p - q) == Qabs (q - p)).
  { intros p q. rewrite <- (Qabs_opp (q - p)). apply Qabs_wd. ring. }
  split; [|split; [|split; [|split]]].
  - unfold Vec_equals.
    rewrite (Qltb_ext (Qabs (x a - x v)) (Qabs (x v - x a)) epsilon (Hsym _ _)).
    rewrite (Qltb_ext (Qabs (y a - y v)) (Qabs (y v - y a)) epsilon (Hsym _ _)).
    rewrite (Qltb_ext (Qabs (z a - z v)) (Qabs (z v - z a)) epsilon (Hsym _ _)).
    reflexivity.
  - intro He. apply Vec_equals_true. intro axis.
    assert (E : component axis a - component axis a == 0) by ring.
    rewrite E. exact He.
  - intro He. destruct (Vec_equals a v epsilon) eqn:E; [|reflexivity].
    pose proof (proj1 (Vec_equals_true a v epsilon) E AxisX) as H.
    pose proof (Qabs_nonneg (component AxisX a - component AxisX v)). lra.
  - intro E. pose proof (proj1 (Vec_equals_true a v epsilon) E) as Hall.
    pose proof (Hall AxisX) as HX. pose proof (Hall AxisY) as HY.
    pose proof (Hall AxisZ) as HZ. cbn [component] in HX, HY, HZ.
    unfold Vec.distanceToSq. cbv zeta.
    assert (Hsq : forall d, Qabs d < epsilon -> d * d < epsilon * epsilon).
    { intros d Hd. pose proof (Qabs_nonneg d) as Hn.
      assert (Hdd : d * d == Qabs d * Qabs d)
        by (apply Qabs_case; intro; ring).
      rewrite Hdd. nra. }
    pose proof (Hsq _ HX). pose proof (Hsq _ HY). pose proof (Hsq _ HZ). lra.
  - repeat split.
Qed.

(** X23. [crossVectors] computes a vector product: the result is
    orthogonal to both arguments, swapping the arguments negates it, the
    product of a vector with itself is zero, and its squared length is
    |a|^2 |b|^2 - (a . b)^2. *)
Theorem crossVectors_is_a_vector_product (a b : Vector3) :
  let c := Vec_crossVectors a b in
  dotProduct c a == 0 /\ dotProduct c b == 0
  /\ Vec.eqv (Vec_crossVectors b a) (Vec.multiplyScalar c (-1))
  /\ Vec.eqv (Vec_crossVectors a a) Vec.ZERO
  /\ Vec.magnitudeSq c
     == Vec.magnitudeSq a * Vec.magnitudeSq b - dotProduct a b * dotProduct a b.
Proof.
  cbv zeta. unfold Vec_crossVectors, dotProduct, Vec.eqv, Vec.magnitudeSq,
    Vec.multiplyScalar. cbv zeta. cbn [x y z Vec.ZERO].
  repeat split; ring.
Qed.

(** ** ClientPlayer: interpolation of remote players *)

Lemma double_clamp (alpha : Q) :
  0 <= alpha <= 1 -> Qmax 0 (Qmin 1 (clamp alpha 0 1)) == alpha.
Proof.
  intros [H0 H1]. unfold clamp.
  rewrite (Q.min_l alpha 1) by exact H1. rewrite (Q.max_r 0 alpha) by exact H0.
  rewrite (Q.min_r 1 alpha) by exact H1. apply Q.max_r. exact H0.
Qed.

Lemma double_clamp_range (alpha : Q) : 0 <= Qmax 0 (Qmin 1 (clamp alpha 0 1)) <= 1.
Proof.
  split; [apply Q.le_max_l|]. apply Q.max_lub; [discriminate | apply Q.le_min_l].
Qed.

Lemma double_clamp_low (alpha : Q) : alpha <= 0 -> Qmax 0 (Qmin 1 (clamp alpha 0 1)) == 0.
Proof.
  intro H. unfold clamp.
  assert (E : Qmax 0 (Qmin alpha 1) == 0).
  { apply Q.max_l. eapply Qle_trans; [apply Q.le_min_l | exact H]. }
  rewrite E. rewrite (Q.min_r 1 0) by discriminate. reflexivity.
Qed.

Lemma double_clamp_high (alpha : Q) : 1 <= alpha -> Qmax 0 (Qmin 1 (clamp alpha 0 1)) == 1.
Proof.
  intro H. unfold clamp. rewrite (Q.min_r alpha 1) by exact H.
  rewrite (Q.max_r 0 1) by discriminate. rewrite (Q.min_l 1 1) by apply Qle_refl.
  apply Q.max_r. discriminate.
Qed.

(** X24. Interpolation of a remote player.  With a target snapshot that
    has a position: when the player is alive, has a previous snapshot with
    a position, and the target is stamped later than the previous one, the
    displayed position is, on every axis, between the two snapshot
    positions; it is the previous one while the render time (now minus
    RENDER_DELAY) has not passed the previous stamp, the target one once it
    has reached the target stamp, and in between the linear blend in the
    elapsed fraction of the interval.  When the player is dead, has no
    previous snapshot, or the stamps do not increase, the position is
    that of the target snapshot.  Nothing but the position changes. *)
Theorem remote_player_interpolation (now : Q) (p : Player.t) (c : ClientFields)
    (tgt : PlayerState) (tp : Vector3) :
  targetState c = Some tgt -> ps_position tgt = Some tp ->
  let p' := ClientPlayer_interpolate now p c in
  let renderTimestamp := now - RENDER_DELAY in
  let t0 := lastStateTimestamp c in
  let t1 := targetStateTimestamp c in
  p' = Player.set_position p (Player.position p')
  /\ (forall prev pp,
        Player.isAlive p = true -> previousState c = Some prev ->
        ps_position prev = Some pp -> t0 < t1 ->
        (forall axis,
           Qmin (component axis pp) (component axis tp)
           <= component axis (Player.position p')
           <= Qmax (component axis pp) (component axis tp))
        /\ (renderTimestamp <= t0 -> Vec.eqv (Player.position p') pp)
        /\ (t1 <= renderTimestamp -> Vec.eqv (Player.position p') tp)
        /\ (t0 <= renderTimestamp <= t1 ->
            forall axis,
              component axis (Player.position p')
              == component axis pp
                 + (component axis tp - component axis pp)
                   * ((renderTimestamp - t0) / (t1 - t0))))
  /\ (Player.isAlive p = false \/ previousState c = None \/ t1 <= t0 ->
      Player.position p' = tp).
Proof.
  intros Htgt Htp. cbv zeta. unfold ClientPlayer_interpolate. cbv zeta.
  rewrite Htgt, Htp. destruct tp as [tx ty tz]. cbn [x y z].
  split; [|split].
  - destruct (previousState c) as [prev|]; [|destruct p; reflexivity].
    destruct (Player.isAlive p && Qltb _ _); [|destruct p; reflexivity].
    destruct (ps_position prev); destruct p; reflexivity.
  - intros prev pp Ha Hprev Hpp Hlt. rewrite Hprev, Ha, Hpp. cbn [andb].
    replace (Qltb (lastStateTimestamp c) (targetStateTimestamp c)) with true
      by (symmetry; apply Qltb_lt; exact Hlt).
    replace (Qltb 0 (targetStateTimestamp c - lastStateTimestamp c)) with true
      by (symmetry; apply Qltb_lt; lra).
    destruct pp as [px py pz]. cbn [x y z Player.position Player.set_position].
    set (alpha := (now - RENDER_DELAY - lastStateTimestamp c)
                  / (targetStateTimestamp c - lastStateTimestamp c)).
    assert (Hal : alpha * (targetStateTimestamp c - lastStateTimestamp c)
                  == now - RENDER_DELAY - lastStateTimestamp c)
      by (unfold alpha; field; lra).
    pose proof (double_clamp_range alpha) as Hr.
    unfold Vec.lerp. cbv zeta. cbn [x y z].
    split; [|split; [|split]].
    + set (t := Qmax 0 (Qmin 1 (clamp alpha 0 1))) in *. clearbody t.
      intros []; cbn [component x y z]; split;
        try (apply Q.min_case_strong; [intros ? ? E; rewrite E; exact (fun H => H)| |];
             intro; nra);
        try (apply Q.max_case_strong; [intros ? ? E; rewrite E; exact (fun H => H)| |];
             intro; nra).
    + intro Hle. assert (Hn : alpha <= 0) by nra.
      pose proof (double_clamp_low alpha Hn) as Hz.
      unfold Vec.eqv. cbn [x y z]. rewrite Hz. repeat split; ring.
    + intro Hge. assert (Hn : 1 <= alpha) by nra.
      pose proof (double_clamp_high alpha Hn) as Hz.
      unfold Vec.eqv. cbn [x y z]. rewrite Hz. repeat split; ring.
    + intros [H0 H1]. assert (Hn : 0 <= alpha <= 1) by (split; nra).
      pose proof (double_clamp alpha Hn) as Hz.
      intros []; cbn [component x y z]; rewrite Hz; reflexivity.
  - intros [Hd|[Hn|Hle]].
    + destruct (previousState c); [|reflexivity]. rewrite Hd. reflexivity.
    + rewrite Hn. reflexivity.
    + destruct (previousState c); [|reflexivity].
      replace (Qltb (lastStateTimestamp c) (targetStateTimestamp c)) with false
        by (symmetry; apply Qltb_ge; exact Hle).
      rewrite andb_false_r. reflexivity.
Qed.

Lemma remote_player_interpolation_witness :
  targetState betweenSnapshots = Some (snapshotAt (mkVector3 3 0 6) 100 true)
  /\ Vec.eqv
       (Player.position (ClientPlayer_interpolate 1061 fullHealthPlayer betweenSnapshots))
       (mkVector3 1 0 2).
Proof.
  split; [reflexivity|].
  destruct (remote_player_interpolation 1061 fullHealthPlayer betweenSnapshots
              (snapshotAt (mkVector3 3 0 6) 100 true) (mkVector3 3 0 6) eq_refl eq_refl)
    as [_ [H _]].
  destruct (H (snapshotAt (mkVector3 0 0 0) 100 true) (mkVector3 0 0 0)
              eq_refl eq_refl eq_refl eq_refl) as [_ [_ [_ Hmid]]].
  assert (Hw : lastStateTimestamp betweenSnapshots <= 1061 - RENDER_DELAY
               <= targetStateTimestamp betweenSnapshots)
    by (split; vm_compute; discriminate).
  pose proof (Hmid Hw AxisX) as HX. pose proof (Hmid Hw AxisY) as HY.
  pose proof (Hmid Hw AxisZ) as HZ. cbn [component] in HX, HY, HZ.
  unfold Vec.eqv. cbn [x y z].
  split; [rewrite HX; reflexivity|]. split; [rewrite HY; reflexivity|].
  rewrite HZ. reflexivity.
Defined.

(** ** Client prediction against the server *)

Lemma magnitudeSq_le (u w : Vector3) :
  (forall a, Qabs (component a u) <= Qabs (component a w)) ->
  Vec.magnitudeSq u <= Vec.magnitudeSq w.
Proof.
  intro H. unfold Vec.magnitudeSq.
  assert (Hsq : forall p q, Qabs p <= Qabs q -> p * p <= q * q).
  { intros p q Hpq. pose proof (Qabs_nonneg p).
    assert (Ep : p * p == Qabs p * Qabs p) by (apply Qabs_case; intro; ring).
    assert (Eq : q * q == Qabs q * Qabs q) by (apply Qabs_case; intro; ring).
    rewrite Ep, Eq. nra. }
  pose proof (Hsq _ _ (H AxisX)). pose proof (Hsq _ _ (H AxisY)).
  pose proof (Hsq _ _ (H AxisZ)). cbn [component] in *. lra.
Qed.

Lemma scaled_abs_le (v f : Q) : 0 <= f <= 1 -> Qabs (v * f) <= Qabs v.
Proof.
  intros [H0 H1]. rewrite Qabs_Qmult. rewrite (Qabs_pos f) by exact H0.
  pose proof (Qabs_nonneg v). nra.
Qed.

(** The exponential step toward [tv], seen from [tv]. *)
Lemma lerp_offset (a tv : Vector3) (alpha : Q) (axis : Axis) :
  component axis (Vec.lerp a tv alpha) - component axis tv
  == (component axis a - component axis tv) * (1 - Qmax 0 (Qmin 1 alpha)).
Proof. destruct axis; cbn [component Vec.lerp x y z]; ring. Qed.

Lemma clamp01_range (alpha : Q) : 0 <= 1 - Qmax 0 (Qmin 1 alpha) <= 1.
Proof.
  assert (Ht : 0 <= Qmax 0 (Qmin 1 alpha) <= 1).
  { split; [apply Q.le_max_l|]. apply Q.max_lub; [discriminate | apply Q.le_min_l]. }
  split; lra.
Qed.

(** The linear friction step of the client never lengthens a component. *)
Lemma linear_friction_shrinks `{Math} (dt : Q) (v : Vector3) (axis : Axis) :
  0 <= dt ->
  let currentSpeedSq := Vec.magnitudeSq v in
  let v1 :=
    if Qltb (MIN_SPEED_THRESHOLD * MIN_SPEED_THRESHOLD) currentSpeedSq then
      if Qltb 0 (Math_sqrt currentSpeedSq)
      then Vec.multiplyScalar v
             (Qmax 0 (Math_sqrt currentSpeedSq - PLAYER_FRICTION * dt)
              / Math_sqrt currentSpeedSq)
      else Vec.ZERO
    else Vec.ZERO in
  Qabs (component axis v1) <= Qabs (component axis v).
Proof.
  intro Hdt. cbv zeta.
  assert (Hzero : Qabs (component axis Vec.ZERO) <= Qabs (component axis v))
    by (destruct axis; cbn [component Vec.ZERO x y z]; apply Qabs_nonneg).
  destruct (Qltb (MIN_SPEED_THRESHOLD * MIN_SPEED_THRESHOLD) (Vec.magnitudeSq v));
    [|exact Hzero].
  destruct (Qltb 0 (Math_sqrt (Vec.magnitudeSq v))) eqn:Es; [|exact Hzero].
  apply Qltb_lt in Es. set (cs := Math_sqrt (Vec.magnitudeSq v)) in *. clearbody cs.
  assert (Hf : 0 <= Qmax 0 (cs - PLAYER_FRICTION * dt) / cs <= 1).
  { assert (Hn : 0 <= Qmax 0 (cs - PLAYER_FRICTION * dt) <= cs).
    { split; [apply Q.le_max_l|]. apply Q.max_lub; [lra|].
      unfold PLAYER_FRICTION. lra. }
    set (n := Qmax 0 (cs - PLAYER_FRICTION * dt)) in *. clearbody n.
    assert (E : n / cs * cs == n) by (field; lra).
    split; nra. }
  destruct axis; cbn [component Vec.multiplyScalar x y z]; apply scaled_abs_le; exact Hf.
Qed.

(** X25. Client prediction is not a mirror of the server.  Given the
    same keys, yaw, time step (not negative) and starting velocity as the
    input that the server applies, [applyInputLocally] leaves the client
    velocity, on every axis, at least as close to the target velocity as
    [applyInputs] leaves the server velocity: the client runs a linear
    acceleration or friction step before the exponential step that it
    shares with the server, so it converges at least as fast, whatever
    [Math.exp] and [Math.sqrt] return. *)
Theorem prediction_converges_at_least_as_fast `{Math} (now dt : Q) (p : Player.t)
    (s : ServerFields) (i : PlayerInput) :
  Player.isAlive p = true ->
  ServerPlayer.latestInput (lastProcessedInputSequence s) (pendingInputs s) = Some i ->
  0 <= dt ->
  let serverVelocity := Player.velocity (fst (ServerPlayer.applyInputs now dt p s)) in
  let clientVelocity :=
    ClientPlayer_applyInputLocally (keys i) (lookYaw i) dt (Player.velocity p) in
  let targetVelocity := fst (ClientPlayer_targetVelocity (keys i) (lookYaw i)) in
  forall axis,
    Qabs (component axis clientVelocity - component axis targetVelocity)
    <= Qabs (component axis serverVelocity - component axis targetVelocity).
Proof.
  intros Ha Hi Hdt. cbv zeta. intro axis.
  unfold ServerPlayer.applyInputs. rewrite Ha, Hi. cbn [negb].
  unfold ServerPlayer.applyLatest, ClientPlayer_applyInputLocally,
    ClientPlayer_targetVelocity. cbv zeta.
  assert (Hfire : forall (b : bool) (dir : Vector3),
            Player.velocity
              (fst (if b
                    then (let '(p', data, timer) := Player.fireWeapon now dir p in
                          (p',
                           match timer with
                           | Some ms => [SetTimeout_finishReload ms]
                           | None => []
                           end
                           ++ match data with
                              | Some d => [Emit_projectileFired d]
                              | None => []
                              end))
                    else (p, [])))
            = Player.velocity p).
  { intros [] dir; [|reflexivity].
    pose proof (fireWeapon_velocity now dir p) as Hf. cbv zeta in Hf.
    destruct (Player.fireWeapon now dir p) as [[p' data] timer]. apply Hf. }
  specialize (Hfire (Keys.Fire (keys i))
                (Vec.normalize
                   (mkVector3 (- Math_sin (lookYaw i) * Math_cos (lookPitch i))
                      (Math_sin (lookPitch i))
                      (- Math_cos (lookYaw i) * Math_cos (lookPitch i))))).
  destruct (if Keys.Fire (keys i) then _ else _) as [p1 effects]. cbn [fst] in Hfire.
  destruct (Qltb 0 (Vec.magnitudeSq (ServerPlayer.inputDirection (keys i)))).
  - cbn [fst ServerPlayer.set_server Player.set_cls Player.set_velocity Player.velocity].
    rewrite Hfire. rewrite !lerp_offset.
    set (d := component axis (Player.velocity p) - component axis _).
    pose proof (clamp01_range (clamp (PLAYER_ACCELERATION * dt) 0 1)) as H1.
    pose proof (clamp01_range (1 - Math_exp (- PLAYER_ACCELERATION * dt))) as H2.
    set (f1 := 1 - Qmax 0 (Qmin 1 (clamp (PLAYER_ACCELERATION * dt) 0 1))) in *.
    set (f2 := 1 - Qmax 0 (Qmin 1 (1 - Math_exp (- PLAYER_ACCELERATION * dt)))) in *.
    clearbody d f1 f2.
    assert (E : d * f1 * f2 == d * f2 * f1) by ring.
    rewrite E. apply scaled_abs_le. exact H1.
  - cbn [fst ServerPlayer.set_server Player.set_cls Player.set_velocity Player.velocity].
    rewrite Hfire.
    pose proof (fun a => linear_friction_shrinks dt (Player.velocity p) a Hdt) as Hlin.
    cbv zeta in Hlin.
    set (v1 := if Qltb (MIN_SPEED_THRESHOLD * MIN_SPEED_THRESHOLD)
                    (Vec.magnitudeSq (Player.velocity p)) then _ else _) in *.
    clearbody v1.
    set (alpha := 1 - Math_exp (- PLAYER_FRICTION * dt)).
    assert (Hstep : forall a,
              Qabs (component a (Vec.lerp v1 Vec.ZERO alpha))
              <= Qabs (component a (Vec.lerp (Player.velocity p) Vec.ZERO alpha))).
    { intro a.
      assert (Ec : forall u, component a (Vec.lerp u Vec.ZERO alpha)
                             == component a u * (1 - Qmax 0 (Qmin 1 alpha)))
        by (intro u; destruct a; cbn [component Vec.lerp Vec.ZERO x y z]; ring).
      rewrite !Ec. rewrite !Qabs_Qmult.
      pose proof (Qabs_nonneg (1 - Qmax 0 (Qmin 1 alpha))).
      pose proof (Hlin a). pose proof (Qabs_nonneg (component a v1)). nra. }
    pose proof (magnitudeSq_le _ _ Hstep) as Hmag.
    assert (Hz : forall u, component axis u - component axis Vec.ZERO == component axis u)
      by (intro u; destruct axis; cbn [component Vec.ZERO x y z]; ring).
    rewrite !Hz.
    destruct (Qltb (Vec.magnitudeSq (Vec.lerp (Player.velocity p) Vec.ZERO alpha))
                (MIN_SPEED_THRESHOLD * MIN_SPEED_THRESHOLD)) eqn:Es.
    + apply Qltb_lt in Es.
      replace (Qltb (Vec.magnitudeSq (Vec.lerp v1 Vec.ZERO alpha))
                 (MIN_SPEED_THRESHOLD * MIN_SPEED_THRESHOLD)) with true
        by (symmetry; apply Qltb_lt; lra).
      apply Qle_refl.
    + destruct (Qltb (Vec.magnitudeSq (Vec.lerp v1 Vec.ZERO alpha)) _).
      * destruct axis; cbn [component Vec.ZERO x y z]; apply Qabs_nonneg.
      * apply Hstep.
Qed.

Lemma prediction_converges_at_least_as_fast_witness :
  Player.isAlive glidingPlayer = true
  /\ forall axis,
       Qabs (component axis
               (@ClientPlayer_applyInputLocally RationalMath opposedKeys 0 (1 # 30)
                  (Player.velocity glidingPlayer))
             - component axis (fst (@ClientPlayer_targetVelocity RationalMath opposedKeys 0)))
       <= Qabs (component axis
                  (Player.velocity
                     (fst (@ServerPlayer.applyInputs RationalMath 0 (1 # 30) glidingPlayer
                             opposedInputFields)))
                - component axis
                    (fst (@ClientPlayer_targetVelocity RationalMath opposedKeys 0))).
Proof.
  assert (Ha : Player.isAlive glidingPlayer = true) by reflexivity.
  split; [exact Ha|].
  assert (Hdt : 0 <= 1 # 30) by discriminate.
  exact (@prediction_converges_at_least_as_fast RationalMath 0 (1 # 30) glidingPlayer
           opposedInputFields (mkPlayerInput 8 (1 # 60) opposedKeys 0 0) Ha eq_refl Hdt).
Defined.

(** ** GameStateManager: spawning and purging projectiles *)

Lemma mapSet_In (l : list Projectile.t) (v : Projectile.t) :
  In v (GameStateManager.mapSet l v).
Proof.
  induction l as [|h r IH]; cbn [GameStateManager.mapSet]; [left; reflexivity|].
  destruct (String.eqb (Projectile.id h) (Projectile.id v));
    [left; reflexivity | right; exact IH].
Qed.

Lemma fireWeapon_descriptor (now : Q) (dir : Vector3) (p : Player.t) (d : ProjectileData) :
  snd (fst (Player.fireWeapon now dir p)) = Some d ->
  Player.isAlive p = true
  /\ pd_ownerId d = Player.id p
  /\ pd_origin d = Vec.add (Player.position p) (mkVector3 0 PLAYER_EYE_HEIGHT 0)
  /\ exists w, Player.currentWeapon p = Some w /\ Weapon.canFire now w = true
       /\ pd_velocity d = Vec.multiplyScalar dir (Weapon.projectileSpeed w)
       /\ pd_damage d = Weapon.damage w /\ pd_range d = Weapon.range w.
Proof.
  unfold Player.fireWeapon. destruct (Player.currentWeapon p) as [w|]; [|discriminate].
  destruct (Player.isAlive p) eqn:Ea; cbn [negb]; [|discriminate].
  unfold Pistol.fire. destruct (Weapon.canFire now w) eqn:Ec; cbn [negb]; [|discriminate].
  cbv zeta.
  set (branch := if Weapon.maxAmmo_finite (Weapon.set_lastFireTime w now) then _ else _).
  assert (Hb : Weapon.projectileSpeed (fst branch) = Weapon.projectileSpeed w
               /\ Weapon.damage (fst branch) = Weapon.damage w
               /\ Weapon.range (fst branch) = Weapon.range w).
  { subst branch. destruct (Weapon.maxAmmo_finite _); [|repeat split].
    destruct (Weapon.ammo_le_0 _); [|repeat split].
    unfold Weapon.startReload. destruct (_ || _); repeat split. }
  clearbody branch. destruct branch as [w2 timer]. cbn [fst snd] in *.
  destruct Hb as [H1 [H2 H3]]. intro E. injection E as <-.
  cbn [pd_ownerId pd_origin pd_velocity pd_damage pd_range].
  split; [reflexivity|]. split; [reflexivity|]. split; [reflexivity|].
  exists w. rewrite H1, H2, H3. repeat split. exact Ec.
Qed.

(** X26. A shot never hits the shooter.  When [fireWeapon] of a player
    returns a descriptor, [addProjectile] (for a player whose id is not
    the empty string) stores a projectile under the fresh id that is
    owned by the shooter, starts at the shooter's eye position, is not
    marked and has travelled no distance; and whatever the player store,
    the targets and the segment, the player raycast for that projectile
    only ever reports a live player whose id differs from the shooter's.
    A descriptor whose owner id is the empty string is dropped. *)
Theorem shot_never_hits_shooter `{Math} (now : Q) (dir : Vector3) (p : Player.t)
    (d : ProjectileData) (newId : string) (projectiles : list Projectile.t) :
  snd (fst (Player.fireWeapon now dir p)) = Some d ->
  (Player.id p = EmptyString ->
   GameStateManager.addProjectile newId d projectiles = projectiles)
  /\ (Player.id p <> EmptyString ->
      exists q,
        In q (GameStateManager.addProjectile newId d projectiles)
        /\ Projectile.id q = newId
        /\ Projectile.ownerId q = Player.id p
        /\ Projectile.position q
           = Vec.add (Player.position p) (mkVector3 0 PLAYER_EYE_HEIGHT 0)
        /\ Projectile.markForRemoval q = false
        /\ Projectile.distanceTraveled q = 0
        /\ forall store prev delta targets h,
             CollisionSystem.checkProjectileHitRaycast store q prev delta targets = Some h ->
             exists tp, nth_error store (target h) = Some tp
                        /\ Player.isAlive tp = true
                        /\ Player.id tp <> Player.id p).
Proof.
  intro Hfire. destruct (fireWeapon_descriptor now dir p d Hfire) as [_ [Hown [Horg _]]].
  unfold GameStateManager.addProjectile. rewrite Hown. split.
  - intro E. rewrite E. reflexivity.
  - intro Hne. destruct (String.eqb (Player.id p) EmptyString) eqn:Eid;
      [apply String.eqb_eq in Eid; contradiction|].
    cbv zeta. eexists. split; [apply mapSet_In|].
    cbn [Projectile.id Projectile.new Projectile.ownerId Projectile.position
         Projectile.markForRemoval Projectile.distanceTraveled].
    split; [reflexivity|]. split; [reflexivity|].
    split; [rewrite Horg; reflexivity|]. split; [reflexivity|]. split; [reflexivity|].
    intros store prev delta targets h.
    unfold CollisionSystem.checkProjectileHitRaycast.
    cbn [Projectile.markForRemoval Projectile.ownerId]. cbv zeta.
    destruct (Qltb _ _); [discriminate|]. intro E.
    apply targetLoop_struck in E; [|discriminate].
    destruct E as [tp [box [Hn [Hal [Hid _]]]]].
    exists tp. split; [exact Hn|]. split; [exact Hal|].
    intro Eq. rewrite Eq in Hid. rewrite String.eqb_refl in Hid. discriminate.
Qed.

Lemma shot_never_hits_shooter_witness :
  exists d,
    snd (fst (Player.fireWeapon 1000 (mkVector3 1 0 0) armedPlayer)) = Some d
    /\ exists q,
         In q (GameStateManager.addProjectile "b9" d [])
         /\ Projectile.ownerId q = "p1"%string.
Proof.
  eexists. split; [reflexivity|].
  destruct (proj2 (@shot_never_hits_shooter RationalMath 1000 (mkVector3 1 0 0)
                     armedPlayer _ "b9" [] eq_refl))
    as [q [Hin [_ [Ho _]]]]; [discriminate|].
  exists q. split; [exact Hin | exact Ho].
Defined.

Lemma includes_app (ids : list string) (a id : string) :
  GameStateManager.includes (ids ++ [a]) id
  = GameStateManager.includes ids id || String.eqb id a.
Proof.
  unfold GameStateManager.includes. rewrite existsb_app. cbn [existsb].
  rewrite orb_false_r. reflexivity.
Qed.

Lemma collectMarked_keeps (acc : list string) (q : Projectile.t) (id : string) :
  GameStateManager.includes acc id = true ->
  GameStateManager.includes (GameStateManager.collectMarked acc q) id = true.
Proof.
  intro H. unfold GameStateManager.collectMarked.
  destruct (_ && _); [|exact H]. rewrite includes_app, H. reflexivity.
Qed.

Lemma collectMarked_marked (acc : list string) (q : Projectile.t) :
  Projectile.markForRemoval q = true ->
  GameStateManager.includes (GameStateManager.collectMarked acc q) (Projectile.id q) = true.
Proof.
  intro H. unfold GameStateManager.collectMarked. rewrite H. cbn [andb].
  destruct (GameStateManager.includes acc (Projectile.id q)) eqn:E; cbn [negb];
    [exact E|].
  rewrite includes_app, String.eqb_refl. apply orb_true_r.
Qed.

(** The second collection, over positions of the projectile store. *)
Lemma collect_positions (store : list Projectile.t) (js : list nat) (acc : list string) :
  let r := fold_left (fun acc j => match nth_error store j with
                                   | Some q => GameStateManager.collectMarked acc q
                                   | None => acc
                                   end) js acc in
  (forall id, GameStateManager.includes acc id = true ->
              GameStateManager.includes r id = true)
  /\ (forall j q, In j js -> nth_error store j = Some q ->
        Projectile.markForRemoval q = true ->
        GameStateManager.includes r (Projectile.id q) = true).
Proof.
  revert acc. induction js as [|j0 js IH]; intro acc; cbv zeta; cbn [fold_left].
  - split; [intros id H; exact H | intros j q []].
  - specialize (IH (match nth_error store j0 with
                    | Some q => GameStateManager.collectMarked acc q
                    | None => acc
                    end)). cbv zeta in IH. destruct IH as [IHk IHm]. split.
    + intros id H. apply IHk. destruct (nth_error store j0); [|exact H].
      apply collectMarked_keeps. exact H.
    + intros j q [<-|Hin] Hn Hm.
      * apply IHk. rewrite Hn. apply collectMarked_marked. exact Hm.
      * apply (IHm j q Hin Hn Hm).
Qed.

Lemma removeAll_In (ids : list string) (l : list Projectile.t) (q : Projectile.t) :
  In q (fold_left (fun l id => GameStateManager.removeProjectile id l) ids l)
  <-> In q l /\ GameStateManager.includes ids (Projectile.id q) = false.
Proof.
  revert l. induction ids as [|i ids IH]; intro l; cbn [fold_left].
  - split; [intro H; split; [exact H | reflexivity] | intros [H _]; exact H].
  - rewrite IH. unfold GameStateManager.removeProjectile. rewrite filter_In.
    unfold GameStateManager.includes. cbn [existsb]. rewrite orb_false_iff.
    rewrite negb_true_iff. tauto.
Qed.

Lemma nth_error_same_ids (l1 l2 : list Projectile.t) (j : nat) (q : Projectile.t) :
  map Projectile.id l1 = map Projectile.id l2 -> nth_error l1 j = Some q ->
  exists q', nth_error l2 j = Some q' /\ Projectile.id q' = Projectile.id q.
Proof.
  intros Hmap Hn.
  pose proof (map_nth_error Projectile.id j l1 Hn) as H1. rewrite Hmap in H1.
  destruct (nth_error l2 j) as [q'|] eqn:E.
  - exists q'. split; [reflexivity|].
    rewrite (map_nth_error Projectile.id j l2 E) in H1. injection H1 as H1. exact H1.
  - exfalso. apply nth_error_None in E.
    assert (Hlen : (j < List.length (map Projectile.id l2))%nat)
      by (apply nth_error_Some; rewrite H1; discriminate).
    rewrite length_map in Hlen. lia.
Qed.

Lemma applyInputs_id `{Math} (now dt : Q) (p : Player.t) (s : ServerFields) :
  Player.id (fst (ServerPlayer.applyInputs now dt p s)) = Player.id p.
Proof.
  unfold ServerPlayer.applyInputs. destruct (negb (Player.isAlive p)); [reflexivity|].
  destruct (ServerPlayer.latestInput _ _) as [i|]; [|reflexivity].
  unfold ServerPlayer.applyLatest. cbv zeta.
  destruct (if Qltb 0 _ then _ else _) as [tv hm].
  destruct (Keys.Fire (keys i)); [|reflexivity].
  unfold Player.fireWeapon. destruct (Player.currentWeapon p) as [w|]; [|reflexivity].
  destruct (negb (Player.isAlive p)); [reflexivity|].
  destruct (Pistol.fire _ _ _ _ _) as [[w' data] timer]. reflexivity.
Qed.

Lemma ServerPlayer_update_id `{Math} (now dt : Q) (spawn : Vector3) (p : Player.t)
    (s : ServerFields) :
  Player.id (fst (ServerPlayer_update now dt spawn p s)) = Player.id p.
Proof.
  unfold ServerPlayer_update. destruct (negb (Player.isAlive p)); [|apply applyInputs_id].
  cbv zeta. destruct (Qleb _ 0); reflexivity.
Qed.

Lemma updatePlayerAt_ids `{Math} (dt : Q) (oracle : nat -> GameStateManager.Oracle)
    (idxs : list nat) (acc : World * list Q) :
  map Player.id (players (fst (fold_left (GameStateManager.updatePlayerAt dt oracle) idxs acc)))
  = map Player.id (players (fst acc)).
Proof.
  revert acc. induction idxs as [|i idxs IH]; intro acc; [reflexivity|].
  cbn [fold_left]. rewrite IH. destruct acc as [w timers].
  unfold GameStateManager.updatePlayerAt. cbn [fst].
  destruct (nth_error (players w) i) as [p|] eqn:E; [|reflexivity].
  assert (Hid : Player.id
                  (fst (match Player.cls p with
                        | ServerSide s =>
                            ServerPlayer_update (GameStateManager.or_now (oracle i)) dt
                              (GameStateManager.or_spawnPosition (oracle i)) p s
                        | _ => (p, [])
                        end)) = Player.id p)
    by (destruct (Player.cls p); [reflexivity | apply ServerPlayer_update_id | reflexivity]).
  destruct (match Player.cls p with ServerSide s => _ | _ => (p, []) end) as [p' effects].
  cbn [fst] in Hid.
  destruct (fold_left _ effects _) as [projectiles' timers']. cbn [fst players].
  apply (map_list_set Player.id _ i _ p E). exact Hid.
Qed.

(** The tick, for a movement step that keeps the ids of the projectile
    and player stores. *)
Lemma updateWith_purges `{Math}
    (movementSystem_update : MovementSystem.t -> World -> list EntityRef -> Q -> list nat ->
                             World * list ImpactEvent)
    (gsm : GameStateManager.t) (deltaTime : Q) (oracle : nat -> GameStateManager.Oracle) :
  (forall ms w entities dt targets,
     map Player.id (players (fst (movementSystem_update ms w entities dt targets)))
     = map Player.id (players w)
     /\ map Projectile.id (projectiles (fst (movementSystem_update ms w entities dt targets)))
        = map Projectile.id (projectiles w)) ->
  let gsm' :=
    fst (fst (GameStateManager.updateWith movementSystem_update gsm deltaTime oracle)) in
  (forall q, In q (projectiles (GameStateManager.world gsm')) ->
             Projectile.markForRemoval q = false)
  /\ map Player.id (players (GameStateManager.world gsm'))
     = map Player.id (players (GameStateManager.world gsm))
  /\ GameStateManager.movementSystem gsm' = GameStateManager.movementSystem gsm.
Proof.
  intro Hids. cbv zeta. unfold GameStateManager.updateWith. cbv zeta.
  pose proof (updatePlayerAt_ids deltaTime oracle
                (seq 0 (List.length (players (GameStateManager.world gsm))))
                (GameStateManager.world gsm, [])) as Hp1.
  destruct (fold_left (GameStateManager.updatePlayerAt deltaTime oracle) _ _) as [w1 timers].
  cbn [fst] in Hp1.
  set (cur := map (Projectile.update deltaTime) (projectiles w1)).
  set (toRemove0 := fold_left GameStateManager.collectMarked cur []).
  set (alive := filter _ (seq 0 (List.length (players (GameStateManager.world gsm))))).
  set (moving := filter _ (seq 0 (List.length cur))).
  pose proof (Hids (GameStateManager.movementSystem gsm) (mkWorld (players w1) cur)
                (map PlayerRef alive ++ map ProjectileRef moving) deltaTime alive)
    as [Hp2 Hq2].
  destruct (movementSystem_update _ _ _ _ _) as [w2 events].
  cbn [fst players projectiles] in Hp2, Hq2.
  pose proof (collect_positions (projectiles w2) moving toRemove0) as Hcol.
  cbv zeta in Hcol. destruct Hcol as [Hkeep Hmark].
  set (toRemove := fold_left _ moving toRemove0) in *.
  cbn [fst GameStateManager.world GameStateManager.movementSystem players projectiles].
  split; [|split; [rewrite Hp2; exact Hp1 | reflexivity]].
  intros q Hin. apply removeAll_In in Hin. destruct Hin as [Hin Hnot].
  destruct (Projectile.markForRemoval q) eqn:Em; [|reflexivity].
  exfalso. apply In_nth_error in Hin. destruct Hin as [j Hj].
  destruct (nth_error_same_ids _ _ j q Hq2 Hj) as [q0 [Hj0 Hid0]].
  assert (Hmoving : In j moving).
  { subst moving. apply filter_In. split.
    - apply in_seq. split; [lia|]. cbn.
      apply nth_error_Some. rewrite Hj0. discriminate.
    - rewrite Hj0. rewrite Hid0.
      destruct (GameStateManager.includes toRemove0 (Projectile.id q)) eqn:E;
        [|reflexivity].
      rewrite (Hkeep _ E) in Hnot. discriminate. }
  rewrite (Hmark j q Hmoving Hj Em) in Hnot. discriminate.
Qed.

(** X27. The server tick purges every finished projectile and keeps the
    players.  After [GameStateManager.update], with either copy of the
    movement system and whatever the state, the time step and the
    environment, no projectile left in the store is marked for removal:
    those that ran out of range before moving and those stopped by an
    impact during the movement step are all deleted in the same tick; and
    the player store lists the same ids in the same order as before. *)
Theorem update_purges_marked_projectiles `{Math} (gsm : GameStateManager.t) (deltaTime : Q)
    (oracle : nat -> GameStateManager.Oracle) :
  let gsm' := fst (fst (GameStateManager.update gsm deltaTime oracle)) in
  let gsm0 := fst (fst (GameStateManager.update0 gsm deltaTime oracle)) in
  ((forall q, In q (projectiles (GameStateManager.world gsm')) ->
              Projectile.markForRemoval q = false)
   /\ map Player.id (players (GameStateManager.world gsm'))
      = map Player.id (players (GameStateManager.world gsm)))
  /\ ((forall q, In q (projectiles (GameStateManager.world gsm0)) ->
                 Projectile.markForRemoval q = false)
      /\ map Player.id (players (GameStateManager.world gsm0))
         = map Player.id (players (GameStateManager.world gsm))).
Proof.
  cbv zeta. unfold GameStateManager.update, GameStateManager.update0. split.
  - destruct (updateWith_purges MovementSystem.update gsm deltaTime oracle) as [A [B _]].
    + intros ms w entities dt targets.
      exact (proj1 (movement_update_ids ms w entities dt targets)).
    + split; [exact A | exact B].
  - destruct (updateWith_purges MovementSystem0.update gsm deltaTime oracle) as [A [B _]].
    + intros ms w entities dt targets.
      exact (proj2 (movement_update_ids ms w entities dt targets)).
    + split; [exact A | exact B].
Qed.

(** ** Shapes of the boxes the code builds *)

(** X28. The hitboxes of a player with non-negative dimensions.  They
    are the three boxes "head", "torso" and "legs", in that order, each
    with ordered faces.  Vertically they stack without a gap: the legs
    start 0.02 below the feet, the torso starts below the top of the legs
    and the head below the top of the torso.  The head ends at
    0.85 * height + 0.7 * width + 0.02 above the feet, while the bounding
    box ends at height + 0.01: whenever 0.15 * height < 0.7 * width + 0.01,
    as for the default dimensions, the head hitbox reaches above the
    bounding box. *)
Theorem hitboxes_stack_without_gap (p : Player.t) :
  0 <= Player.width p -> 0 <= Player.height p -> 0 <= Player.depth p ->
  let feet := y (Player.position p) in
  let bbox := Player.getBoundingBox p (Player.position p) in
  exists head torso legs,
    Player.getHitboxes p
    = [("head"%string, head); ("torso"%string, torso); ("legs"%string, legs)]
    /\ (wellFormed head /\ wellFormed torso /\ wellFormed legs /\ wellFormed bbox)
    /\ y (aabb_min legs) == feet - (2 # 100)
    /\ y (aabb_min torso) < y (aabb_max legs)
    /\ y (aabb_min head) < y (aabb_max torso)
    /\ y (aabb_max head)
       == feet + (85 # 100) * Player.height p + (7 # 10) * Player.width p + (2 # 100)
    /\ y (aabb_max bbox) == feet + Player.height p + (1 # 100)
    /\ ((15 # 100) * Player.height p < (7 # 10) * Player.width p + (1 # 100) ->
        y (aabb_max bbox) < y (aabb_max head)).
Proof.
  intros Hw Hh Hd. cbv zeta. unfold Player.getHitboxes, Player._calculateHitboxes.
  cbv zeta. eexists. eexists. eexists. split; [reflexivity|].
  unfold Player.getBoundingBox, Player._calculateAABB, wellFormed. cbv zeta.
  cbn [aabb_min aabb_max Vec.add Vec.subtract x y z].
  set (w := Player.width p) in *. set (h := Player.height p) in *.
  set (d := Player.depth p) in *. set (px := x (Player.position p)).
  set (py := y (Player.position p)). set (pz := z (Player.position p)).
  clearbody w h d px py pz.
  assert (Hhalf : forall q, q / 2 == q * (1 # 2)) by (intro q; field).
  split.
  - repeat split; intros [];
      cbn [component aabb_min aabb_max Vec.add Vec.subtract x y z];
      rewrite ?Hhalf; lra.
  - split; [rewrite ?Hhalf; lra|]. split; [rewrite ?Hhalf; lra|].
    split; [rewrite ?Hhalf; lra|]. split; [rewrite ?Hhalf; lra|].
    split; [lra|]. intro Hdims. rewrite ?Hhalf. lra.
Qed.

Lemma hitboxes_stack_without_gap_witness :
  exists head,
    nth_error (Player.getHitboxes standingPlayer) 0 = Some ("head"%string, head)
    /\ y (aabb_max (Player.getBoundingBox standingPlayer (Player.position standingPlayer)))
       < y (aabb_max head).
Proof.
  assert (H1 : 0 <= Player.width standingPlayer) by discriminate.
  assert (H2 : 0 <= Player.height standingPlayer) by discriminate.
  assert (H3 : 0 <= Player.depth standingPlayer) by discriminate.
  destruct (hitboxes_stack_without_gap standingPlayer H1 H2 H3)
    as [head [torso [legs [E [_ [_ [_ [_ [_ [_ Habove]]]]]]]]]].
  exists head. split; [rewrite E; reflexivity|]. apply Habove. reflexivity.
Defined.

Lemma component_add_component (a : Axis) (v : Vector3) (d : Q) :
  component a (CollisionSystem.add_component a v d) = component a v + d.
Proof. destruct a; reflexivity. Qed.

Lemma checkAABBOverlap_false_axis (A B : AABB) (a : Axis) :
  component a (aabb_max A) <= component a (aabb_min B)
  \/ component a (aabb_max B) <= component a (aabb_min A) ->
  CollisionSystem.checkAABBOverlap A B = false.
Proof.
  intro H. destruct (CollisionSystem.checkAABBOverlap A B) eqn:E; [|reflexivity].
  destruct (proj1 (checkAABBOverlap_true A B) E a) as [H1 H2]. lra.
Qed.

(** One push along an axis on which the boxes are staggered separates
    them on that axis. *)
Lemma pushAlong_separates (a : Axis) (obs : AABB) (st : CollisionSystem.PushState) :
  staggered a (CollisionSystem.entityAABB st) obs ->
  let st' := CollisionSystem.pushAlong a
               (CollisionSystem.axisOverlap a (CollisionSystem.entityAABB st) obs) obs st in
  CollisionSystem.checkAABBOverlap (CollisionSystem.entityAABB st') obs = false
  /\ CollisionSystem.collisionOccurredThisIteration st' = true
  /\ exists push,
       CollisionSystem.adjustedPosition st'
       = CollisionSystem.add_component a (CollisionSystem.adjustedPosition st) push
       /\ Qabs push
          == Qabs (CollisionSystem.axisOverlap a (CollisionSystem.entityAABB st) obs
                   + CollisionSystem.RESOLUTION_EPSILON)
       /\ 0 <= component a (CollisionSystem.push_velocity st') * push.
Proof.
  intro Hst. cbv zeta. unfold CollisionSystem.pushAlong. cbv zeta.
  cbn [CollisionSystem.entityAABB CollisionSystem.collisionOccurredThisIteration
       CollisionSystem.adjustedPosition CollisionSystem.push_velocity].
  set (box := CollisionSystem.entityAABB st) in *.
  set (ov := CollisionSystem.axisOverlap a box obs).
  set (ce := component a (aabb_min box)
             + (component a (aabb_max box) - component a (aabb_min box)) / 2).
  set (co := component a (aabb_min obs)
             + (component a (aabb_max obs) - component a (aabb_min obs)) / 2).
  set (push := if Qltb ce co then - (ov + CollisionSystem.RESOLUTION_EPSILON)
               else ov + CollisionSystem.RESOLUTION_EPSILON).
  assert (Hce : 2 * ce == component a (aabb_min box) + component a (aabb_max box))
    by (unfold ce; field).
  assert (Hco : 2 * co == component a (aabb_min obs) + component a (aabb_max obs))
    by (unfold co; field).
  assert (Hov : ov == Qmin (component a (aabb_max box)) (component a (aabb_max obs))
                      - Qmax (component a (aabb_min box)) (component a (aabb_min obs)))
    by reflexivity.
  split; [|split; [reflexivity|]].
  - apply (checkAABBOverlap_false_axis _ _ a). cbn [aabb_min aabb_max].
    rewrite !component_add_component. unfold staggered in Hst.
    unfold CollisionSystem.RESOLUTION_EPSILON in *.
    set (e0 := component a (aabb_min box)) in *.
    set (e1 := component a (aabb_max box)) in *.
    set (o0 := component a (aabb_min obs)) in *.
    set (o1 := component a (aabb_max obs)) in *.
    destruct Hst as [[Hl0 Hl1]|[Hr0 Hr1]].
    + rewrite (Q.min_l e1 o1) in Hov by exact Hl1.
      rewrite (Q.max_r e0 o0) in Hov by exact Hl0.
      subst push. destruct (Qltb ce co) eqn:Ec.
      * left. clearbody ce co ov e0 e1 o0 o1. lra.
      * apply Qltb_ge in Ec. right. clearbody ce co ov e0 e1 o0 o1. lra.
    + rewrite (Q.min_r e1 o1) in Hov by exact Hr1.
      rewrite (Q.max_l e0 o0) in Hov by exact Hr0.
      subst push. destruct (Qltb ce co) eqn:Ec.
      * apply Qltb_lt in Ec. exfalso. clearbody ce co ov e0 e1 o0 o1. lra.
      * right. clearbody ce co ov e0 e1 o0 o1. lra.
  - exists push. split; [reflexivity|]. split.
    + subst push. destruct (Qltb ce co); [apply Qabs_opp | reflexivity].
    + set (v := CollisionSystem.push_velocity st).
      destruct (Qltb (Math_sign (component a v) * Math_sign push) 0) eqn:Es.
      * assert (Ez : component a (CollisionSystem.set_component a v 0) = 0)
          by (destruct a; reflexivity).
        rewrite Ez. lra.
      * apply Qltb_ge in Es. unfold Math_sign in Es.
        clearbody push. set (va := component a v) in *. clearbody va.
        destruct (Qltb 0 va) eqn:E1; destruct (Qltb 0 push) eqn:E2;
          try apply Qltb_lt in E1; try apply Qltb_ge in E1;
          try apply Qltb_lt in E2; try apply Qltb_ge in E2;
          try (destruct (Qltb va 0) eqn:E3;
               [apply Qltb_lt in E3 | apply Qltb_ge in E3]);
          try (destruct (Qltb push 0) eqn:E4;
               [apply Qltb_lt in E4 | apply Qltb_ge in E4]);
          try (exfalso; vm_compute in Es; apply Es; reflexivity);
          nra.
Qed.

(** X29. One push separates staggered boxes.  When the entity's box
    overlaps the box of an obstacle and, on every axis of least overlap,
    neither box sticks out of the other on both sides, one step of the
    obstacle loop of [resolveStaticObstacleCollision] moves the entity
    along a single axis by the overlap on that axis plus
    RESOLUTION_EPSILON, after which the two boxes no longer overlap; the
    step is flagged as a collision, and the velocity component on that
    axis no longer points against the push. *)
Theorem push_separates_staggered_boxes (obstacle : Obstacle)
    (st : CollisionSystem.PushState) :
  let obs := CollisionSystem.obstacleAABB obstacle in
  let box := CollisionSystem.entityAABB st in
  CollisionSystem.checkAABBOverlap box obs = true ->
  (forall a,
     (forall b, CollisionSystem.axisOverlap a box obs <= CollisionSystem.axisOverlap b box obs)
     -> staggered a box obs) ->
  let st' := CollisionSystem.pushStep obstacle st in
  CollisionSystem.checkAABBOverlap (CollisionSystem.entityAABB st') obs = false
  /\ CollisionSystem.collisionOccurredThisIteration st' = true
  /\ exists a push,
       CollisionSystem.adjustedPosition st'
       = CollisionSystem.add_component a (CollisionSystem.adjustedPosition st) push
       /\ Qabs push
          == Qabs (CollisionSystem.axisOverlap a box obs + CollisionSystem.RESOLUTION_EPSILON)
       /\ 0 <= component a (CollisionSystem.push_velocity st') * push.
Proof.
  cbv zeta. intros Hov Hst. unfold CollisionSystem.pushStep. cbv zeta. rewrite Hov.
  set (box := CollisionSystem.entityAABB st) in *.
  set (obs := CollisionSystem.obstacleAABB obstacle) in *.
  set (oX := CollisionSystem.axisOverlap AxisX box obs) in *.
  set (oY := CollisionSystem.axisOverlap AxisY box obs) in *.
  set (oZ := CollisionSystem.axisOverlap AxisZ box obs) in *.
  destruct (Qleb oX oY) eqn:Exy; destruct (Qleb oX oZ) eqn:Exz; cbn [andb];
    try apply Qleb_le in Exy; try apply Qleb_gt in Exy;
    try apply Qleb_le in Exz; try apply Qleb_gt in Exz.
  1: { assert (HX : staggered AxisX box obs)
         by (apply Hst; intros []; fold oX oY oZ; lra).
       destruct (pushAlong_separates AxisX obs st HX) as [A [B C]].
       split; [exact A|]. split; [exact B|]. exists AxisX. exact C. }
  all: destruct (Qleb oY oX) eqn:Eyx; destruct (Qleb oY oZ) eqn:Eyz; cbn [andb];
    try apply Qleb_le in Eyx; try apply Qleb_gt in Eyx;
    try apply Qleb_le in Eyz; try apply Qleb_gt in Eyz.
  all: try (assert (HY : staggered AxisY box obs)
              by (apply Hst; intros []; fold oX oY oZ; lra);
            destruct (pushAlong_separates AxisY obs st HY) as [A [B C]];
            split; [exact A|]; split; [exact B|]; exists AxisY; exact C).
  all: assert (HZ : staggered AxisZ box obs)
         by (apply Hst; intros []; fold oX oY oZ; lra);
       destruct (pushAlong_separates AxisZ obs st HZ) as [A [B C]];
       split; [exact A|]; split; [exact B|]; exists AxisZ; exact C.
Qed.

Lemma push_separates_staggered_boxes_witness :
  CollisionSystem.checkAABBOverlap (CollisionSystem.entityAABB pressedAgainstWall)
    (CollisionSystem.obstacleAABB scenarioWall) = true
  /\ CollisionSystem.checkAABBOverlap
       (CollisionSystem.entityAABB (CollisionSystem.pushStep scenarioWall pressedAgainstWall))
       (CollisionSystem.obstacleAABB scenarioWall) = false.
Proof.
  assert (H1 : CollisionSystem.checkAABBOverlap
                 (CollisionSystem.entityAABB pressedAgainstWall)
                 (CollisionSystem.obstacleAABB scenarioWall) = true) by reflexivity.
  split; [exact H1|].
  apply (push_separates_staggered_boxes scenarioWall pressedAgainstWall H1).
  intros [] Hmin.
  - left. split; vm_compute; discriminate.
  - exfalso. specialize (Hmin AxisX). vm_compute in Hmin. apply Hmin. reflexivity.
  - exfalso. specialize (Hmin AxisX). vm_compute in Hmin. apply Hmin. reflexivity.
Defined.

(** ** PersistentGameLoop: time keeping *)

Lemma tick_time (now : Q) (throws : bool) (now' : Q) (l : PersistentGameLoop.t) :
  let r := PersistentGameLoop.tick now throws now' l in
  sumQ (match snd r with Some d => [d] | None => [] end) * 1000
  == PersistentGameLoop.lastTickTime (fst r) - PersistentGameLoop.lastTickTime l
  /\ PersistentGameLoop.isRunning (fst r) = PersistentGameLoop.isRunning l && negb throws
  /\ (PersistentGameLoop.isRunning l = true -> throws = true ->
      PersistentGameLoop.timerId (fst r) = None).
Proof.
  cbv zeta. unfold PersistentGameLoop.tick.
  destruct (PersistentGameLoop.isRunning l) eqn:Er; cbn [negb].
  - cbv zeta. destruct throws.
    + unfold PersistentGameLoop.stop. cbn [PersistentGameLoop.isRunning].
      cbn [negb fst snd PersistentGameLoop.lastTickTime PersistentGameLoop.isRunning
           PersistentGameLoop.timerId sumQ fold_right andb].
      split; [field|]. split; reflexivity.
    + unfold PersistentGameLoop.scheduleNextTick.
      cbn [fst snd PersistentGameLoop.lastTickTime PersistentGameLoop.isRunning
           sumQ fold_right andb negb].
      split; [field|]. split; [reflexivity | discriminate].
  - cbn [fst snd sumQ fold_right andb]. split; [ring|]. split; [exact Er | discriminate].
Qed.

(** X30. The game loop keeps time.  Over any sequence of timer firings,
    with any clock readings, the [deltaTime]s handed to the update
    callback add up to the time between the tick time the loop started
    from and its last tick time: no time is lost or counted twice,
    however late the timers fire.  The loop is still running afterwards
    exactly when it was running and no callback threw; once a callback has
    thrown no timer is pending.  After a tick that completes, the pending
    delay is not negative and aims at one tick interval after the start of
    that tick, or at once if that moment has passed. *)
Theorem game_loop_keeps_time (ticks : list (Q * bool * Q)) (l : PersistentGameLoop.t) :
  let r := PersistentGameLoop.run ticks l in
  sumQ (snd r) * 1000
  == PersistentGameLoop.lastTickTime (fst r) - PersistentGameLoop.lastTickTime l
  /\ PersistentGameLoop.isRunning (fst r)
     = PersistentGameLoop.isRunning l && forallb (fun k => negb (snd (fst k))) ticks
  /\ (PersistentGameLoop.isRunning l = true ->
      existsb (fun k => snd (fst k)) ticks = true ->
      PersistentGameLoop.timerId (fst r) = None)
  /\ (forall now now',
        PersistentGameLoop.isRunning l = true ->
        exists delay,
          PersistentGameLoop.timerId (fst (PersistentGameLoop.tick now false now' l))
          = Some delay
          /\ 0 <= delay
          /\ now' + delay == Qmax now' (now + SERVER_TICK_INTERVAL_MS)).
Proof.
  cbv zeta. split; [|split; [|split]].
  - revert l. induction ticks as [|[[now throws] now'] rest IH]; intro l;
      cbn [PersistentGameLoop.run].
    + cbn. ring.
    + pose proof (tick_time now throws now' l) as [Ht _]. cbv zeta in Ht.
      destruct (PersistentGameLoop.tick now throws now' l) as [l1 dt].
      specialize (IH l1). destruct (PersistentGameLoop.run rest l1) as [l2 dts].
      cbn [fst snd] in *. unfold sumQ in *.
      destruct dt as [d|]; cbn [fold_right] in *; lra.
  - revert l. induction ticks as [|[[now throws] now'] rest IH]; intro l;
      cbn [PersistentGameLoop.run forallb fst snd].
    + rewrite andb_true_r. reflexivity.
    + pose proof (tick_time now throws now' l) as [_ [Hr _]]. cbv zeta in Hr.
      destruct (PersistentGameLoop.tick now throws now' l) as [l1 dt].
      specialize (IH l1). destruct (PersistentGameLoop.run rest l1) as [l2 dts].
      cbn [fst snd] in *. rewrite IH, Hr. rewrite andb_assoc. reflexivity.
  - revert l. induction ticks as [|[[now throws] now'] rest IH]; intros l Hrun Hex;
      cbn [PersistentGameLoop.run existsb fst snd] in *; [discriminate|].
    pose proof (tick_time now throws now' l) as [_ [Hr Hstop]]. cbv zeta in Hr, Hstop.
    destruct (PersistentGameLoop.tick now throws now' l) as [l1 dt] eqn:Et.
    specialize (IH l1). cbn [fst snd] in *.
    destruct throws; cbn [orb negb] in *.
    + specialize (Hstop Hrun eq_refl). rewrite Hrun in Hr. cbn [andb] in Hr.
      assert (Hidle : forall ks l0, PersistentGameLoop.isRunning l0 = false ->
                        fst (PersistentGameLoop.run ks l0) = l0).
      { induction ks as [|[[n t] n'] ks IHk]; intros l0 H0; [reflexivity|].
        cbn [PersistentGameLoop.run]. unfold PersistentGameLoop.tick. rewrite H0.
        cbn [negb]. specialize (IHk l0 H0).
        destruct (PersistentGameLoop.run ks l0) as [l3 dts3]. exact IHk. }
      specialize (Hidle rest l1 Hr).
      destruct (PersistentGameLoop.run rest l1) as [l2 dts]. cbn [fst] in *.
      rewrite Hidle. exact Hstop.
    + rewrite Hrun in Hr. cbn [andb] in Hr.
      destruct (PersistentGameLoop.run rest l1) as [l2 dts]. cbn [fst] in *.
      apply IH; assumption.
  - intros now now' Hrun. unfold PersistentGameLoop.tick. rewrite Hrun. cbn [negb].
    cbv zeta. unfold PersistentGameLoop.scheduleNextTick.
    cbn [fst PersistentGameLoop.timerId PersistentGameLoop.lastTickTime].
    eexists. split; [reflexivity|]. split; [apply Q.le_max_l|].
    apply Q.max_case_strong; [intros ? ? E; rewrite E; exact (fun H => H)| |];
      intro Hc; apply Q.max_case_strong;
      try (intros ? ? E; rewrite E; exact (fun H => H)); intro Hc'; lra.
Qed.
